(** * lattigo: RLWE encryptor, LWE extraction and bootstrapping parameters

  A shallow embedding of
  - [ckks/bootstrap_params.go]  ([BootstrappingParameters.Copy]),
  - the [rlwe] encryptor ([pkEncryptor], [skEncryptor], [setKey]),
  - the LWE extraction exercised by the [lwe] test-suite,
  together with the properties stated about them.

  Unsigned 64-bit words are [Z]; a [float64] is carried as its IEEE-754
  binary64 bit pattern, which is all that copying a value can observe. *)

From Stdlib Require Import ZArith List Bool Lia.
From stdpp Require Import base tactics option list.

Local Open Scope Z_scope.

(* ===================================================================== *)
(** ** Go slices, as far as [make] and [copy] are concerned *)
(* ===================================================================== *)

Module GoSlice.

(** [make([]T, n)]: [n] zero values. *)
Definition make {A} (zero : A) (n : nat) : list A := replicate n zero.

(** [copy(dst, src)]: the first [min(len(dst), len(src))] elements of
    [src] overwrite those of [dst]; the length of [dst] is unchanged. *)
Definition copy {A} (dst src : list A) : list A :=
  let k := Nat.min (length dst) (length src) in
  take k src ++ drop k dst.

End GoSlice.

(* ===================================================================== *)
(** ** ckks/bootstrap_params.go *)
(* ===================================================================== *)

Module ckks.

(** IEEE-754 binary64 bit pattern. The zero value of the type is [0]. *)
Definition float64 := Z.
Definition uint64 := Z.

(** [type SinType uint64] with its three named constants. *)
Definition SinType := uint64.
Definition Sin : SinType := 0.
Definition Cos1 : SinType := 1.
Definition Cos2 : SinType := 2.

Definition ResidualModuli := list uint64.
Definition KeySwitchModuli := list uint64.

Module CoeffsToSlotsModuli.
Record t := mk { Qi : list uint64; ScalingFactor : list (list float64) }.
Definition zero : t := mk [] [].
End CoeffsToSlotsModuli.

Module SineEvalModuli.
Record t := mk { Qi : list uint64; ScalingFactor : float64 }.
Definition zero : t := mk [] 0.
End SineEvalModuli.

Module SlotsToCoeffsModuli.
Record t := mk { Qi : list uint64; ScalingFactor : list (list float64) }.
Definition zero : t := mk [] [].
End SlotsToCoeffsModuli.

Record BootstrappingParameters := mkBootstrappingParameters {
  residualModuli : ResidualModuli;
  keySwitchModuli : KeySwitchModuli;
  slotsToCoeffsModuli : SlotsToCoeffsModuli.t;
  sineEvalModuli : SineEvalModuli.t;
  coeffsToSlotsModuli : CoeffsToSlotsModuli.t;
  LogN : uint64;
  LogSlots : uint64;
  Scale : float64;
  Sigma : float64;
  H : uint64;
  sinType : SinType;
  MessageRatio : float64;
  SinRange : uint64;
  SinDeg : uint64;
  SinRescal : uint64;
  ArcSineDeg : uint64;
  MaxN1N2Ratio : float64
}.

(** [CtSDepth(actual)]: the number of moduli consumed when [actual],
    otherwise the factorisation depth (one per scaling factor). *)
Definition CtSDepth (b : BootstrappingParameters) (actual : bool) : nat :=
  if actual
  then length (CoeffsToSlotsModuli.ScalingFactor (coeffsToSlotsModuli b))
  else fold_left (fun depth r => fold_left (fun d _ => S d) r depth)
                 (CoeffsToSlotsModuli.ScalingFactor (coeffsToSlotsModuli b)) O.

Definition StCDepth (b : BootstrappingParameters) (actual : bool) : nat :=
  if actual
  then length (SlotsToCoeffsModuli.ScalingFactor (slotsToCoeffsModuli b))
  else fold_left (fun depth r => fold_left (fun d _ => S d) r depth)
                 (SlotsToCoeffsModuli.ScalingFactor (slotsToCoeffsModuli b)) O.

(** The loop
    [for i := range dst { dst[i] = make([]float64, len(src[i])); copy(dst[i], src[i]) }]
    where [dst] was made with as many rows as [src] has. *)
Definition copyRows (src : list (list float64)) : list (list float64) :=
  imap (fun i _ =>
          let r := default [] (src !! i) in
          GoSlice.copy (GoSlice.make 0 (length r)) r)
       (GoSlice.make ([] : list float64) (length src)).

(** [Copy]: the struct literal sets eight scalar fields, every other
    field starts from its zero value; five slices are then made and
    filled. The three [Qi] lists are made with the length of a
    _scaling-factor_ list ([CtSDepth(true)], [CtSDepth(true)] and
    [StCDepth(true)]). *)
Definition Copy (b : BootstrappingParameters) : BootstrappingParameters :=
  let cts_Qi := GoSlice.copy (GoSlice.make 0 (CtSDepth b true))
                             (CoeffsToSlotsModuli.Qi (coeffsToSlotsModuli b)) in
  let cts_SF := copyRows (CoeffsToSlotsModuli.ScalingFactor (coeffsToSlotsModuli b)) in
  let sin_Qi := GoSlice.copy (GoSlice.make 0 (CtSDepth b true))
                             (SineEvalModuli.Qi (sineEvalModuli b)) in
  let stc_Qi := GoSlice.copy (GoSlice.make 0 (StCDepth b true))
                             (SlotsToCoeffsModuli.Qi (slotsToCoeffsModuli b)) in
  let stc_SF := copyRows (SlotsToCoeffsModuli.ScalingFactor (slotsToCoeffsModuli b)) in
  {| residualModuli :=
       GoSlice.copy (GoSlice.make 0 (length (residualModuli b))) (residualModuli b);
     keySwitchModuli := [];
     slotsToCoeffsModuli := SlotsToCoeffsModuli.mk stc_Qi stc_SF;
     sineEvalModuli :=
       SineEvalModuli.mk sin_Qi (SineEvalModuli.ScalingFactor (sineEvalModuli b));
     coeffsToSlotsModuli := CoeffsToSlotsModuli.mk cts_Qi cts_SF;
     LogN := 0;
     LogSlots := 0;
     Scale := 0;
     Sigma := 0;
     H := H b;
     sinType := sinType b;
     MessageRatio := MessageRatio b;
     SinRange := SinRange b;
     SinDeg := SinDeg b;
     SinRescal := SinRescal b;
     ArcSineDeg := ArcSineDeg b;
     MaxN1N2Ratio := MaxN1N2Ratio b |}.

(** The first entry of [DefaultBootstrapParams] ("SET II, 1521 - 550").
    [DefaultSigma] is declared outside this file and is left as an
    argument. *)
Definition DefaultBootstrapParams0 (DefaultSigma : float64) : BootstrappingParameters :=
  {| LogN := 16;
     LogSlots := 15;
     Scale := 0x42c0000000000000;  (* 1 << 45 *)
     Sigma := DefaultSigma;
     residualModuli :=
       [ 0x80000000080001; 0x2000000a0001; 0x2000000e0001; 0x1fffffc20001;
         0x200000440001; 0x200000500001; 0x200000620001; 0x1fffff980001;
         0x2000006a0001; 0x1fffff7e0001; 0x200000860001 ];
     keySwitchModuli :=
       [ 0xfffffffff00001; 0xffffffffd80001; 0x1000000002a0001;
         0xffffffffd20001; 0x100000000480001 ];
     slotsToCoeffsModuli :=
       SlotsToCoeffsModuli.mk
         [ 0x100000000060001; 0xffa0001 ]
         [ [ 0x41b0000000003000; 0x41b0000000003000 ];  (* 268435456.0007324 *)
           [ 0x41aff40002000000 ] ];                     (* 0xffa0001 *)
     sineEvalModuli :=
       SineEvalModuli.mk
         [ 0x80000000440001; 0x7fffffffba0001; 0x80000000500001;
           0x7fffffffaa0001; 0x800000005e0001; 0x7fffffff7e0001;
           0x7fffffff380001; 0x80000000ca0001 ]
         0x4360000000000000;                             (* 1 << 55 *)
     coeffsToSlotsModuli :=
       CoeffsToSlotsModuli.mk
         [ 0x200000000e0001; 0x20000000140001; 0x20000000280001;
           0x1fffffffd80001 ]
         [ [ 0x4340000000070000 ]; [ 0x43400000000a0000 ];
           [ 0x4340000000140000 ]; [ 0x433fffffffd80001 ] ];
     H := 192;
     sinType := Cos1;
     MessageRatio := 0x4090000000000000;                 (* 1024.0 *)
     SinRange := 25;
     SinDeg := 63;
     SinRescal := 2;
     ArcSineDeg := 0;
     MaxN1N2Ratio := 0x4030000000000000 |}.              (* 16.0 *)

End ckks.

(* ===================================================================== *)
(** ** rlwe: the encryptor *)
(* ===================================================================== *)

(** The encryptor source carries unresolved merge markers. The two sides
    differ in the names of the scratch buffers ([buffQ]/[buffP] against
    [poolQ]/[poolP]/[poolQP]) and in whether the plaintext pointer is
    tested against [nil]. The embedding follows the incoming side (the text
    between [=======] and [>>>>>>>]) in every marked region: it is the only
    reading under which [skEncryptor.encryptRLWE] has both of its branches.
    The locals [buffQ0] and [poolQ0] name the same buffer, [enc.poolQ[0]]. *)

Module rlwe.

(** *** Ring elements *)

(** One residue row: the [N] coefficients of a polynomial modulo one prime. *)
Abbreviation row := (list Z) (only parsing).

(** [ring.Poly]: one row per modulus of the chain, and the domain flag. *)
Record Poly := mkPoly { Coeffs : list row; IsNTT : bool }.

Definition setCoeffs (p : Poly) (c : list row) : Poly :=
  {| Coeffs := c; IsNTT := IsNTT p |}.

Definition setIsNTT (p : Poly) (b : bool) : Poly :=
  {| Coeffs := Coeffs p; IsNTT := b |}.

(** [Level() = len(Coeffs) - 1], a Go [int]. *)
Definition Level (p : Poly) : Z := Z.of_nat (length (Coeffs p)) - 1.

(** Number of rows touched by an operation "at level [level]":
    [for i := 0; i < level+1; i++]. *)
Definition rowsAt (level : Z) : nat := Z.to_nat (level + 1).

(** [ringqp.Poly]: a pair of pointers, the [P] part possibly [nil]. *)
Record QP (A : Type) := mkQP { Q : A; P : A }.
Arguments mkQP {A} _ _.
Arguments Q {A} _.
Arguments P {A} _.

(** *** Panics *)

Inductive panic :=
| NilPointerDereference
| IndexOutOfRange
| UnsupportedCiphertext
| CRPWithPublicKey
| PkDegreeMismatch
| SkDegreeMismatch
| UnsupportedKey.

Inductive result (A : Type) :=
| Ok (a : A)
| Panic (e : panic).
Arguments Ok {A} a.
Arguments Panic {A} e.

(** The two Go runtime errors, as opposed to the explicit [panic(...)]
    calls of the encryptor. *)
Definition runtimeError (e : panic) : bool :=
  match e with
  | NilPointerDereference | IndexOutOfRange => true
  | _ => false
  end.

(** *** The heap *)

(** Every ring element the encryptor can reach through a pointer: the
    caller's ciphertext, plaintext and common reference polynomial, the
    keys, the encryptor's own buffers, and the entries
    [ct.Value[k].Value[i][j][c]] of an RGSW ciphertext. *)
Inductive loc :=
| CtValue (i : nat)
| PtValue
| CrpValue
| SkQ | SkP
| PkQ (i : nat) | PkP (i : nat)
| PoolQ (i : nat)
| PoolP (i : nat)
| PoolQP_Q | PoolQP_P
| GadgetQ (k i j c : nat)
| GadgetP (k i j c : nat).

Definition loc_eqb (a b : loc) : bool :=
  match a, b with
  | CtValue i, CtValue j => Nat.eqb i j
  | PtValue, PtValue | CrpValue, CrpValue | SkQ, SkQ | SkP, SkP => true
  | PkQ i, PkQ j | PkP i, PkP j | PoolQ i, PoolQ j | PoolP i, PoolP j => Nat.eqb i j
  | PoolQP_Q, PoolQP_Q | PoolQP_P, PoolQP_P => true
  | GadgetQ k i j c, GadgetQ k' i' j' c'
  | GadgetP k i j c, GadgetP k' i' j' c' =>
      Nat.eqb k k' && Nat.eqb i i' && Nat.eqb j j' && Nat.eqb c c'
  | _, _ => false
  end.

Definition heap := loc -> option Poly.

Definition update (h : heap) (l : loc) (p : Poly) : heap :=
  fun l' => if loc_eqb l l' then Some p else h l'.

(** What Go raises when the element behind [l] is missing: an index out of
    range for an entry of a slice of ring elements, a nil dereference for a
    nil pointer. *)
Definition missing (l : loc) : panic :=
  match l with
  | CtValue _ | GadgetQ _ _ _ _ => IndexOutOfRange
  | _ => NilPointerDereference
  end.

(** *** The ring arithmetic provider *)

(** [ring.Ring], one operation per residue row; the first argument of each
    is the index of the modulus. *)
Record Ring := mkRing {
  ModulusCount : nat;
  rowNTT : nat -> row -> row;
  rowInvNTT : nat -> row -> row;
  rowMForm : nat -> row -> row;
  rowAdd : nat -> row -> row -> row;
  rowNeg : nat -> row -> row;
  rowMulMontgomery : nat -> row -> row -> row;
  rowMulMontgomeryAndSub : nat -> row -> row -> row -> row
}.

(** Samplers over one PRNG stream, basis extension, and the gadget
    product. A sample is given by its residue row for each modulus. *)
Class Provider := mkProvider {
  prng : Type;
  gaussianSample : prng -> Z -> (nat -> row) * prng;
  ternarySample : prng -> Z -> (nat -> row) * prng;
  uniformSampleQ : prng -> Z -> (nat -> row) * prng;
  uniformSampleP : prng -> Z -> (nat -> row) * prng;
  extendRow : nat -> row -> row;
  modDownRow : Z -> Z -> nat -> row -> list row -> row;
  addPolyToGadgetMatrix : Poly -> Z -> heap -> heap
}.

(** [rlwe.Parameters], as far as the encryptor reads them. *)
Record Parameters := mkParameters {
  N : Z;
  RingQ : Ring;
  RingP : option Ring;
  DecompRNS : Z -> Z -> nat;
  DecompBIT : Z -> Z -> nat;
  LogBase2 : Z
}.

Definition PCount (params : Parameters) : nat :=
  match RingP params with Some r => ModulusCount r | None => O end.

Definition MaxLevel (params : Parameters) : Z :=
  Z.of_nat (ModulusCount (RingQ params)) - 1.

(** *** Row-wise operations at a level *)

Definition levelGuard (r : Ring) (level : Z) (operands : list Poly) : bool :=
  (rowsAt level <=? ModulusCount r)%nat
  && forallb (fun p => (rowsAt level <=? length (Coeffs p))%nat) operands.

(** Row [i] of a ring element (read only below a passed [levelGuard]). *)
Definition rowAt (p : Poly) (i : nat) : row := default [] (Coeffs p !! i).

(** The rows of [dst] after a loop [for i := 0; i < level+1; i++] that
    writes [g i] into row [i]. *)
Definition writeRows (level : Z) (g : nat -> row) (dst : Poly) : Poly :=
  setCoeffs dst
    (imap (fun i old => if (i <? rowsAt level)%nat then g i else old)
          (Coeffs dst)).

(** [p2.Coeffs[i] = f(i, p1.Coeffs[i])] for [i <= level]. *)
Definition mapLvl (r : Ring) (f : nat -> row -> row) (level : Z)
    (p1 p2 : Poly) : result Poly :=
  if levelGuard r level [p1; p2]
  then Ok (writeRows level (fun i => f i (rowAt p1 i)) p2)
  else Panic IndexOutOfRange.

(** [p3.Coeffs[i] = f(i, p1.Coeffs[i], p2.Coeffs[i])] for [i <= level]. *)
Definition zipLvl (r : Ring) (f : nat -> row -> row -> row) (level : Z)
    (p1 p2 p3 : Poly) : result Poly :=
  if levelGuard r level [p1; p2; p3]
  then Ok (writeRows level (fun i => f i (rowAt p1 i) (rowAt p2 i)) p3)
  else Panic IndexOutOfRange.

(** [p3.Coeffs[i] = f(i, p1.Coeffs[i], p2.Coeffs[i], p3.Coeffs[i])]. *)
Definition zip3Lvl (r : Ring) (f : nat -> row -> row -> row -> row) (level : Z)
    (p1 p2 p3 : Poly) : result Poly :=
  if levelGuard r level [p1; p2; p3]
  then Ok (writeRows level
             (fun i => f i (rowAt p1 i) (rowAt p2 i) (rowAt p3 i)) p3)
  else Panic IndexOutOfRange.

(** A sampler's [ReadLvl(level, pol)]: rows [0..level] of [pol] receive the
    sample. *)
Definition fillLvl (r : Ring) (sample : nat -> row) (level : Z)
    (pol : Poly) : result Poly :=
  mapLvl r (fun i _ => sample i) level pol pol.

(** *** The state monad with panics *)

Section Monad.
Context {PV : Provider}.

Record state := mkState { mem : heap; rng : prng }.

Definition M (A : Type) : Type := state -> result (A * state).

Definition ret {A} (a : A) : M A := fun s => Ok (a, s).

Definition bind {A B} (m : M A) (k : A -> M B) : M B :=
  fun s => match m s with
           | Ok (a, s') => k a s'
           | Panic e => Panic e
           end.

Definition fail {A} (e : panic) : M A := fun _ => Panic e.

Definition liftR {A} (r : result A) : M A :=
  fun s => match r with Ok a => Ok (a, s) | Panic e => Panic e end.

(** Dereference a pointer to a ring element. *)
Definition load (l : loc) : M Poly :=
  fun s => match mem s l with
           | Some p => Ok (p, s)
           | None => Panic (missing l)
           end.

(** Write through a pointer that was dereferenced before. *)
Definition store (l : loc) (p : Poly) : M unit :=
  fun s => Ok (tt, {| mem := update (mem s) l p; rng := rng s |}).

(** [p != nil] for a pointer to a ring element. *)
Definition notNil (l : loc) : M bool :=
  fun s => Ok (match mem s l with Some _ => true | None => false end, s).

Definition draw (sampler : prng -> Z -> (nat -> row) * prng) (level : Z)
  : M (nat -> row) :=
  fun s => let (sample, g) := sampler (rng s) level in
           Ok (sample, {| mem := mem s; rng := g |}).

End Monad.

Declare Scope go_scope.
Delimit Scope go_scope with go.
Notation "x <- c1 ;; c2" := (bind c1 (fun x => c2))
  (at level 100, c1 at next level, right associativity) : go_scope.
Notation "c1 ;; c2" := (bind c1 (fun _ => c2))
  (at level 100, right associativity) : go_scope.

(** *** Methods of the ring package, acting through pointers *)

Section RingMethods.
Context {PV : Provider}.
Local Open Scope go_scope.

Definition when (b : bool) (m : M unit) : M unit := if b then m else ret tt.

(** [s[i]] on a Go slice. *)
Definition index {A} (s : list A) (i : nat) : M A :=
  match s !! i with
  | Some x => ret x
  | None => fail IndexOutOfRange
  end.

Definition unary (r : Ring) (f : nat -> row -> row) (level : Z)
    (p1 p2 : loc) : M unit :=
  a <- load p1 ;;
  d <- load p2 ;;
  d' <- liftR (mapLvl r f level a d) ;;
  store p2 d'.

Definition binary (r : Ring) (f : nat -> row -> row -> row) (level : Z)
    (p1 p2 p3 : loc) : M unit :=
  a <- load p1 ;;
  b <- load p2 ;;
  d <- load p3 ;;
  d' <- liftR (zipLvl r f level a b d) ;;
  store p3 d'.

Definition ternary (r : Ring) (f : nat -> row -> row -> row -> row) (level : Z)
    (p1 p2 p3 : loc) : M unit :=
  a <- load p1 ;;
  b <- load p2 ;;
  d <- load p3 ;;
  d' <- liftR (zip3Lvl r f level a b d) ;;
  store p3 d'.

Definition NTTLvl (r : Ring) := unary r (rowNTT r).
Definition InvNTTLvl (r : Ring) := unary r (rowInvNTT r).
Definition MFormLvl (r : Ring) := unary r (rowMForm r).
Definition NegLvl (r : Ring) := unary r (rowNeg r).
Definition AddLvl (r : Ring) := binary r (rowAdd r).
Definition MulCoeffsMontgomeryLvl (r : Ring) := binary r (rowMulMontgomery r).
Definition MulCoeffsMontgomeryAndSubLvl (r : Ring) :=
  ternary r (rowMulMontgomeryAndSub r).

(** A sampler bound to the ring [r]: [ReadLvl(level, pol)]. *)
Definition ReadLvl (sampler : prng -> Z -> (nat -> row) * prng) (r : Ring)
    (level : Z) (pol : loc) : M unit :=
  d <- load pol ;;
  sample <- draw sampler level ;;
  d' <- liftR (fillLvl r sample level d) ;;
  store pol d'.

(** [ReadAndAddLvl(level, pol)]: the sample is added onto [pol]. *)
Definition ReadAndAddLvl (sampler : prng -> Z -> (nat -> row) * prng) (r : Ring)
    (level : Z) (pol : loc) : M unit :=
  d <- load pol ;;
  sample <- draw sampler level ;;
  d' <- liftR (mapLvl r (fun i x => rowAdd r i x (sample i)) level d d) ;;
  store pol d'.

(** Modelled from the spec: [ring.CopyValues] (the ring package is consumed,
    not part of the sources): the rows of [p0] are copied over those of
    [p1], which must have at least as many; the flags are not transferred. *)
Definition CopyValues (p0 p1 : loc) : M unit :=
  a <- load p0 ;;
  d <- load p1 ;;
  if (length (Coeffs a) <=? length (Coeffs d))%nat
  then store p1 (setCoeffs d
                   (imap (fun i old =>
                            if (i <? length (Coeffs a))%nat
                            then GoSlice.copy old (rowAt a i) else old)
                         (Coeffs d)))
  else fail IndexOutOfRange.

(** [ciphertext.Value[i].Coeffs = ciphertext.Value[i].Coeffs[:level+1]]. *)
Definition truncate (level : Z) (p : loc) : M unit :=
  d <- load p ;;
  if (rowsAt level <=? length (Coeffs d))%nat
  then store p (setCoeffs d (take (rowsAt level) (Coeffs d)))
  else fail IndexOutOfRange.

(** [pol.Degree() = len(pol.Coeffs[0])]. *)
Definition Degree (p : loc) : M Z :=
  d <- load p ;;
  r0 <- index (Coeffs d) 0 ;;
  ret (Z.of_nat (length r0)).

Section RingQP.
Variable params : Parameters.

(** Methods of [ringqp.Ring = {RingQ, RingP}]: the [Q] parts at [levelQ],
    and, when the parameters have a ring [P], the [P] parts at [levelP]. *)
Definition QP_unary (op : Ring -> Z -> loc -> loc -> M unit)
    (levelQ levelP : Z) (p1 p2 : QP loc) : M unit :=
  op (RingQ params) levelQ (Q p1) (Q p2) ;;
  match RingP params with
  | Some rP => op rP levelP (P p1) (P p2)
  | None => ret tt
  end.

Definition QP_binary (op : Ring -> Z -> loc -> loc -> loc -> M unit)
    (levelQ levelP : Z) (p1 p2 p3 : QP loc) : M unit :=
  op (RingQ params) levelQ (Q p1) (Q p2) (Q p3) ;;
  match RingP params with
  | Some rP => op rP levelP (P p1) (P p2) (P p3)
  | None => ret tt
  end.

Definition QP_NTTLvl := QP_unary NTTLvl.
Definition QP_InvNTTLvl := QP_unary InvNTTLvl.
Definition QP_MFormLvl := QP_unary MFormLvl.
Definition QP_AddLvl := QP_binary AddLvl.
Definition QP_MulCoeffsMontgomeryLvl := QP_binary MulCoeffsMontgomeryLvl.
Definition QP_MulCoeffsMontgomeryAndSubLvl := QP_binary MulCoeffsMontgomeryAndSubLvl.

(** [ringQP.ExtendBasisSmallNormAndCenter(polyInQ, levelP, nil, polyOutP)]:
    the small-norm polynomial held in row 0 of [polyInQ] is centred and
    written modulo each of the first [levelP+1] primes of [P]. Every call of
    the encryptor passes [nil] for the third argument. *)
Definition ExtendBasisSmallNormAndCenter (polyInQ : loc) (levelP : Z)
    (polyOutP : loc) : M unit :=
  match RingP params with
  | None => fail NilPointerDereference
  | Some rP =>
      a <- load polyInQ ;;
      d <- load polyOutP ;;
      r0 <- index (Coeffs a) 0 ;;
      d' <- liftR (fillLvl rP (fun i => extendRow i r0) levelP d) ;;
      store polyOutP d'
  end.

(** [basisextender.ModDownQPtoQ(levelQ, levelP, p1Q, p1P, p2Q)]: row [i] of
    the result is computed from row [i] of [p1Q] and the first [levelP+1]
    rows of [p1P]. *)
Definition ModDownQPtoQ (levelQ levelP : Z) (p1Q p1P p2Q : loc) : M unit :=
  match RingP params with
  | None => fail NilPointerDereference
  | Some rP =>
      a <- load p1Q ;;
      b <- load p1P ;;
      d <- load p2Q ;;
      if levelGuard rP levelP [b]
      then d' <- liftR (mapLvl (RingQ params)
                          (fun i x => modDownRow levelQ levelP i x
                                        (take (rowsAt levelP) (Coeffs b)))
                          levelQ a d) ;;
           store p2Q d'
      else fail IndexOutOfRange
  end.

End RingQP.
End RingMethods.

(** *** Plaintexts, ciphertexts and keys *)

(** Each of these holds pointers to ring elements. *)
Record Plaintext := mkPlaintext { pt_Value : loc }.
Record Ciphertext := mkCiphertext { ct_Value : list loc }.
Record SecretKey := mkSecretKey { sk_Value : QP loc }.
Record PublicKey := mkPublicKey { pk_Value : QP loc * QP loc }.

(** [rgsw.Ciphertext]: the entry [ct.Value[k].Value[i][j][c]] of the one
    RGSW ciphertext of the heap. *)
Definition rgsw_Value (k i j c : nat) : QP loc :=
  mkQP (GadgetQ k i j c) (GadgetP k i j c).

(** The dynamic type of the [ct interface{}] argument of [Encrypt]. *)
Inductive ciphertextArg :=
| IsCiphertext (el : Ciphertext)
| IsRgswCiphertext
| IsOtherType.

(** The dynamic type of the [key interface{}] argument of [setKey]. *)
Inductive keyArg :=
| IsPublicKey (key : PublicKey)
| IsSecretKey (key : SecretKey)
| IsOtherKey.

(** The objects of a call in which nothing is aliased. *)
Definition thePlaintext : Plaintext := mkPlaintext PtValue.
Definition theCiphertext : Ciphertext := mkCiphertext [CtValue 0; CtValue 1]%nat.
Definition theSecretKey : SecretKey := mkSecretKey (mkQP SkQ SkP).
Definition thePublicKey : PublicKey :=
  mkPublicKey (mkQP (PkQ 0) (PkP 0), mkQP (PkQ 1) (PkP 1)).
Section Accessors.
Context {PV : Provider}.
Local Open Scope go_scope.

(** Modelled from the spec: [Plaintext.Level] (the plaintext type is declared
    outside the sources): the level of the plaintext's one ring element.
    The method reads the element through the receiver, which a nil
    receiver does not have. *)
Definition Plaintext_Level (pt : option Plaintext) : M Z :=
  match pt with
  | None => fail NilPointerDereference
  | Some p => v <- load (pt_Value p) ;; ret (Level v)
  end.

(** Modelled from the spec: [Ciphertext.Level] (declared outside the
    sources): the shared level of the components, read off [Value[0]]. *)
Definition Ciphertext_Level (el : Ciphertext) : M Z :=
  l <- index (ct_Value el) 0 ;;
  v <- load l ;;
  ret (Level v).

Definition flagOf (l : loc) : M bool := v <- load l ;; ret (IsNTT v).

(** [ciphertext.Value[1].IsNTT = ciphertext.Value[0].IsNTT]. *)
Definition copyFlag (src dst : loc) : M unit :=
  b <- flagOf src ;;
  d <- load dst ;;
  store dst (setIsNTT d b).

(** Modelled from the spec: [rgsw.Ciphertext.LevelQ] and [LevelP] (declared
    outside the sources): the levels of the first matrix entry, [-1] for an
    absent [P] part. *)
Definition rgsw_LevelQ : M Z :=
  v <- load (Q (rgsw_Value 0 0 0 0)) ;; ret (Level v).

Definition rgsw_LevelP : M Z :=
  b <- notNil (P (rgsw_Value 0 0 0 0)) ;;
  if b then v <- load (P (rgsw_Value 0 0 0 0)) ;; ret (Level v)
  else ret (-1).

End Accessors.

(** *** The encryptor *)

(** [encryptor]: the parameters and whether a basis extender was built.
    The samplers live in the PRNG stream of the state, the buffers in the
    heap. *)
Record encryptor := mkEncryptor {
  params : Parameters;
  basisextender : bool
}.

(** The two implementations of the [Encryptor] interface. *)
Inductive Encryptor :=
| PkEncryptor (enc : encryptor) (pk : PublicKey)
| SkEncryptor (enc : encryptor) (sk : SecretKey).

(** [ringQ.NewPoly()]: all rows present, all coefficients zero. *)
Definition NewPoly (n : Z) (r : Ring) : Poly :=
  mkPoly (replicate (ModulusCount r) (replicate (Z.to_nat n) 0)) false.

(** [newEncryptorBuffers]: the [P] buffers stay nil without a modulus [P]. *)
Definition newEncryptorBuffers (params : Parameters) (h : heap) : heap :=
  fun l =>
    match l with
    | PoolQ 0 | PoolQ 1 | PoolQP_Q => Some (NewPoly (N params) (RingQ params))
    | PoolP 0 | PoolP 1 | PoolP 2 =>
        match RingP params with
        | Some rP => if (PCount params =? 0)%nat then None
                     else Some (NewPoly (N params) rP)
        | None => None
        end
    | PoolQP_P =>
        match RingP params with
        | Some rP => Some (NewPoly (N params) rP)
        | None => None
        end
    | _ => h l
    end.

Definition newEncryptor (params : Parameters) : encryptor :=
  {| params := params; basisextender := negb (PCount params =? 0)%nat |}.

Section Encryptor.
Context {PV : Provider}.
Local Open Scope go_scope.

Definition setKey (enc : encryptor) (key : keyArg) : M Encryptor :=
  match key with
  | IsPublicKey key =>
      d0 <- Degree (Q (fst (pk_Value key))) ;;
      if negb (d0 =? N (params enc)) then fail PkDegreeMismatch
      else d1 <- Degree (Q (snd (pk_Value key))) ;;
           if negb (d1 =? N (params enc)) then fail PkDegreeMismatch
           else ret (PkEncryptor enc key)
  | IsSecretKey key =>
      d <- Degree (Q (sk_Value key)) ;;
      if negb (d =? N (params enc)) then fail SkDegreeMismatch
      else ret (SkEncryptor enc key)
  | IsOtherKey => fail UnsupportedKey
  end.

Definition NewEncryptor (params : Parameters) (key : keyArg) : M Encryptor :=
  (fun s => Ok (tt, {| mem := newEncryptorBuffers params (mem s); rng := rng s |})) ;;
  setKey (newEncryptor params) key.

(** The three samplers over [Q], and the uniform one over [P], which is nil
    without a modulus [P]. *)
Definition gaussianSampler_ReadLvl (enc : encryptor) :=
  ReadLvl gaussianSample (RingQ (params enc)).
Definition gaussianSampler_ReadAndAddLvl (enc : encryptor) :=
  ReadAndAddLvl gaussianSample (RingQ (params enc)).
Definition ternarySampler_ReadLvl (enc : encryptor) :=
  ReadLvl ternarySample (RingQ (params enc)).
Definition uniformSamplerQ_ReadLvl (enc : encryptor) :=
  ReadLvl uniformSampleQ (RingQ (params enc)).
Definition uniformSamplerP_ReadLvl (enc : encryptor) (level : Z) (pol : loc)
  : M unit :=
  match RingP (params enc) with
  | Some rP => if (PCount (params enc) =? 0)%nat then fail NilPointerDereference
               else ReadLvl uniformSampleP rP level pol
  | None => fail NilPointerDereference
  end.

(** The common tail of the three RLWE routines. *)
Definition finish (levelQ : Z) (ct0 ct1 : loc) : M unit :=
  copyFlag ct0 ct1 ;;
  truncate levelQ ct0 ;;
  truncate levelQ ct1.

(** [pkEncryptor.encryptRLWE] *)
Definition pk_encryptRLWE (enc : encryptor) (pk : PublicKey)
    (plaintext : option Plaintext) (ciphertext : Ciphertext) : M unit :=
  let ringQ := RingQ (params enc) in
  let ringQP := params enc in
  ptLevel <- Plaintext_Level plaintext ;;
  ctLevel <- Ciphertext_Level ciphertext ;;
  let levelQ := Z.min ptLevel ctLevel in
  let levelP := 0 in
  let poolQ0 := PoolQ 0 in
  let poolP0 := PoolP 0 in
  let poolP1 := PoolP 1 in
  let poolP2 := PoolP 2 in
  ct0 <- index (ct_Value ciphertext) 0 ;;
  ciphertextNTT <- flagOf ct0 ;;
  let u := mkQP poolQ0 poolP2 in
  ternarySampler_ReadLvl enc levelQ (Q u) ;;
  ExtendBasisSmallNormAndCenter ringQP (Q u) levelP (P u) ;;
  QP_NTTLvl ringQP levelQ levelP u u ;;
  QP_MFormLvl ringQP levelQ levelP u u ;;
  ct1 <- index (ct_Value ciphertext) 1 ;;
  let ct0QP := mkQP ct0 poolP0 in
  let ct1QP := mkQP ct1 poolP1 in
  QP_MulCoeffsMontgomeryLvl ringQP levelQ levelP u (fst (pk_Value pk)) ct0QP ;;
  QP_MulCoeffsMontgomeryLvl ringQP levelQ levelP u (snd (pk_Value pk)) ct1QP ;;
  QP_InvNTTLvl ringQP levelQ levelP ct0QP ct0QP ;;
  QP_InvNTTLvl ringQP levelQ levelP ct1QP ct1QP ;;
  let e := mkQP poolQ0 poolP2 in
  gaussianSampler_ReadLvl enc levelQ (Q e) ;;
  ExtendBasisSmallNormAndCenter ringQP (Q e) levelP (P e) ;;
  QP_AddLvl ringQP levelQ levelP ct0QP e ct0QP ;;
  gaussianSampler_ReadLvl enc levelQ (Q e) ;;
  ExtendBasisSmallNormAndCenter ringQP (Q e) levelP (P e) ;;
  QP_AddLvl ringQP levelQ levelP ct1QP e ct1QP ;;
  ModDownQPtoQ ringQP levelQ levelP (Q ct0QP) (P ct0QP) (Q ct0QP) ;;
  ModDownQPtoQ ringQP levelQ levelP (Q ct1QP) (P ct1QP) (Q ct1QP) ;;
  (if ciphertextNTT then
     match plaintext with
     | Some pt =>
         ptNTT <- flagOf (pt_Value pt) ;;
         when (negb ptNTT) (AddLvl ringQ levelQ ct0 (pt_Value pt) ct0)
     | None => ret tt
     end ;;
     NTTLvl ringQ levelQ ct0 ct0 ;;
     NTTLvl ringQ levelQ ct1 ct1 ;;
     match plaintext with
     | Some pt =>
         ptNTT <- flagOf (pt_Value pt) ;;
         when ptNTT (AddLvl ringQ levelQ ct0 (pt_Value pt) ct0)
     | None => ret tt
     end
   else
     match plaintext with
     | Some pt =>
         ptNTT <- flagOf (pt_Value pt) ;;
         if negb ptNTT
         then AddLvl ringQ levelQ ct0 (pt_Value pt) ct0
         else InvNTTLvl ringQ levelQ (pt_Value pt) poolQ0 ;;
              AddLvl ringQ levelQ ct0 poolQ0 ct0
     | None => ret tt
     end) ;;
  finish levelQ ct0 ct1.

(** [pkEncryptor.encryptNoPRLWE] *)
Definition pk_encryptNoPRLWE (enc : encryptor) (pk : PublicKey)
    (plaintext : option Plaintext) (ciphertext : Ciphertext) : M unit :=
  ptLevel <- Plaintext_Level plaintext ;;
  ctLevel <- Ciphertext_Level ciphertext ;;
  let levelQ := Z.min ptLevel ctLevel in
  let poolQ0 := PoolQ 0 in
  let ringQ := RingQ (params enc) in
  ct0 <- index (ct_Value ciphertext) 0 ;;
  ciphertextNTT <- flagOf ct0 ;;
  ternarySampler_ReadLvl enc levelQ poolQ0 ;;
  NTTLvl ringQ levelQ poolQ0 poolQ0 ;;
  MFormLvl ringQ levelQ poolQ0 poolQ0 ;;
  MulCoeffsMontgomeryLvl ringQ levelQ poolQ0 (Q (fst (pk_Value pk))) ct0 ;;
  ct1 <- index (ct_Value ciphertext) 1 ;;
  MulCoeffsMontgomeryLvl ringQ levelQ poolQ0 (Q (snd (pk_Value pk))) ct1 ;;
  (if ciphertextNTT then
     gaussianSampler_ReadLvl enc levelQ poolQ0 ;;
     NTTLvl ringQ levelQ poolQ0 poolQ0 ;;
     AddLvl ringQ levelQ ct1 poolQ0 ct1 ;;
     gaussianSampler_ReadLvl enc levelQ poolQ0 ;;
     match plaintext with
     | Some pt =>
         ptNTT <- flagOf (pt_Value pt) ;;
         if negb ptNTT
         then AddLvl ringQ levelQ poolQ0 (pt_Value pt) poolQ0 ;;
              NTTLvl ringQ levelQ poolQ0 poolQ0 ;;
              AddLvl ringQ levelQ ct0 poolQ0 ct0
         else NTTLvl ringQ levelQ poolQ0 poolQ0 ;;
              AddLvl ringQ levelQ ct0 poolQ0 ct0 ;;
              AddLvl ringQ levelQ ct0 (pt_Value pt) ct0
     | None => ret tt
     end
   else
     InvNTTLvl ringQ levelQ ct0 ct0 ;;
     InvNTTLvl ringQ levelQ ct1 ct1 ;;
     lvl0 <- Ciphertext_Level ciphertext ;;
     gaussianSampler_ReadAndAddLvl enc lvl0 ct0 ;;
     lvl1 <- Ciphertext_Level ciphertext ;;
     gaussianSampler_ReadAndAddLvl enc lvl1 ct1 ;;
     match plaintext with
     | Some pt =>
         ptNTT <- flagOf (pt_Value pt) ;;
         if negb ptNTT
         then AddLvl ringQ levelQ ct0 (pt_Value pt) ct0
         else InvNTTLvl ringQ levelQ (pt_Value pt) poolQ0 ;;
              AddLvl ringQ levelQ ct0 poolQ0 ct0
     | None => ret tt
     end) ;;
  finish levelQ ct0 ct1.

(** [skEncryptor.encryptRLWE] *)
Definition sk_encryptRLWE (enc : encryptor) (sk : SecretKey)
    (plaintext : option Plaintext) (ciphertext : Ciphertext) : M unit :=
  let ringQ := RingQ (params enc) in
  ptLevel <- Plaintext_Level plaintext ;;
  ctLevel <- Ciphertext_Level ciphertext ;;
  let levelQ := Z.min ptLevel ctLevel in
  let poolQ0 := PoolQ 0 in
  ct0 <- index (ct_Value ciphertext) 0 ;;
  ciphertextNTT <- flagOf ct0 ;;
  ct1 <- index (ct_Value ciphertext) 1 ;;
  MulCoeffsMontgomeryLvl ringQ levelQ ct1 (Q (sk_Value sk)) ct0 ;;
  NegLvl ringQ levelQ ct0 ct0 ;;
  (if ciphertextNTT then
     gaussianSampler_ReadLvl enc levelQ poolQ0 ;;
     match plaintext with
     | Some pt =>
         ptNTT <- flagOf (pt_Value pt) ;;
         if ptNTT
         then NTTLvl ringQ levelQ poolQ0 poolQ0 ;;
              AddLvl ringQ levelQ ct0 poolQ0 ct0 ;;
              AddLvl ringQ levelQ ct0 (pt_Value pt) ct0
         else AddLvl ringQ levelQ poolQ0 (pt_Value pt) poolQ0 ;;
              NTTLvl ringQ levelQ poolQ0 poolQ0 ;;
              AddLvl ringQ levelQ ct0 poolQ0 ct0
     | None => ret tt
     end
   else
     match plaintext with
     | Some pt =>
         ptNTT <- flagOf (pt_Value pt) ;;
         if ptNTT
         then AddLvl ringQ levelQ ct0 (pt_Value pt) ct0 ;;
              InvNTTLvl ringQ levelQ ct0 ct0
         else InvNTTLvl ringQ levelQ ct0 ct0 ;;
              AddLvl ringQ levelQ ct0 (pt_Value pt) ct0
     | None => ret tt
     end ;;
     lvl <- Ciphertext_Level ciphertext ;;
     gaussianSampler_ReadAndAddLvl enc lvl ct0 ;;
     InvNTTLvl ringQ levelQ ct1 ct1) ;;
  finish levelQ ct0 ct1.

(** [encryptor.encryptZeroSymetricQP] *)
Definition encryptZeroSymetricQP (enc : encryptor) (levelQ levelP : Z)
    (sk : QP loc) (sample montgomery ntt : bool) (ct : QP loc * QP loc)
  : M unit :=
  let ringQP := params enc in
  let ct0 := fst ct in
  let ct1 := snd ct in
  hasModulusP <- notNil (P ct0) ;;
  when ntt
    (gaussianSampler_ReadLvl enc levelQ (Q ct0) ;;
     when hasModulusP
       (ExtendBasisSmallNormAndCenter ringQP (Q ct0) levelP (P ct0)) ;;
     QP_NTTLvl ringQP levelQ levelP ct0 ct0) ;;
  when sample
    (uniformSamplerQ_ReadLvl enc levelQ (Q ct1) ;;
     when hasModulusP (uniformSamplerP_ReadLvl enc levelP (P ct1))) ;;
  QP_MulCoeffsMontgomeryAndSubLvl ringQP levelQ levelP ct1 sk ct0 ;;
  when (negb ntt)
    (QP_InvNTTLvl ringQP levelQ levelP ct0 ct0 ;;
     QP_InvNTTLvl ringQP levelQ levelP ct1 ct1 ;;
     let e := mkQP PoolQP_Q PoolQP_P in
     gaussianSampler_ReadLvl enc levelQ (Q e) ;;
     when hasModulusP
       (ExtendBasisSmallNormAndCenter ringQP (Q e) levelP (P e)) ;;
     QP_AddLvl ringQP levelQ levelP ct0 e ct0) ;;
  when montgomery
    (QP_MFormLvl ringQP levelQ levelP ct0 ct0 ;;
     QP_MFormLvl ringQP levelQ levelP ct1 ct1).

(** [for i := 0; i < n; i++ { body }] *)
Fixpoint forEach (l : list nat) (body : nat -> M unit) : M unit :=
  match l with
  | [] => ret tt
  | i :: l' => body i ;; forEach l' body
  end.

Definition forRange (n : nat) (body : nat -> M unit) : M unit :=
  forEach (seq 0 n) body.

(** [gadget.AddPolyToGadgetMatrix(pt, cts, ringQP, logbase2, buff)], called
    with [pt] and [buff] both [enc.poolQP.Q]: it rewrites the gadget
    matrices and its buffer, nothing else. *)
Definition AddPolyToGadgetMatrix (pt : loc) (logbase2 : Z) : M unit :=
  v <- load pt ;;
  fun s =>
    Ok (tt, {| mem := fun l =>
                 match l with
                 | GadgetQ _ _ _ _ | GadgetP _ _ _ _ | PoolQP_Q =>
                     addPolyToGadgetMatrix v logbase2 (mem s) l
                 | _ => mem s l
                 end;
               rng := rng s |}).

(** [skEncryptor.encryptRGSW] *)
Definition sk_encryptRGSW (enc : encryptor) (sk : SecretKey)
    (pt : option Plaintext) : M unit :=
  let ringQ := RingQ (params enc) in
  levelQ <- rgsw_LevelQ ;;
  levelP <- rgsw_LevelP ;;
  let decompRNS := DecompRNS (params enc) levelQ levelP in
  let decompBIT := DecompBIT (params enc) levelQ levelP in
  forRange decompBIT (fun j =>
    forRange decompRNS (fun i =>
      encryptZeroSymetricQP enc levelQ levelP (sk_Value sk) true true true
        (rgsw_Value 0 i j 0, rgsw_Value 0 i j 1) ;;
      encryptZeroSymetricQP enc levelQ levelP (sk_Value sk) true true true
        (rgsw_Value 1 i j 0, rgsw_Value 1 i j 1))) ;;
  match pt with
  | Some pt =>
      MFormLvl ringQ levelQ (pt_Value pt) PoolQP_Q ;;
      ptNTT <- flagOf (pt_Value pt) ;;
      when (negb ptNTT) (NTTLvl ringQ levelQ PoolQP_Q PoolQP_Q) ;;
      AddPolyToGadgetMatrix PoolQP_Q (LogBase2 (params enc))
  | None => ret tt
  end.

(** [pkEncryptor.Encrypt] *)
Definition pk_Encrypt (enc : encryptor) (pk : PublicKey)
    (pt : option Plaintext) (ct : ciphertextArg) : M unit :=
  match ct with
  | IsCiphertext el =>
      ptLevel <- Plaintext_Level pt ;;
      elLevel <- Ciphertext_Level el ;;
      el1 <- index (ct_Value el) 1 ;;
      uniformSamplerQ_ReadLvl enc (Z.min ptLevel elLevel) el1 ;;
      if basisextender enc
      then pk_encryptRLWE enc pk pt el
      else pk_encryptNoPRLWE enc pk pt el
  | _ => fail UnsupportedCiphertext
  end.

(** [pkEncryptor.EncryptFromCRP] *)
Definition pk_EncryptFromCRP (enc : encryptor) (pk : PublicKey)
    (pt : option Plaintext) (crp : loc) (ct : Ciphertext) : M unit :=
  fail CRPWithPublicKey.

(** [skEncryptor.Encrypt] *)
Definition sk_Encrypt (enc : encryptor) (sk : SecretKey)
    (pt : option Plaintext) (ct : ciphertextArg) : M unit :=
  match ct with
  | IsCiphertext el =>
      ptLevel <- Plaintext_Level pt ;;
      elLevel <- Ciphertext_Level el ;;
      el1 <- index (ct_Value el) 1 ;;
      uniformSamplerQ_ReadLvl enc (Z.min ptLevel elLevel) el1 ;;
      sk_encryptRLWE enc sk pt el
  | IsRgswCiphertext => sk_encryptRGSW enc sk pt
  | IsOtherType => fail UnsupportedCiphertext
  end.

(** [skEncryptor.EncryptFromCRP] *)
Definition sk_EncryptFromCRP (enc : encryptor) (sk : SecretKey)
    (pt : option Plaintext) (crp : loc) (ct : Ciphertext) : M unit :=
  ct1 <- index (ct_Value ct) 1 ;;
  CopyValues crp ct1 ;;
  sk_encryptRLWE enc sk pt ct.

(** The public-key routine with the steps in the order the specification
    lists them ("mod-down by P, then add independently sampled Gaussian
    noise to both ciphertext components"): the noise is added in [Q], after
    the division by [P]. Written from the specification, to be compared
    with [pk_encryptRLWE]; every other step is the code's. *)
Definition pk_encryptRLWE_specOrder (enc : encryptor) (pk : PublicKey)
    (plaintext : option Plaintext) (ciphertext : Ciphertext) : M unit :=
  let ringQ := RingQ (params enc) in
  let ringQP := params enc in
  ptLevel <- Plaintext_Level plaintext ;;
  ctLevel <- Ciphertext_Level ciphertext ;;
  let levelQ := Z.min ptLevel ctLevel in
  let levelP := 0 in
  let poolQ0 := PoolQ 0 in
  ct0 <- index (ct_Value ciphertext) 0 ;;
  ciphertextNTT <- flagOf ct0 ;;
  let u := mkQP poolQ0 (PoolP 2) in
  ternarySampler_ReadLvl enc levelQ (Q u) ;;
  ExtendBasisSmallNormAndCenter ringQP (Q u) levelP (P u) ;;
  QP_NTTLvl ringQP levelQ levelP u u ;;
  QP_MFormLvl ringQP levelQ levelP u u ;;
  ct1 <- index (ct_Value ciphertext) 1 ;;
  let ct0QP := mkQP ct0 (PoolP 0) in
  let ct1QP := mkQP ct1 (PoolP 1) in
  QP_MulCoeffsMontgomeryLvl ringQP levelQ levelP u (fst (pk_Value pk)) ct0QP ;;
  QP_MulCoeffsMontgomeryLvl ringQP levelQ levelP u (snd (pk_Value pk)) ct1QP ;;
  QP_InvNTTLvl ringQP levelQ levelP ct0QP ct0QP ;;
  QP_InvNTTLvl ringQP levelQ levelP ct1QP ct1QP ;;
  ModDownQPtoQ ringQP levelQ levelP (Q ct0QP) (P ct0QP) (Q ct0QP) ;;
  ModDownQPtoQ ringQP levelQ levelP (Q ct1QP) (P ct1QP) (Q ct1QP) ;;
  gaussianSampler_ReadLvl enc levelQ poolQ0 ;;
  AddLvl ringQ levelQ ct0 poolQ0 ct0 ;;
  gaussianSampler_ReadLvl enc levelQ poolQ0 ;;
  AddLvl ringQ levelQ ct1 poolQ0 ct1 ;;
  (if ciphertextNTT then
     match plaintext with
     | Some pt =>
         ptNTT <- flagOf (pt_Value pt) ;;
         when (negb ptNTT) (AddLvl ringQ levelQ ct0 (pt_Value pt) ct0)
     | None => ret tt
     end ;;
     NTTLvl ringQ levelQ ct0 ct0 ;;
     NTTLvl ringQ levelQ ct1 ct1 ;;
     match plaintext with
     | Some pt =>
         ptNTT <- flagOf (pt_Value pt) ;;
         when ptNTT (AddLvl ringQ levelQ ct0 (pt_Value pt) ct0)
     | None => ret tt
     end
   else
     match plaintext with
     | Some pt =>
         ptNTT <- flagOf (pt_Value pt) ;;
         if negb ptNTT
         then AddLvl ringQ levelQ ct0 (pt_Value pt) ct0
         else InvNTTLvl ringQ levelQ (pt_Value pt) poolQ0 ;;
              AddLvl ringQ levelQ ct0 poolQ0 ct0
     | None => ret tt
     end) ;;
  finish levelQ ct0 ct1.

(** The [Encryptor] interface. *)
Definition Encrypt (e : Encryptor) (pt : option Plaintext) (ct : ciphertextArg)
  : M unit :=
  match e with
  | PkEncryptor enc pk => pk_Encrypt enc pk pt ct
  | SkEncryptor enc sk => sk_Encrypt enc sk pt ct
  end.

Definition EncryptFromCRP (e : Encryptor) (pt : option Plaintext) (crp : loc)
    (ct : Ciphertext) : M unit :=
  match e with
  | PkEncryptor enc pk => pk_EncryptFromCRP enc pk pt crp ct
  | SkEncryptor enc sk => sk_EncryptFromCRP enc sk pt crp ct
  end.

End Encryptor.

End rlwe.

(* ===================================================================== *)
(** ** A small ring arithmetic provider *)
(* ===================================================================== *)

(** Degree [N = 2], chain [Q = (97, 113)], auxiliary modulus [P = (101)]:
    the negacyclic number-theoretic transform over [X^2 + 1] evaluates at
    the two square roots of [-1]. It serves to run the encryptor on
    concrete inputs. *)

Module Toy.
Import rlwe.

Definition Qi : list Z := [97; 113].
Definition Pi : list Z := [101].
Definition psiQ : list Z := [22; 15].
Definition psiP : list Z := [10].

(** Inverse modulo a prime, by Fermat. *)
Definition inv (q a : Z) : Z := (a ^ (q - 2)) mod q.

(** The Montgomery radix [2^64]. *)
Definition R : Z := 2 ^ 64.

Definition ntt (q psi : Z) (x : row) : row :=
  match x with
  | [a0; a1] => [(a0 + psi * a1) mod q; (a0 - psi * a1) mod q]
  | _ => x
  end.

Definition invntt (q psi : Z) (x : row) : row :=
  match x with
  | [b0; b1] => [((b0 + b1) * inv q 2) mod q;
                 ((b0 - b1) * inv q (2 * psi)) mod q]
  | _ => x
  end.

Definition centre (q c : Z) : Z := if q / 2 <? c then c - q else c.

Definition mkToyRing (qs psis : list Z) : Ring :=
  let q i := nth i qs 1 in
  let psi i := nth i psis 1 in
  {| ModulusCount := length qs;
     rowNTT := fun i => ntt (q i) (psi i);
     rowInvNTT := fun i => invntt (q i) (psi i);
     rowMForm := fun i => map (fun c => (c * R) mod q i);
     rowAdd := fun i => zip_with (fun a b => (a + b) mod q i);
     rowNeg := fun i => map (fun a => (- a) mod q i);
     rowMulMontgomery :=
       fun i => zip_with (fun a b => (a * b * inv (q i) R) mod q i);
     rowMulMontgomeryAndSub :=
       fun i a b c =>
         zip_with (fun ab c0 => (c0 - ab) mod q i)
                  (zip_with (fun x y => (x * y * inv (q i) R) mod q i) a b) c |}.

Definition ringQ : Ring := mkToyRing Qi psiQ.
Definition ringP : Ring := mkToyRing Pi psiP.

(** One conditional subtraction of the modulus. *)
Definition cred (q a : Z) : Z := if q <=? a then a - q else a.

(** The same ring with the addition and the negation of arithmetic on
    machine words: a sum is reduced by one conditional subtraction and the
    opposite of [a] is written [q - a], hence [q] for the opposite of [0].
    Its rows range over [0 .. q]. *)
Definition mkWordRing (qs psis : list Z) : Ring :=
  let q i := nth i qs 1 in
  let psi i := nth i psis 1 in
  {| ModulusCount := length qs;
     rowNTT := fun i => ntt (q i) (psi i);
     rowInvNTT := fun i => invntt (q i) (psi i);
     rowMForm := fun i => map (fun c => (c * R) mod q i);
     rowAdd := fun i => zip_with (fun a b => cred (q i) (a + b));
     rowNeg := fun i => map (fun a => q i - a);
     rowMulMontgomery :=
       fun i => zip_with (fun a b => (a * b * inv (q i) R) mod q i);
     rowMulMontgomeryAndSub :=
       fun i a b c =>
         zip_with (fun ab c0 => cred (q i) (c0 + (q i - ab)))
                  (zip_with (fun x y => (x * y * inv (q i) R) mod q i) a b) c |}.

Definition wordRingQ : Ring := mkWordRing Qi psiQ.

(** The modulus of row [i] of the chain [Q]. *)
Definition modulus (i : nat) : Z := nth i Qi 1.

(** A polynomial with small signed coefficients, reduced modulo [q]. *)
Definition residues (q : Z) (c : list Z) : row := map (fun x => x mod q) c.

(** The PRNG is a counter; each draw advances it by one. *)
Definition small (g : nat) (k : Z) : list Z :=
  [ (Z.of_nat g * 7 + 3) mod k - k / 2; (Z.of_nat g * 5 + 1) mod k - k / 2 ].

#[export] Instance provider : Provider :=
  {| prng := nat;
     gaussianSample := fun g _ => (fun i => residues (nth i Qi 1) (small g 9), S g);
     ternarySample := fun g _ => (fun i => residues (nth i Qi 1) (small g 3), S g);
     uniformSampleQ :=
       fun g _ => (fun i => [ (Z.of_nat g * 31 + Z.of_nat i * 17 + 5) mod nth i Qi 1;
                              (Z.of_nat g * 43 + Z.of_nat i * 29 + 11) mod nth i Qi 1 ],
                   S g);
     uniformSampleP :=
       fun g _ => (fun i => [ (Z.of_nat g * 13 + 7) mod nth i Pi 1;
                              (Z.of_nat g * 19 + 2) mod nth i Pi 1 ], S g);
     extendRow := fun i r0 => map (fun c => centre (nth 0 Qi 1) c mod nth i Pi 1) r0;
     modDownRow :=
       fun _ _ i x ps =>
         imap (fun j xq =>
                 ((xq - centre (nth 0 Pi 1) (nth j (nth 0 ps []) 0))
                  * inv (nth i Qi 1) (nth 0 Pi 1)) mod nth i Qi 1) x;
     addPolyToGadgetMatrix := fun _ _ h => h |}.

Definition paramsP : Parameters :=
  {| N := 2; RingQ := ringQ; RingP := Some ringP;
     DecompRNS := fun _ _ => 2%nat; DecompBIT := fun _ _ => 1%nat; LogBase2 := 0 |}.

Definition paramsNoP : Parameters :=
  {| N := 2; RingQ := ringQ; RingP := None;
     DecompRNS := fun _ _ => 2%nat; DecompBIT := fun _ _ => 1%nat; LogBase2 := 0 |}.

Definition paramsWord : Parameters :=
  {| N := 2; RingQ := wordRingQ; RingP := Some ringP;
     DecompRNS := fun _ _ => 2%nat; DecompBIT := fun _ _ => 1%nat; LogBase2 := 0 |}.

(** A heap holding a two-level ciphertext, a plaintext, a reference
    polynomial, a key pair in NTT and Montgomery form, and a 2-by-1 RGSW
    ciphertext; [withP] says whether the [P] parts exist. *)
Definition ctPoly (ctNTT : bool) : Poly := mkPoly [[0; 0]; [0; 0]] ctNTT.
Definition ptPoly (ptRows : list row) (ptNTT : bool) : Poly := mkPoly ptRows ptNTT.
Definition skPoly : Poly := mkPoly [[21; 60]; [8; 99]] true.
Definition pk0Poly : Poly := mkPoly [[11; 12]; [13; 14]] true.
Definition pk1Poly : Poly := mkPoly [[15; 16]; [17; 18]] true.
Definition pk0PolyP : Poly := mkPoly [[32; 33]] true.
Definition pk1PolyP : Poly := mkPoly [[34; 35]] true.

Definition objects (withP ctNTT ptNTT : bool) (ptRows : list row) : heap :=
  fun l =>
    match l with
    | CtValue 0 | CtValue 1 => Some (ctPoly ctNTT)
    | PtValue => Some (ptPoly ptRows ptNTT)
    | CrpValue => Some (mkPoly [[3; 4]; [5; 6]] true)
    | SkQ => Some skPoly
    | PkQ 0 => Some pk0Poly
    | PkQ 1 => Some pk1Poly
    | SkP => if withP then Some (mkPoly [[30; 31]] true) else None
    | PkP 0 => if withP then Some pk0PolyP else None
    | PkP 1 => if withP then Some pk1PolyP else None
    | GadgetQ (0 | 1) (0 | 1) 0 (0 | 1) => Some (mkPoly [[0; 0]; [0; 0]] true)
    | GadgetP (0 | 1) (0 | 1) 0 (0 | 1) =>
        if withP then Some (mkPoly [[0; 0]] true) else None
    | _ => None
    end.

Definition start (params : Parameters) (withP ctNTT ptNTT : bool)
    (ptRows : list row) : state :=
  {| mem := newEncryptorBuffers params (objects withP ctNTT ptNTT ptRows);
     rng := 1%nat |}.

(** The encryptors over the two parameter sets. *)
Definition encP : encryptor := newEncryptor paramsP.
Definition encNoP : encryptor := newEncryptor paramsNoP.
Definition encWord : encryptor := newEncryptor paramsWord.

(** The rows the word-level ring computes with: two entries between [0]
    and the modulus [i], both included. *)
Definition valid (i : nat) (x : row) : Prop :=
  (i < 2)%nat /\
  exists a0 a1, x = [a0; a1] /\ 0 <= a0 <= modulus i /\ 0 <= a1 <= modulus i.

(** What a caller observes of a run: the two components of its ciphertext. *)
Definition observe (r : result (unit * state)) : result (option Poly * option Poly) :=
  match r with
  | Ok (_, s) => Ok (mem s (CtValue 0), mem s (CtValue 1))
  | Panic e => Panic e
  end.

End Toy.

(* ===================================================================== *)
(** ** lwe: extraction of LWE samples and their decryption *)
(* ===================================================================== *)

(** The test-suite of the [lwe] package calls [RLWEToLWE] and [DecryptLWE];
    neither function is among the sources. *)

Module lwe.











End lwe.

(* ===================================================================== *)
(** ** Vocabulary of the statements *)
(* ===================================================================== *)

Module Spec.
Import rlwe.

Section Vocabulary.
Context {PV : Provider}.

(** Total correctness: [m] returns from [s], and [Q] holds of what it
    returns. *)
Definition wp {A} (m : M A) (Q : A -> state -> Prop) (s : state) : Prop :=
  match m s with
  | Ok (x, s') => Q x s'
  | Panic _ => False
  end.

(** [m] raises nothing but the Go runtime errors. *)
Definition faultsOnly {A} (m : M A) : Prop :=
  forall s e, m s = Panic e -> runtimeError e = true.

(** The ring element [p] carries the flag [flag], has exactly [n] rows, and
    its row [i] is [f i]. *)
Definition polyIs (p : Poly) (flag : bool) (n : nat) (f : nat -> row) : Prop :=
  IsNTT p = flag /\ length (Coeffs p) = n /\
  forall i, (i < n)%nat -> rowAt p i = f i.

(** The heap of [s] holds [p] at [l]. *)
Definition holds (s : state) (l : loc) (p : Poly) : Prop := mem s l = Some p.

End Vocabulary.

(** Reading a row under a domain flag: rows in the evaluation domain are
    taken back to coefficients. *)
Definition decode (r : Ring) (flag : bool) (i : nat) (x : row) : row :=
  if flag then rowInvNTT r i x else x.

(** Two rows agree entry by entry modulo [q]. *)
Definition congruent (q : Z) (x y : row) : Prop :=
  Forall2 (fun a b => a mod q = b mod q) x y.

(** What the encryptor needs of the ring arithmetic provider, on the rows
    [valid] singles out for each modulus (rows of the right length with
    entries in the range of the arithmetic), up to congruence modulo the
    modulus [q i] of the row: arithmetic on machine words need not return
    reduced residues, the opposite of [0] may be written [q i]. The
    inverse transform undoes the transform and is linear, and row addition
    respects congruence and is associative and commutative. *)
Record RingLaws (r : Ring) (q : nat -> Z) (valid : nat -> row -> Prop)
  : Prop := {
  NTT_valid : forall i x, valid i x -> valid i (rowNTT r i x);
  InvNTT_valid : forall i x, valid i x -> valid i (rowInvNTT r i x);
  MForm_valid : forall i x, valid i x -> valid i (rowMForm r i x);
  Add_valid : forall i x y, valid i x -> valid i y -> valid i (rowAdd r i x y);
  Neg_valid : forall i x, valid i x -> valid i (rowNeg r i x);
  Mul_valid : forall i x y,
      valid i x -> valid i y -> valid i (rowMulMontgomery r i x y);
  Add_cong : forall i x x' y y',
      valid i x -> valid i x' -> valid i y -> valid i y' ->
      congruent (q i) x x' -> congruent (q i) y y' ->
      congruent (q i) (rowAdd r i x y) (rowAdd r i x' y');
  InvNTT_NTT : forall i x, valid i x ->
      congruent (q i) (rowInvNTT r i (rowNTT r i x)) x;
  InvNTT_Add : forall i x y, valid i x -> valid i y ->
      congruent (q i) (rowInvNTT r i (rowAdd r i x y))
        (rowAdd r i (rowInvNTT r i x) (rowInvNTT r i y));
  InvNTT_Neg : forall i x, valid i x ->
      congruent (q i) (rowInvNTT r i (rowNeg r i x))
        (rowNeg r i (rowInvNTT r i x));
  Add_assoc : forall i x y z, valid i x -> valid i y -> valid i z ->
      congruent (q i) (rowAdd r i (rowAdd r i x y) z)
        (rowAdd r i x (rowAdd r i y z));
  Add_comm : forall i x y, valid i x -> valid i y ->
      congruent (q i) (rowAdd r i x y) (rowAdd r i y x)
}.

(** [d'] is [d] with its rows below [n] replaced by [g]. *)
Definition rewritten (d d' : Poly) (n : nat) (g : nat -> row) : Prop :=
  IsNTT d' = IsNTT d /\ length (Coeffs d') = length (Coeffs d) /\
  (forall i, (i < n)%nat -> rowAt d' i = g i) /\
  (forall i, (n <= i)%nat -> rowAt d' i = rowAt d i).

(** Row [i] of the body written by the secret-key routine, from the rows
    of the mask, of the noise, of the plaintext and of the secret. *)
Definition sk_body (r : Ring) (ctNTT ptNTT : bool) (i : nat)
    (mask e m sk : row) : row :=
  let negAS := rowNeg r i (rowMulMontgomery r i mask sk) in
  if ctNTT then
    if ptNTT
    then rowAdd r i (rowAdd r i negAS (rowNTT r i e)) m
    else rowAdd r i negAS (rowNTT r i (rowAdd r i e m))
  else
    if ptNTT
    then rowAdd r i (rowInvNTT r i (rowAdd r i negAS m)) e
    else rowAdd r i (rowAdd r i (rowInvNTT r i negAS) m) e.

Definition sk_mask (r : Ring) (ctNTT : bool) (i : nat) (mask : row) : row :=
  if ctNTT then mask else rowInvNTT r i mask.

(** The objects a secret-key encryption touches, in a heap without
    aliasing: the two components of a ciphertext whose level the
    parameters allow, the plaintext, the secret key and the first
    buffer, the last two with every row of the chain. *)
Record skInputs {PV : Provider} (prm : Parameters) (s : state)
    (c0 c1 ptv skq buf : Poly) : Prop := {
  sk_in_ct0 : holds s (CtValue 0) c0;
  sk_in_ct1 : holds s (CtValue 1) c1;
  sk_in_pt : holds s PtValue ptv;
  sk_in_sk : holds s SkQ skq;
  sk_in_buf : holds s (PoolQ 0) buf;
  sk_len_ct1 : length (Coeffs c1) = length (Coeffs c0);
  sk_len_max : (length (Coeffs c0) <= ModulusCount (RingQ prm))%nat;
  sk_len_sk : (ModulusCount (RingQ prm) <= length (Coeffs skq))%nat;
  sk_len_buf : (ModulusCount (RingQ prm) <= length (Coeffs buf))%nat
}.

(** Row [i] of one component before the plaintext is added, on the
    public-key path with a modulus [P]: the product of the lifted ephemeral
    [u] with the key is taken back to coefficients, the noise is added in
    the extended ring, and the sum is divided by [P]. *)
Definition pk_component (rQ rP : Ring) {PV : Provider} (levelQ : Z) (i : nat)
    (u e : nat -> row) (pkQ pkP : row) : row :=
  modDownRow levelQ 0 i
    (rowAdd rQ i
       (rowInvNTT rQ i
          (rowMulMontgomery rQ i (rowMForm rQ i (rowNTT rQ i (u i))) pkQ))
       (e i))
    [rowAdd rP 0%nat
       (rowInvNTT rP 0%nat
          (rowMulMontgomery rP 0%nat
             (rowMForm rP 0%nat (rowNTT rP 0%nat (extendRow 0%nat (u 0%nat))))
             pkP))
       (extendRow 0%nat (e 0%nat))].

(** The body and the mask once the plaintext row [m] is added and the
    result is brought to the domain of the ciphertext. *)
Definition pk_body (rQ : Ring) (ctNTT ptNTT : bool) (i : nat) (c m : row) : row :=
  if ctNTT then
    if ptNTT then rowAdd rQ i (rowNTT rQ i c) m else rowNTT rQ i (rowAdd rQ i c m)
  else
    if ptNTT then rowAdd rQ i c (rowInvNTT rQ i m) else rowAdd rQ i c m.

Definition pk_mask (rQ : Ring) (ctNTT : bool) (i : nat) (c : row) : row :=
  if ctNTT then rowNTT rQ i c else c.

(** The same on the public-key path without a modulus [P]. *)
Definition noP_body (rQ : Ring) (ctNTT ptNTT : bool) (i : nat)
    (u e m pk : row) : row :=
  let x := rowMulMontgomery rQ i (rowMForm rQ i (rowNTT rQ i u)) pk in
  if ctNTT then
    if ptNTT
    then rowAdd rQ i (rowAdd rQ i x (rowNTT rQ i e)) m
    else rowAdd rQ i x (rowNTT rQ i (rowAdd rQ i e m))
  else
    if ptNTT
    then rowAdd rQ i (rowAdd rQ i (rowInvNTT rQ i x) e) (rowInvNTT rQ i m)
    else rowAdd rQ i (rowAdd rQ i (rowInvNTT rQ i x) e) m.

Definition noP_mask (rQ : Ring) (ctNTT : bool) (i : nat) (u e pk : row) : row :=
  let x := rowMulMontgomery rQ i (rowMForm rQ i (rowNTT rQ i u)) pk in
  if ctNTT then rowAdd rQ i x (rowNTT rQ i e)
  else rowAdd rQ i (rowInvNTT rQ i x) e.

(** The objects a public-key encryption touches, in a heap without
    aliasing; [withP] tells whether the parameters have a modulus [P], in
    which case the [P] parts of the key and three more buffers are there. *)
Record pkInputs {PV : Provider} (enc : encryptor) (s : state)
    (c0 c1 ptv pk0 pk1 buf : Poly) : Prop := {
  pk_in_ct0 : holds s (CtValue 0) c0;
  pk_in_ct1 : holds s (CtValue 1) c1;
  pk_in_pt : holds s PtValue ptv;
  pk_in_pk0 : holds s (PkQ 0) pk0;
  pk_in_pk1 : holds s (PkQ 1) pk1;
  pk_in_buf : holds s (PoolQ 0) buf;
  pk_len_ct1 : length (Coeffs c1) = length (Coeffs c0);
  pk_len_max : (length (Coeffs c0) <= ModulusCount (RingQ (params enc)))%nat;
  pk_len_ct0 : (1 <= length (Coeffs c0))%nat;
  pk_len_pt : (1 <= length (Coeffs ptv))%nat;
  pk_len_pk0 : (ModulusCount (RingQ (params enc)) <= length (Coeffs pk0))%nat;
  pk_len_pk1 : (ModulusCount (RingQ (params enc)) <= length (Coeffs pk1))%nat;
  pk_len_buf : (ModulusCount (RingQ (params enc)) <= length (Coeffs buf))%nat
}.

Record pkInputsP {PV : Provider} (enc : encryptor) (rP : Ring) (s : state)
    (pk0P pk1P bufP0 bufP1 bufP2 : Poly) : Prop := {
  pk_ringP : RingP (params enc) = Some rP;
  pk_extender : basisextender enc = true;
  pk_in_pk0P : holds s (PkP 0) pk0P;
  pk_in_pk1P : holds s (PkP 1) pk1P;
  pk_in_bufP0 : holds s (PoolP 0) bufP0;
  pk_in_bufP1 : holds s (PoolP 1) bufP1;
  pk_in_bufP2 : holds s (PoolP 2) bufP2;
  pk_len_P : (1 <= ModulusCount rP)%nat;
  pk_len_pk0P : (ModulusCount rP <= length (Coeffs pk0P))%nat;
  pk_len_pk1P : (ModulusCount rP <= length (Coeffs pk1P))%nat;
  pk_len_bufP0 : (ModulusCount rP <= length (Coeffs bufP0))%nat;
  pk_len_bufP1 : (ModulusCount rP <= length (Coeffs bufP1))%nat;
  pk_len_bufP2 : (ModulusCount rP <= length (Coeffs bufP2))%nat
}.

(** What the samplers and the division by [P] owe to [valid]. *)
Record ProviderLaws {PV : Provider} (r : Ring) (q : nat -> Z)
    (valid : nat -> row -> Prop) : Prop := {
  ring_laws : RingLaws r q valid;
  gaussian_valid : forall g level i,
      (i < ModulusCount r)%nat -> valid i (fst (gaussianSample g level) i);
  ternary_valid : forall g level i,
      (i < ModulusCount r)%nat -> valid i (fst (ternarySample g level) i);
  uniform_valid : forall g level i,
      (i < ModulusCount r)%nat -> valid i (fst (uniformSampleQ g level) i);
  modDown_valid : forall levelQ levelP i x ps,
      valid i x -> valid i (modDownRow levelQ levelP i x ps)
}.

(** The first [n] rows of [p] are valid. *)
Definition validRows (valid : nat -> row -> Prop) (n : nat) (p : Poly) : Prop :=
  forall i, (i < n)%nat -> valid i (rowAt p i).

(** The coefficient-domain content of a secret-key encryption: the body
    [-mask*s + e + m] and the mask, whatever the two flags. *)
Definition sk_content (r : Ring) (ptNTT : bool) (i : nat)
    (mask e m sk : row) : row :=
  rowAdd r i
    (rowAdd r i (rowNeg r i (rowInvNTT r i (rowMulMontgomery r i mask sk))) e)
    (decode r ptNTT i m).

(** The coefficient-domain content of a public-key encryption with a
    modulus [P]: [c + m] for the component [c] left by the division. *)
Definition pk_content (r : Ring) (ptNTT : bool) (i : nat) (c m : row) : row :=
  rowAdd r i c (decode r ptNTT i m).

(** The same without a modulus [P]: [u*pk + e + m] and [u*pk + e]. *)
Definition noP_content (r : Ring) (ptNTT : bool) (i : nat)
    (u e m pk : row) : row :=
  rowAdd r i
    (rowAdd r i
       (rowInvNTT r i (rowMulMontgomery r i (rowMForm r i (rowNTT r i u)) pk)) e)
    (decode r ptNTT i m).

Definition noP_mask_content (r : Ring) (i : nat) (u e pk : row) : row :=
  rowAdd r i
    (rowInvNTT r i (rowMulMontgomery r i (rowMForm r i (rowNTT r i u)) pk)) e.

(** The run ended in the common tail of the RLWE routines. *)
Definition tailOf {PV : Provider} (el : Ciphertext) (s' : state) : Prop :=
  exists level l0 l1 s1,
    ct_Value el !! 0%nat = Some l0 /\ ct_Value el !! 1%nat = Some l1 /\
    finish level l0 l1 s1 = Ok (tt, s').

(** The two components of the caller's ciphertext carry one flag in [s]. *)
Definition flagsAgree {PV : Provider} (el : Ciphertext) (s : state) : Prop :=
  exists l0 l1 p0 p1,
    ct_Value el !! 0%nat = Some l0 /\ ct_Value el !! 1%nat = Some l1 /\
    mem s l0 = Some p0 /\ mem s l1 = Some p1 /\ IsNTT p0 = IsNTT p1.

(** The caller's ciphertext in [s']: both components carry [flag] and have
    [level + 1] rows, given by [body] and [mask]. *)
Definition ciphertextIs {PV : Provider} (flag : bool) (level : Z)
    (body mask : nat -> row) (s' : state) : Prop :=
  exists p0 p1,
    holds s' (CtValue 0) p0 /\ holds s' (CtValue 1) p1 /\
    polyIs p0 flag (rowsAt level) body /\ polyIs p1 flag (rowsAt level) mask.

(** The caller's ciphertext in [s'], read under its flag: both components
    carry [flag] and their rows decode to [body] and [mask], modulo the
    modulus of each row. *)
Definition ciphertextDecodes {PV : Provider} (r : Ring) (q : nat -> Z)
    (flag : bool) (level : Z) (body mask : nat -> row) (s' : state) : Prop :=
  exists p0 p1,
    holds s' (CtValue 0) p0 /\ holds s' (CtValue 1) p1 /\
    IsNTT p0 = flag /\ IsNTT p1 = flag /\
    forall i, (i < rowsAt level)%nat ->
      congruent (q i) (decode r flag i (rowAt p0 i)) (body i) /\
      congruent (q i) (decode r flag i (rowAt p1 i)) (mask i).

(** Both components of the caller's ciphertext are at [level] in [s']. *)
Definition ciphertextAt {PV : Provider} (level : Z) (s' : state) : Prop :=
  exists p0 p1,
    holds s' (CtValue 0) p0 /\ holds s' (CtValue 1) p1 /\
    Level p0 = level /\ Level p1 = level.

(** A call of [Encrypt] on the caller's ciphertext and plaintext in a heap
    without aliasing, with everything the variant of the encryptor reads
    in place. *)
Definition wellFormedCall {PV : Provider} (e : Encryptor) (s : state)
    (c0 c1 ptv : Poly) : Prop :=
  match e with
  | SkEncryptor enc sk =>
      sk = theSecretKey /\
      exists skq buf, skInputs (params enc) s c0 c1 ptv skq buf
  | PkEncryptor enc pk =>
      pk = thePublicKey /\
      exists pk0 pk1 buf,
        pkInputs enc s c0 c1 ptv pk0 pk1 buf /\
        (basisextender enc = false \/
         exists rP pk0P pk1P bufP0 bufP1 bufP2,
           pkInputsP enc rP s pk0P pk1P bufP0 bufP1 bufP2)
  end.

End Spec.

(* ===================================================================== *)
(** ** Vocabulary: what a routine may write, and the state of a call *)
(* ===================================================================== *)

Module Footprint.
Import rlwe.

(** Every run of [m] that returns leaves the heap as it was outside [W]. *)
Definition writesOnly {PV : Provider} {A} (W : loc -> Prop) (m : M A) : Prop :=
  forall s x s', m s = Ok (x, s') -> forall l, ~ W l -> mem s' l = mem s l.

(** [l] is one of the two components of the ciphertext [el]. *)
Definition component (el : Ciphertext) (l : loc) : Prop :=
  ct_Value el !! 0%nat = Some l \/ ct_Value el !! 1%nat = Some l.

(** The ring elements an RLWE encryption may write: the two components of
    the target, the encryptor's first buffer over [Q] and, for a public key
    with a basis extender, its three buffers over [P]. *)
Definition encryptFootprint (e : Encryptor) (el : Ciphertext) (l : loc) : Prop :=
  component el l \/ l = PoolQ 0 \/
  match e with
  | PkEncryptor enc _ =>
      basisextender enc = true /\ (l = PoolP 0 \/ l = PoolP 1 \/ l = PoolP 2)
  | SkEncryptor _ _ => False
  end.

(** The ring elements an RGSW encryption may write: the entries of the RGSW
    ciphertext and the [Q] part of the encryptor's [poolQP]. *)
Definition rgswFootprint (l : loc) : Prop :=
  (exists k i j c, l = GadgetQ k i j c \/ l = GadgetP k i j c) \/ l = PoolQP_Q.

End Footprint.

(* ===================================================================== *)
(** ** Vocabulary: a key and a target before the encryptor is built *)
(* ===================================================================== *)

Module Construction.
Import rlwe Spec.

Section Defs.
Context {PV : Provider}.

(** The heap holds at [l] a ring element [k] with a row for every modulus
    of the ring [r]. *)
Definition keyPart (r : Ring) (s : state) (l : loc) (k : Poly) : Prop :=
  holds s l k /\ (ModulusCount r <= length (Coeffs k))%nat.

(** [k.Degree()] is the ring degree of the parameters. *)
Definition degreeIs (prm : Parameters) (k : Poly) : Prop :=
  exists r0, Coeffs k !! 0%nat = Some r0 /\ Z.of_nat (length r0) = N prm.

(** The key handed to [NewEncryptor] is in the heap, complete and of the
    parameters' degree; a public key has its [P] parts when the parameters
    have a modulus [P]. *)
Definition keyInPlace (prm : Parameters) (s : state) (key : keyArg) : Prop :=
  match key with
  | IsSecretKey sk =>
      sk = theSecretKey /\
      exists skq, keyPart (RingQ prm) s SkQ skq /\ degreeIs prm skq
  | IsPublicKey pk =>
      pk = thePublicKey /\
      (exists pk0 pk1,
          keyPart (RingQ prm) s (PkQ 0) pk0 /\ degreeIs prm pk0 /\
          keyPart (RingQ prm) s (PkQ 1) pk1 /\ degreeIs prm pk1) /\
      (PCount prm = 0%nat \/
       exists rP pk0P pk1P,
         RingP prm = Some rP /\
         keyPart rP s (PkP 0) pk0P /\ keyPart rP s (PkP 1) pk1P)
  | IsOtherKey => False
  end.

(** The caller's ciphertext and plaintext are in the heap, the ciphertext
    with two components of one level that the parameters allow, and
    neither without rows. *)
Definition targetInPlace (prm : Parameters) (s : state) (c0 c1 ptv : Poly) : Prop :=
  holds s (CtValue 0) c0 /\ holds s (CtValue 1) c1 /\ holds s PtValue ptv /\
  length (Coeffs c1) = length (Coeffs c0) /\
  (1 <= length (Coeffs c0) <= ModulusCount (RingQ prm))%nat /\
  (1 <= length (Coeffs ptv))%nat.

End Defs.

(** The objects of the small provider before any encryptor is built: no
    buffer is allocated. *)
Definition unbuilt (ctNTT ptNTT : bool) (ptRows : list (list Z))
  : state (PV := Toy.provider) :=
  @mkState Toy.provider (Toy.objects true ctNTT ptNTT ptRows) 1%nat.

End Construction.

(* ===================================================================== *)
(** ** Vocabulary: states that differ in the buffers only *)
(* ===================================================================== *)

Module Scratch.
Import rlwe.

(** [s] and [t] have the same PRNG state and hold the same ring elements
    everywhere but in the encryptor's buffers. *)
Definition sameOffBuffers {PV : Provider} (s t : state) : Prop :=
  rng s = rng t /\
  forall l, match l with
            | PoolQ _ | PoolP _ | PoolQP_Q | PoolQP_P => True
            | _ => mem s l = mem t l
            end.

(** The small provider's heap with arbitrary contents in its buffers over
    [Q]. *)
Definition dirty (ctNTT ptNTT : bool) (ptRows : list (list Z))
  : state (PV := Toy.provider) :=
  @mkState Toy.provider
    (fun l => match l with
              | PoolQ _ => Some (mkPoly [[70; 71]; [72; 73]] true)
              | _ => mem (Toy.start Toy.paramsP true ctNTT ptNTT ptRows) l
              end)
    1%nat.

End Scratch.

(* ===================================================================== *)
(** ** Vocabulary: encryptions of zero and RGSW targets *)
(* ===================================================================== *)

Module Gadget.
Import rlwe Spec.

(** Row [i] of the body and of the mask that [encryptZeroSymetricQP] leaves
    over [Q], from the rows of the mask [a], of the noise [e], of the key
    and of what the body held before. With [ntt] the noise is transformed
    and the product subtracted from it; without, the product is subtracted
    from the old body, both components are taken back to coefficients and
    the noise is added there. *)
Definition zero_body (r : Ring) (ntt mont : bool) (i : nat)
    (a e sk old : row) : row :=
  let x := if ntt
           then rowMulMontgomeryAndSub r i a sk (rowNTT r i e)
           else rowAdd r i (rowInvNTT r i (rowMulMontgomeryAndSub r i a sk old)) e in
  if mont then rowMForm r i x else x.

Definition zero_mask (r : Ring) (ntt mont : bool) (i : nat) (a : row) : row :=
  let y := if ntt then a else rowInvNTT r i a in
  if mont then rowMForm r i y else y.

(** The objects one call of [encryptZeroSymetricQP] touches when the
    parameters have no modulus [P]: the entry [(k, i, j)] of the RGSW
    ciphertext, whose [P] parts are nil, the secret key and, when the noise
    is added in the coefficient domain, [poolQP.Q]. *)
Record zeroInputs {PV : Provider} (prm : Parameters) (s : state) (levelQ : Z)
    (k i j : nat) (ntt : bool) (c0 c1 skq : Poly) : Prop := {
  zero_noP : RingP prm = None;
  zero_nil : mem s (GadgetP k i j 0) = None;
  zero_in_c0 : holds s (GadgetQ k i j 0) c0;
  zero_in_c1 : holds s (GadgetQ k i j 1) c1;
  zero_in_sk : holds s SkQ skq;
  zero_in_pool :
    ntt = false ->
    exists pool, holds s PoolQP_Q pool /\
                 (rowsAt levelQ <= length (Coeffs pool))%nat;
  zero_len_max : (rowsAt levelQ <= ModulusCount (RingQ prm))%nat;
  zero_len_c0 : (rowsAt levelQ <= length (Coeffs c0))%nat;
  zero_len_c1 : (rowsAt levelQ <= length (Coeffs c1))%nat;
  zero_len_sk : (rowsAt levelQ <= length (Coeffs skq))%nat
}.

(** The number of rows of the ring element at [l], if there is one. *)
Definition rowsOf {PV : Provider} (s : state) (l : loc) : option nat :=
  option_map (fun p => length (Coeffs p)) (mem s l).

(** From [s] to [s'] every ring element kept its number of rows, and nil
    pointers stayed nil. *)
Definition shapeKept {PV : Provider} (s s' : state) : Prop :=
  forall l, rowsOf s' l = rowsOf s l.

Definition keepsShape {PV : Provider} {A} (m : M A) : Prop :=
  forall s x s', m s = Ok (x, s') -> shapeKept s s'.

(** The indices of the ring elements of the RGSW ciphertext: two gadget
    ciphertexts of [decompRNS] by [decompBIT] pairs, and the first one of
    all, off which the levels are read. *)
Definition entryOf (prm : Parameters) (nQ nP k i j c : nat) : Prop :=
  ((k < 2)%nat /\
   (i < DecompRNS prm (Z.of_nat nQ - 1) (Z.of_nat nP - 1))%nat /\
   (j < DecompBIT prm (Z.of_nat nQ - 1) (Z.of_nat nP - 1))%nat /\
   (c < 2)%nat) \/
  (k = 0%nat /\ i = 0%nat /\ j = 0%nat /\ c = 0%nat).

(** An RGSW ciphertext and a secret key ready for [encryptRGSW]: every
    entry has [nQ] rows over [Q] and the key at least as many; with a
    modulus [P] every entry has [nP] rows over [P] and the key at least as
    many, without one the [P] parts are nil and [nP] is zero. *)
Record rgswInPlace {PV : Provider} (prm : Parameters) (s : state)
    (nQ nP : nat) : Prop := {
  rgsw_rowsQ : (1 <= nQ <= ModulusCount (RingQ prm))%nat;
  rgsw_sk : exists m, rowsOf s SkQ = Some m /\ (nQ <= m)%nat;
  rgsw_entriesQ : forall k i j c,
      entryOf prm nQ nP k i j c -> rowsOf s (GadgetQ k i j c) = Some nQ;
  rgsw_partsP :
    match RingP prm with
    | None =>
        nP = 0%nat /\
        forall k i j c,
          entryOf prm nQ nP k i j c -> rowsOf s (GadgetP k i j c) = None
    | Some rP =>
        (1 <= nP <= ModulusCount rP)%nat /\
        (exists m, rowsOf s SkP = Some m /\ (nP <= m)%nat) /\
        forall k i j c,
          entryOf prm nQ nP k i j c -> rowsOf s (GadgetP k i j c) = Some nP
    end
}.

(** The plaintext handed to [encryptRGSW]: nil, or the caller's plaintext
    with the encryptor's [poolQP.Q], both with [nQ] rows at least. *)
Definition plaintextInPlace {PV : Provider} (s : state) (nQ : nat)
    (pt : option Plaintext) : Prop :=
  match pt with
  | None => True
  | Some p =>
      p = thePlaintext /\
      (exists m, rowsOf s PtValue = Some m /\ (nQ <= m)%nat) /\
      (exists m, rowsOf s PoolQP_Q = Some m /\ (nQ <= m)%nat)
  end.

End Gadget.

(* ===================================================================== *)
(** ** lwe test-suite: the noise check on a decrypted coefficient *)
(* ===================================================================== *)

Module lweTest.

(** Subtraction of [uint64] values. *)
Definition uint64_sub (x y : Z) : Z := (x - y) mod 2 ^ 64.

(** [if c >= Q>>1 { c = Q - c }]: what [testLWEToRLWE] and
    [testManyRLWEToSingleRLWE] do to a coefficient [c] of the decrypted
    plaintext before comparing it with their bound. *)
Definition foldCoefficient (modulus c : Z) : Z :=
  if Z.shiftr modulus 1 <=? c then uint64_sub modulus c else c.

(** [if c > bound { t.Fatal(...) }] *)
Definition failsCheck (bound modulus c : Z) : bool :=
  bound <? foldCoefficient modulus c.

End lweTest.

(* ===================================================================== *)
(** ** Vocabulary: the phase of a ciphertext *)
(* ===================================================================== *)

Module Phase.
Import rlwe Spec.

(** Bringing a row read under a domain flag to the evaluation domain. *)
Definition encode (r : Ring) (flag : bool) (i : nat) (x : row) : row :=
  if flag then x else rowNTT r i x.

(** Row [i] of [body + mask * secret] in the coefficient domain, for a
    ciphertext whose components carry [flag] and a secret in NTT and
    Montgomery form: the product is taken in the evaluation domain, as the
    encryptor takes it. *)
Definition phase (r : Ring) (flag : bool) (i : nat) (body mask sk : row) : row :=
  rowAdd r i (decode r flag i body)
    (rowInvNTT r i (rowMulMontgomery r i (encode r flag i mask) sk)).

(** More laws of the ring arithmetic on valid rows, modulo the modulus of
    the row: the inverse transform and the product respect congruence, the
    transform undoes the inverse transform, and a row cancels its
    opposite. *)
Record PhaseLaws (r : Ring) (q : nat -> Z) (valid : nat -> row -> Prop)
  : Prop := {
  InvNTT_cong : forall i x x', valid i x -> valid i x' ->
      congruent (q i) x x' ->
      congruent (q i) (rowInvNTT r i x) (rowInvNTT r i x');
  Mul_cong : forall i x x' y, valid i x -> valid i x' -> valid i y ->
      congruent (q i) x x' ->
      congruent (q i) (rowMulMontgomery r i x y) (rowMulMontgomery r i x' y);
  NTT_InvNTT : forall i x, valid i x ->
      congruent (q i) (rowNTT r i (rowInvNTT r i x)) x;
  Neg_cancel : forall i x y, valid i x -> valid i y ->
      congruent (q i) (rowAdd r i (rowAdd r i (rowNeg r i x) y) x) y
}.

End Phase.

(* ===================================================================== *)
(** ** Vocabulary: a common reference polynomial *)
(* ===================================================================== *)

Module Reference.
Import rlwe Spec.

(** The common reference polynomial handed to [EncryptFromCRP] is in the
    heap, with rows for the whole level, no more rows than the mask it is
    copied over, and rows of the length of those they replace. *)
Record crpInputs {PV : Provider} (s : state) (levelQ : Z) (c1 crp : Poly)
  : Prop := {
  crp_in : holds s CrpValue crp;
  crp_len_level : (rowsAt levelQ <= length (Coeffs crp))%nat;
  crp_len_ct1 : (length (Coeffs crp) <= length (Coeffs c1))%nat;
  crp_len_rows : forall i, (i < length (Coeffs crp))%nat ->
      length (rowAt c1 i) = length (rowAt crp i)
}.

End Reference.

(* ===================================================================== *)
(** ** Facts about [make] and [copy] *)
(* ===================================================================== *)

Module GoSliceFacts.
Import GoSlice.

Lemma length_make {A} (z : A) n : length (make z n) = n.
Proof. apply length_replicate. Qed.

Lemma length_copy {A} (dst src : list A) : length (copy dst src) = length dst.
Proof.
  unfold copy. rewrite length_app, length_take, length_drop. lia.
Qed.

(** A destination made with the length of the source receives the source. *)
Lemma copy_same_length {A} (dst src : list A) :
  length dst = length src -> copy dst src = src.
Proof.
  intros E. unfold copy. rewrite E, Nat.min_id.
  rewrite firstn_all, <- E, drop_all. apply app_nil_r.
Qed.

(** A shorter destination receives a prefix only. *)
Lemma copy_shorter {A} (dst src : list A) :
  (length dst <= length src)%nat -> copy dst src = take (length dst) src.
Proof.
  intros L. unfold copy. rewrite Nat.min_l by exact L.
  rewrite drop_all. apply app_nil_r.
Qed.

End GoSliceFacts.

(* ===================================================================== *)
(** ** [BootstrappingParameters.Copy] *)
(* ===================================================================== *)

Module ckksFacts.
Import ckks GoSliceFacts.

(** The eight fields of the struct literal are carried over. *)
Lemma Copy_literal_fields b :
  H (Copy b) = H b /\ sinType (Copy b) = sinType b /\
  MessageRatio (Copy b) = MessageRatio b /\ SinRange (Copy b) = SinRange b /\
  SinDeg (Copy b) = SinDeg b /\ SinRescal (Copy b) = SinRescal b /\
  ArcSineDeg (Copy b) = ArcSineDeg b /\ MaxN1N2Ratio (Copy b) = MaxN1N2Ratio b.
Proof. repeat split. Qed.

Lemma Copy_ResidualModuli b : residualModuli (Copy b) = residualModuli b.
Proof.
  unfold Copy. cbn [residualModuli]. apply copy_same_length, length_make.
Qed.

Lemma copyRows_id src : copyRows src = src.
Proof.
  unfold copyRows. apply list_eq. intros i.
  rewrite list_lookup_imap.
  destruct (src !! i) as [r|] eqn:E.
  - assert (L : (i < length src)%nat) by (eapply lookup_lt_Some; eauto).
    unfold GoSlice.make. rewrite lookup_replicate_2 by exact L.
    cbn. f_equal. apply copy_same_length, length_make.
  - apply lookup_ge_None in E.
    unfold GoSlice.make. rewrite (proj1 (lookup_replicate_None _ _ _)); [done | exact E].
Qed.

Lemma Copy_ScalingFactors b :
  CoeffsToSlotsModuli.ScalingFactor (coeffsToSlotsModuli (Copy b))
  = CoeffsToSlotsModuli.ScalingFactor (coeffsToSlotsModuli b) /\
  SlotsToCoeffsModuli.ScalingFactor (slotsToCoeffsModuli (Copy b))
  = SlotsToCoeffsModuli.ScalingFactor (slotsToCoeffsModuli b) /\
  SineEvalModuli.ScalingFactor (sineEvalModuli (Copy b))
  = SineEvalModuli.ScalingFactor (sineEvalModuli b).
Proof. cbn. rewrite !copyRows_id. auto. Qed.

(** The fields that the struct literal leaves out come back as zero values,
    whatever the receiver holds. *)
Lemma Copy_omitted_fields b :
  LogN (Copy b) = 0 /\ LogSlots (Copy b) = 0 /\ Scale (Copy b) = 0 /\
  Sigma (Copy b) = 0 /\ keySwitchModuli (Copy b) = [].
Proof. repeat split. Qed.

(** The sine-evaluation moduli are cut (or zero-padded) to the number of
    CoeffsToSlots scaling factors. *)
Lemma Copy_SineEval_length b :
  length (SineEvalModuli.Qi (sineEvalModuli (Copy b)))
  = length (CoeffsToSlotsModuli.ScalingFactor (coeffsToSlotsModuli b)).
Proof.
  unfold Copy. cbn [sineEvalModuli SineEvalModuli.Qi].
  rewrite length_copy. apply length_make.
Qed.

(** C10. [b.Copy()] is not structurally equal to [b] on the first default
    parameter set: the copy has [LogN = 0], [LogSlots = 0], zero [Scale] and
    [Sigma], no key-switch moduli, and four of the eight sine-evaluation
    moduli, where [b] has 16, 15, [1<<45], [DefaultSigma], five and eight. *)
Theorem Copy_DefaultBootstrapParams0_differs : forall DefaultSigma,
  let b := DefaultBootstrapParams0 DefaultSigma in
  LogN b = 16 /\ LogN (Copy b) = 0 /\
  LogSlots b = 15 /\ LogSlots (Copy b) = 0 /\
  Scale b = 0x42c0000000000000 /\ Scale (Copy b) = 0 /\
  Sigma b = DefaultSigma /\ Sigma (Copy b) = 0 /\
  length (keySwitchModuli b) = 5%nat /\ keySwitchModuli (Copy b) = [] /\
  length (SineEvalModuli.Qi (sineEvalModuli b)) = 8%nat /\
  SineEvalModuli.Qi (sineEvalModuli (Copy b))
  = [ 0x80000000440001; 0x7fffffffba0001; 0x80000000500001; 0x7fffffffaa0001 ] /\
  Copy b <> b.
Proof.
  intros sigma b. repeat split.
  intros E. apply (f_equal LogN) in E. discriminate E.
Qed.

End ckksFacts.

(* ===================================================================== *)
(** ** The monad: inversion, faults, weakest preconditions *)
(* ===================================================================== *)

Module MonadFacts.
Import rlwe Spec.

Section Facts.
Context {PV : Provider}.

Lemma bind_Ok {A B} (m : M A) (k : A -> M B) s r :
  bind m k s = Ok r -> exists x s1, m s = Ok (x, s1) /\ k x s1 = Ok r.
Proof.
  unfold bind. destruct (m s) as [[x s1]|e]; [eauto | discriminate].
Qed.

Lemma bind_Panic {A B} (m : M A) (k : A -> M B) s e :
  bind m k s = Panic e ->
  m s = Panic e \/ exists x s1, m s = Ok (x, s1) /\ k x s1 = Panic e.
Proof.
  unfold bind. destruct (m s) as [[x s1]|e']; [eauto | intros [= ->]; auto].
Qed.

(** *** Only runtime errors *)

Lemma faultsOnly_ret {A} (x : A) : faultsOnly (ret x).
Proof. intros s e. discriminate. Qed.

Lemma faultsOnly_bind {A B} (m : M A) (k : A -> M B) :
  faultsOnly m -> (forall x, faultsOnly (k x)) -> faultsOnly (bind m k).
Proof.
  intros Hm Hk s e H. apply bind_Panic in H as [H | (x & s1 & _ & H)].
  - eapply Hm; eauto.
  - eapply Hk; eauto.
Qed.

Lemma faultsOnly_fail {A} e : runtimeError e = true -> faultsOnly (@fail _ A e).
Proof. intros He s e' [= <-]. exact He. Qed.

Lemma faultsOnly_load l : faultsOnly (load l).
Proof.
  intros s e. unfold load. destruct (mem s l); [discriminate |].
  intros [= <-]. destruct l; reflexivity.
Qed.

Lemma faultsOnly_store l p : faultsOnly (store l p).
Proof. intros s e. discriminate. Qed.

Lemma faultsOnly_notNil l : faultsOnly (notNil l).
Proof. intros s e. discriminate. Qed.

Lemma faultsOnly_draw f level : faultsOnly (draw f level).
Proof. intros s e. unfold draw. destruct (f (rng s) level). discriminate. Qed.

Lemma faultsOnly_index {A} (l : list A) i : faultsOnly (index l i).
Proof.
  unfold index. destruct (l !! i); [apply faultsOnly_ret |].
  now apply faultsOnly_fail.
Qed.

Lemma faultsOnly_liftR {A} (r : result A) :
  (forall e, r = Panic e -> runtimeError e = true) -> faultsOnly (liftR r).
Proof.
  intros Hr s e. unfold liftR. destruct r; [discriminate |].
  intros [= <-]. now apply Hr.
Qed.

Lemma mapLvl_fault r f level p1 p2 e :
  mapLvl r f level p1 p2 = Panic e -> runtimeError e = true.
Proof. unfold mapLvl. destruct levelGuard; [discriminate | now intros [= <-]]. Qed.

Lemma zipLvl_fault r f level p1 p2 p3 e :
  zipLvl r f level p1 p2 p3 = Panic e -> runtimeError e = true.
Proof. unfold zipLvl. destruct levelGuard; [discriminate | now intros [= <-]]. Qed.

Lemma zip3Lvl_fault r f level p1 p2 p3 e :
  zip3Lvl r f level p1 p2 p3 = Panic e -> runtimeError e = true.
Proof. unfold zip3Lvl. destruct levelGuard; [discriminate | now intros [= <-]]. Qed.

End Facts.

(** Decomposes a goal [faultsOnly m] along the structure of [m]. *)
Ltac faults :=
  repeat first
    [ apply faultsOnly_ret
    | apply faultsOnly_load
    | apply faultsOnly_store
    | apply faultsOnly_notNil
    | apply faultsOnly_draw
    | apply faultsOnly_index
    | apply faultsOnly_fail; reflexivity
    | apply faultsOnly_liftR; intros ?;
        first [ apply mapLvl_fault | apply zipLvl_fault | apply zip3Lvl_fault ]
    | apply faultsOnly_bind; [| intros ?]
    | match goal with
      | |- faultsOnly (if ?b then _ else _) => destruct b
      | |- faultsOnly (match ?x with _ => _ end) => destruct x
      | |- faultsOnly (when ?b _) => destruct b; cbn [when]
      end ].

Section Routines.
Context {PV : Provider}.

Lemma faultsOnly_unary r f level p1 p2 : faultsOnly (unary r f level p1 p2).
Proof. unfold unary. faults. Qed.

Lemma faultsOnly_binary r f level p1 p2 p3 : faultsOnly (binary r f level p1 p2 p3).
Proof. unfold binary. faults. Qed.

Lemma faultsOnly_ternary r f level p1 p2 p3 : faultsOnly (ternary r f level p1 p2 p3).
Proof. unfold ternary. faults. Qed.

Lemma faultsOnly_ReadLvl f r level pol : faultsOnly (ReadLvl f r level pol).
Proof. unfold ReadLvl, fillLvl. faults. Qed.

Lemma faultsOnly_ReadAndAddLvl f r level pol : faultsOnly (ReadAndAddLvl f r level pol).
Proof. unfold ReadAndAddLvl. faults. Qed.

Lemma faultsOnly_QP_unary prm op levelQ levelP p1 p2 :
  (forall r l a b, faultsOnly (op r l a b)) ->
  faultsOnly (QP_unary prm op levelQ levelP p1 p2).
Proof. intros H. unfold QP_unary. faults; apply H. Qed.

Lemma faultsOnly_QP_binary prm op levelQ levelP p1 p2 p3 :
  (forall r l a b c, faultsOnly (op r l a b c)) ->
  faultsOnly (QP_binary prm op levelQ levelP p1 p2 p3).
Proof. intros H. unfold QP_binary. faults; apply H. Qed.

Lemma faultsOnly_Extend prm a level b :
  faultsOnly (ExtendBasisSmallNormAndCenter prm a level b).
Proof. unfold ExtendBasisSmallNormAndCenter, fillLvl. faults. Qed.

Lemma faultsOnly_CopyValues p0 p1 : faultsOnly (CopyValues p0 p1).
Proof. unfold CopyValues. faults. Qed.

Lemma faultsOnly_truncate level p : faultsOnly (truncate level p).
Proof. unfold truncate. faults. Qed.

Lemma faultsOnly_flagOf l : faultsOnly (flagOf l).
Proof. unfold flagOf. faults. Qed.

Lemma faultsOnly_finish level a b : faultsOnly (finish level a b).
Proof.
  unfold finish, copyFlag. faults;
    first [apply faultsOnly_flagOf | apply faultsOnly_truncate].
Qed.

Lemma faultsOnly_Plaintext_Level pt : faultsOnly (Plaintext_Level pt).
Proof. unfold Plaintext_Level. faults. Qed.

Lemma faultsOnly_Ciphertext_Level ct : faultsOnly (Ciphertext_Level ct).
Proof. unfold Ciphertext_Level. faults. Qed.

Lemma faultsOnly_forEach l body :
  (forall i, faultsOnly (body i)) -> faultsOnly (forEach l body).
Proof.
  intros H. induction l as [|i l IH]; cbn [forEach]; faults; auto.
Qed.

End Routines.

Create HintDb faults.
#[export] Hint Resolve faultsOnly_unary faultsOnly_binary faultsOnly_ternary
  faultsOnly_ReadLvl faultsOnly_ReadAndAddLvl faultsOnly_Extend
  faultsOnly_CopyValues faultsOnly_truncate faultsOnly_flagOf
  faultsOnly_finish faultsOnly_Plaintext_Level faultsOnly_Ciphertext_Level
  : faults.

Section Encryptors.
Context {PV : Provider}.

Lemma faultsOnly_uniformSamplerP enc level pol :
  faultsOnly (uniformSamplerP_ReadLvl enc level pol).
Proof. unfold uniformSamplerP_ReadLvl. faults; auto with faults. Qed.

Lemma faultsOnly_encryptZeroSymetricQP enc levelQ levelP sk sample mont ntt ct :
  faultsOnly (encryptZeroSymetricQP enc levelQ levelP sk sample mont ntt ct).
Proof.
  unfold encryptZeroSymetricQP, gaussianSampler_ReadLvl, uniformSamplerQ_ReadLvl,
    QP_NTTLvl, QP_InvNTTLvl, QP_MFormLvl, QP_AddLvl,
    QP_MulCoeffsMontgomeryAndSubLvl, NTTLvl, InvNTTLvl, MFormLvl, AddLvl,
    MulCoeffsMontgomeryAndSubLvl.
  faults;
    first [ apply faultsOnly_uniformSamplerP
          | apply faultsOnly_QP_unary; intros; solve [auto with faults]
          | apply faultsOnly_QP_binary; intros; solve [auto with faults]
          | solve [auto with faults] ].
Qed.

Lemma faultsOnly_sk_encryptRGSW enc sk pt : faultsOnly (sk_encryptRGSW enc sk pt).
Proof.
  unfold sk_encryptRGSW, rgsw_LevelQ, rgsw_LevelP, forRange, AddPolyToGadgetMatrix,
    MFormLvl, NTTLvl.
  faults;
    first [ apply faultsOnly_forEach; intros j; apply faultsOnly_forEach; intros i;
            apply faultsOnly_bind;
            [| intros _]; apply faultsOnly_encryptZeroSymetricQP
          | solve [auto with faults]
          | intros s e; discriminate ].
Qed.

Lemma faultsOnly_sk_encryptRLWE enc sk pt ct : faultsOnly (sk_encryptRLWE enc sk pt ct).
Proof.
  unfold sk_encryptRLWE, gaussianSampler_ReadLvl, gaussianSampler_ReadAndAddLvl,
    NTTLvl, InvNTTLvl, NegLvl, AddLvl, MulCoeffsMontgomeryLvl.
  faults; solve [auto with faults].
Qed.

End Encryptors.

End MonadFacts.

(* ===================================================================== *)
(** ** Which ciphertext kinds each encryptor accepts *)
(* ===================================================================== *)

Module Dispatch.
Import rlwe Spec MonadFacts.

(** The secret-key encryptor does produce RGSW ciphertexts and encryptions
    over a common reference polynomial: runs on the small provider. *)
Lemma sk_Encrypt_RGSW_runs :
  Toy.observe
    (sk_Encrypt (newEncryptor Toy.paramsP) theSecretKey (Some thePlaintext)
       IsRgswCiphertext (Toy.start Toy.paramsP true true true [[1; 2]; [1; 2]]))
  = Ok (Some (mkPoly [[0; 0]; [0; 0]] true), Some (mkPoly [[0; 0]; [0; 0]] true)).
Proof. vm_compute. reflexivity. Qed.

Lemma sk_EncryptFromCRP_runs :
  Toy.observe
    (sk_EncryptFromCRP (newEncryptor Toy.paramsP) theSecretKey (Some thePlaintext)
       CrpValue theCiphertext (Toy.start Toy.paramsP true true true [[1; 2]; [1; 2]]))
  = Ok (Some (mkPoly [[68; 91]; [102; 17]] true), Some (mkPoly [[3; 4]; [5; 6]] true)).
Proof. vm_compute. reflexivity. Qed.

(** C9. Under a public key, [EncryptFromCRP] panics on every input and
    [Encrypt] on an RGSW target panics with the unsupported-ciphertext
    error. Under a secret key, [Encrypt] on an RGSW target runs the RGSW
    routine and [EncryptFromCRP] runs the RLWE routine on the supplied
    mask; neither can raise one of the explicit panics. *)
Theorem public_key_rejects_secret_key_accepts :
  forall (PV : Provider) (enc : encryptor) (pt : option Plaintext),
    (forall pk crp ct s,
        EncryptFromCRP (PkEncryptor enc pk) pt crp ct s = Panic CRPWithPublicKey) /\
    (forall pk s,
        Encrypt (PkEncryptor enc pk) pt IsRgswCiphertext s
        = Panic UnsupportedCiphertext) /\
    (forall sk,
        Encrypt (SkEncryptor enc sk) pt IsRgswCiphertext = sk_encryptRGSW enc sk pt /\
        faultsOnly (Encrypt (SkEncryptor enc sk) pt IsRgswCiphertext)) /\
    (forall sk crp ct,
        faultsOnly (EncryptFromCRP (SkEncryptor enc sk) pt crp ct)).
Proof.
  intros PV enc pt. split; [| split; [| split]].
  - reflexivity.
  - reflexivity.
  - intros sk. split; [reflexivity |].
    apply faultsOnly_sk_encryptRGSW.
  - intros sk crp ct. cbn [EncryptFromCRP]. unfold sk_EncryptFromCRP.
    apply faultsOnly_bind; [apply faultsOnly_index | intros ct1].
    apply faultsOnly_bind; [apply faultsOnly_CopyValues | intros _].
    apply faultsOnly_sk_encryptRLWE.
Qed.

(** C4. With a nil plaintext, [Encrypt] on an RLWE ciphertext does not
    return: both variants ask the plaintext for its level before any test
    against nil, and panic with a nil pointer dereference. *)
Theorem Encrypt_nil_plaintext_panics :
  forall (PV : Provider) (e : Encryptor) (el : Ciphertext) (s : state),
    Encrypt e None (IsCiphertext el) s = Panic NilPointerDereference.
Proof. intros PV [enc pk | enc sk] el s; reflexivity. Qed.

End Dispatch.

(* ===================================================================== *)
(** ** Rows, levels and the rules of symbolic execution *)
(* ===================================================================== *)

Module Rules.
Import rlwe Spec MonadFacts.

Lemma rowsAt_Level p : rowsAt (Level p) = length (Coeffs p).
Proof. unfold rowsAt, Level. lia. Qed.

Lemma Level_rowsAt p n : length (Coeffs p) = n -> Level p = Z.of_nat n - 1.
Proof. unfold Level. intros ->. reflexivity. Qed.

Lemma rowsAt_min a b : rowsAt (Z.min a b) = Nat.min (rowsAt a) (rowsAt b).
Proof. unfold rowsAt. lia. Qed.

Lemma rowAt_lookup p i x : Coeffs p !! i = Some x -> rowAt p i = x.
Proof. unfold rowAt. now intros ->. Qed.

Lemma lookup_rowAt p i : (i < length (Coeffs p))%nat -> Coeffs p !! i = Some (rowAt p i).
Proof.
  intros L. destruct (lookup_lt_is_Some_2 (Coeffs p) i L) as [x E].
  unfold rowAt. rewrite E. reflexivity.
Qed.

Lemma length_writeRows level g d :
  length (Coeffs (writeRows level g d)) = length (Coeffs d).
Proof. unfold writeRows. cbn. apply length_imap. Qed.

Lemma writeRows_rewritten level g d :
  rewritten d (writeRows level g d) (Nat.min (rowsAt level) (length (Coeffs d))) g.
Proof.
  split; [reflexivity |]. split; [apply length_writeRows |].
  split; intros i Hi; unfold rowAt, writeRows; cbn [Coeffs setCoeffs];
    rewrite list_lookup_imap.
  - rewrite (lookup_rowAt d i) by lia.
    destruct (Nat.ltb_spec i (rowsAt level)); [reflexivity | lia].
  - destruct (Coeffs d !! i) as [x|] eqn:E; [| reflexivity].
    apply lookup_lt_Some in E.
    destruct (Nat.ltb_spec i (rowsAt level)); [lia | reflexivity].
Qed.

Lemma levelGuard_2 r level a d :
  (rowsAt level <= ModulusCount r)%nat ->
  (rowsAt level <= length (Coeffs a))%nat ->
  (rowsAt level <= length (Coeffs d))%nat ->
  levelGuard r level [a; d] = true.
Proof.
  intros H1 H2 H3. unfold levelGuard. cbn [forallb].
  rewrite !andb_true_iff, !Nat.leb_le. auto.
Qed.

Lemma levelGuard_3 r level a b d :
  (rowsAt level <= ModulusCount r)%nat ->
  (rowsAt level <= length (Coeffs a))%nat ->
  (rowsAt level <= length (Coeffs b))%nat ->
  (rowsAt level <= length (Coeffs d))%nat ->
  levelGuard r level [a; b; d] = true.
Proof.
  intros H1 H2 H3 H4. unfold levelGuard. cbn [forallb].
  rewrite !andb_true_iff, !Nat.leb_le. auto.
Qed.

Lemma levelGuard_1 r level b :
  (rowsAt level <= ModulusCount r)%nat ->
  (rowsAt level <= length (Coeffs b))%nat ->
  levelGuard r level [b] = true.
Proof.
  intros H1 H2. unfold levelGuard. cbn [forallb].
  rewrite !andb_true_iff, !Nat.leb_le. auto.
Qed.

Section WP.
Context {PV : Provider}.

Lemma wp_ret {A} (x : A) (Q : A -> state -> Prop) s : Q x s -> wp (ret x) Q s.
Proof. exact id. Qed.

Lemma wp_bind {A B} (m : M A) (k : A -> M B) (Q : B -> state -> Prop) s :
  wp m (fun x s' => wp (k x) Q s') s -> wp (bind m k) Q s.
Proof. unfold wp, bind. destruct (m s) as [[x s']|e]; auto. Qed.

Lemma wp_Ok {A} (m : M A) (Q : A -> state -> Prop) s :
  wp m Q s -> exists x s', m s = Ok (x, s') /\ Q x s'.
Proof. unfold wp. destruct (m s) as [[x s']|e]; [eauto | tauto]. Qed.

Lemma wp_mono {A} (m : M A) (Q Q' : A -> state -> Prop) s :
  wp m Q s -> (forall x s', Q x s' -> Q' x s') -> wp m Q' s.
Proof. unfold wp. destruct (m s) as [[x s']|e]; auto. Qed.

Lemma wp_load l (Q : Poly -> state -> Prop) s p :
  mem s l = Some p -> Q p s -> wp (load l) Q s.
Proof. unfold wp, load. now intros ->. Qed.

Lemma wp_index {A} (l : list A) i (Q : A -> state -> Prop) s x :
  l !! i = Some x -> Q x s -> wp (index l i) Q s.
Proof. unfold wp, index. now intros ->. Qed.

Lemma wp_flagOf l (Q : bool -> state -> Prop) s p :
  mem s l = Some p -> Q (IsNTT p) s -> wp (flagOf l) Q s.
Proof. unfold wp, flagOf, bind, load, ret. now intros ->. Qed.

Lemma wp_store_after {A} (r : result A) (k : A -> M unit)
    (Q : unit -> state -> Prop) s x :
  r = Ok x -> wp (k x) Q s -> wp (bind (liftR r) k) Q s.
Proof. intros ->. unfold wp, bind, liftR. auto. Qed.

Lemma wp_unary r f level p1 p2 (Q : unit -> state -> Prop) s a d :
  mem s p1 = Some a -> mem s p2 = Some d ->
  (rowsAt level <= ModulusCount r)%nat ->
  (rowsAt level <= length (Coeffs a))%nat ->
  (rowsAt level <= length (Coeffs d))%nat ->
  (forall d', rewritten d d' (rowsAt level) (fun i => f i (rowAt a i)) ->
              Q tt {| mem := update (mem s) p2 d'; rng := rng s |}) ->
  wp (unary r f level p1 p2) Q s.
Proof.
  intros H1 H2 L1 L2 L3 HQ.
  unfold wp, unary, bind, load, liftR, store, mapLvl. rewrite H1, H2.
  rewrite levelGuard_2 by assumption. apply HQ.
  replace (rowsAt level) with (Nat.min (rowsAt level) (length (Coeffs d))) at 1 by lia.
  apply writeRows_rewritten.
Qed.

Lemma wp_binary r f level p1 p2 p3 (Q : unit -> state -> Prop) s a b d :
  mem s p1 = Some a -> mem s p2 = Some b -> mem s p3 = Some d ->
  (rowsAt level <= ModulusCount r)%nat ->
  (rowsAt level <= length (Coeffs a))%nat ->
  (rowsAt level <= length (Coeffs b))%nat ->
  (rowsAt level <= length (Coeffs d))%nat ->
  (forall d', rewritten d d' (rowsAt level)
                (fun i => f i (rowAt a i) (rowAt b i)) ->
              Q tt {| mem := update (mem s) p3 d'; rng := rng s |}) ->
  wp (binary r f level p1 p2 p3) Q s.
Proof.
  intros H1 H2 H3 L1 L2 L3 L4 HQ.
  unfold wp, binary, bind, load, liftR, store, zipLvl. rewrite H1, H2, H3.
  rewrite levelGuard_3 by assumption. apply HQ.
  replace (rowsAt level) with (Nat.min (rowsAt level) (length (Coeffs d))) at 1 by lia.
  apply writeRows_rewritten.
Qed.

Lemma wp_ReadLvl sampler r level pol (Q : unit -> state -> Prop) s d :
  mem s pol = Some d ->
  (rowsAt level <= ModulusCount r)%nat ->
  (rowsAt level <= length (Coeffs d))%nat ->
  (forall d', rewritten d d' (rowsAt level) (fst (sampler (rng s) level)) ->
              Q tt {| mem := update (mem s) pol d';
                      rng := snd (sampler (rng s) level) |}) ->
  wp (ReadLvl sampler r level pol) Q s.
Proof.
  intros H1 L1 L2 HQ.
  unfold wp, ReadLvl, bind, load, draw, liftR, store, fillLvl, mapLvl. rewrite H1.
  destruct (sampler (rng s) level) as [sample g] eqn:E. cbn [mem rng fst snd] in *.
  rewrite levelGuard_2 by assumption. apply HQ.
  replace (rowsAt level) with (Nat.min (rowsAt level) (length (Coeffs d))) at 1 by lia.
  apply (writeRows_rewritten level (fun i => sample i) d).
Qed.

Lemma wp_ReadAndAddLvl sampler r level pol (Q : unit -> state -> Prop) s d :
  mem s pol = Some d ->
  (rowsAt level <= ModulusCount r)%nat ->
  (rowsAt level <= length (Coeffs d))%nat ->
  (forall d', rewritten d d' (rowsAt level)
                (fun i => rowAdd r i (rowAt d i) (fst (sampler (rng s) level) i)) ->
              Q tt {| mem := update (mem s) pol d';
                      rng := snd (sampler (rng s) level) |}) ->
  wp (ReadAndAddLvl sampler r level pol) Q s.
Proof.
  intros H1 L1 L2 HQ.
  unfold wp, ReadAndAddLvl, bind, load, draw, liftR, store, mapLvl. rewrite H1.
  destruct (sampler (rng s) level) as [sample g] eqn:E. cbn [mem rng fst snd] in *.
  rewrite levelGuard_2 by assumption. apply HQ.
  replace (rowsAt level) with (Nat.min (rowsAt level) (length (Coeffs d))) at 1 by lia.
  apply (writeRows_rewritten level (fun i => rowAdd r i (rowAt d i) (sample i)) d).
Qed.

Lemma wp_copyFlag src dst (Q : unit -> state -> Prop) s a d :
  mem s src = Some a -> mem s dst = Some d ->
  (forall d', IsNTT d' = IsNTT a -> length (Coeffs d') = length (Coeffs d) ->
              (forall i, (0 <= i)%nat -> rowAt d' i = rowAt d i) ->
              Q tt {| mem := update (mem s) dst d'; rng := rng s |}) ->
  wp (copyFlag src dst) Q s.
Proof.
  intros H1 H2 HQ. unfold wp, copyFlag, flagOf, bind, load, ret, store.
  rewrite H1. cbn. rewrite H2. apply HQ; reflexivity.
Qed.

Lemma wp_truncate level p (Q : unit -> state -> Prop) s d :
  mem s p = Some d ->
  (rowsAt level <= length (Coeffs d))%nat ->
  (forall d', IsNTT d' = IsNTT d -> length (Coeffs d') = rowsAt level ->
              (forall i, (i < rowsAt level)%nat -> rowAt d' i = rowAt d i) ->
              Q tt {| mem := update (mem s) p d'; rng := rng s |}) ->
  wp (truncate level p) Q s.
Proof.
  intros H1 L HQ. unfold wp, truncate, bind, load, store. rewrite H1.
  destruct (Nat.leb_spec (rowsAt level) (length (Coeffs d))); [| lia].
  apply HQ; unfold setCoeffs; cbn [Coeffs IsNTT].
  - reflexivity.
  - now apply length_take_le.
  - intros i Hi. unfold rowAt. cbn [Coeffs]. now rewrite lookup_take_lt.
Qed.

Lemma wp_Extend prm rP polyInQ levelP polyOutP (Q : unit -> state -> Prop) s a d :
  RingP prm = Some rP ->
  mem s polyInQ = Some a -> mem s polyOutP = Some d ->
  (1 <= length (Coeffs a))%nat ->
  (rowsAt levelP <= ModulusCount rP)%nat ->
  (rowsAt levelP <= length (Coeffs d))%nat ->
  (forall d', rewritten d d' (rowsAt levelP) (fun i => extendRow i (rowAt a 0%nat)) ->
              Q tt {| mem := update (mem s) polyOutP d'; rng := rng s |}) ->
  wp (ExtendBasisSmallNormAndCenter prm polyInQ levelP polyOutP) Q s.
Proof.
  intros HP H1 H2 L0 L1 L2 HQ.
  unfold wp, ExtendBasisSmallNormAndCenter. rewrite HP.
  unfold bind, load, index, liftR, store, fillLvl, mapLvl, ret. rewrite H1, H2.
  rewrite (lookup_rowAt a 0%nat) by lia.
  rewrite levelGuard_2 by assumption. apply HQ.
  replace (rowsAt levelP) with (Nat.min (rowsAt levelP) (length (Coeffs d))) at 1 by lia.
  apply (writeRows_rewritten levelP (fun i => extendRow i (rowAt a 0%nat)) d).
Qed.

Lemma wp_ModDown prm rP levelQ levelP p1Q p1P p2Q (Q : unit -> state -> Prop) s a b d :
  RingP prm = Some rP ->
  mem s p1Q = Some a -> mem s p1P = Some b -> mem s p2Q = Some d ->
  (rowsAt levelP <= ModulusCount rP)%nat ->
  (rowsAt levelP <= length (Coeffs b))%nat ->
  (rowsAt levelQ <= ModulusCount (RingQ prm))%nat ->
  (rowsAt levelQ <= length (Coeffs a))%nat ->
  (rowsAt levelQ <= length (Coeffs d))%nat ->
  (forall d', rewritten d d' (rowsAt levelQ)
                (fun i => modDownRow levelQ levelP i (rowAt a i)
                            (take (rowsAt levelP) (Coeffs b))) ->
              Q tt {| mem := update (mem s) p2Q d'; rng := rng s |}) ->
  wp (ModDownQPtoQ prm levelQ levelP p1Q p1P p2Q) Q s.
Proof.
  intros HP H1 H2 H3 L1 L2 L3 L4 L5 HQ.
  unfold wp, ModDownQPtoQ. rewrite HP.
  unfold bind, load, liftR, store, mapLvl. rewrite H1, H2, H3.
  rewrite levelGuard_1 by assumption. rewrite levelGuard_2 by assumption.
  apply HQ.
  replace (rowsAt levelQ) with (Nat.min (rowsAt levelQ) (length (Coeffs d))) at 1 by lia.
  apply writeRows_rewritten.
Qed.

Lemma take_rows_1 b : (1 <= length (Coeffs b))%nat -> take 1 (Coeffs b) = [rowAt b 0%nat].
Proof.
  intros L. unfold rowAt. destruct (Coeffs b) as [|x l]; [cbn in L; lia | reflexivity].
Qed.

End WP.

Ltac heap_lookup :=
  cbn [mem rng update loc_eqb Nat.eqb andb];
  first [ reflexivity | eassumption ].

Ltac len :=
  change (rowsAt 0) with 1%nat in *;
  rewrite ?rowsAt_Level; lia.

Lemma Level_eq a b : length (Coeffs a) = length (Coeffs b) -> Level a = Level b.
Proof. unfold Level. now intros ->. Qed.

(** Brings flags and levels of intermediate ring elements back to those of
    the inputs, and folds the operating level. *)
Ltac flags :=
  repeat match goal with
         | H : IsNTT ?p = _ |- context [IsNTT ?p] => rewrite H
         | H : length (Coeffs ?p) = length (Coeffs ?q) |- context [Level ?p] =>
             rewrite (Level_eq p q H)
         | H : ?l = Z.min ?a ?b |- context [Z.min ?a ?b] => rewrite <- H
         end;
  cbn [when negb].

Ltac step :=
  lazymatch goal with
  | |- wp (bind _ _) _ _ => apply wp_bind
  | |- wp (ret _) _ _ => apply wp_ret
  | |- wp (load _) _ _ => eapply wp_load; [heap_lookup |]
  | |- wp (index _ _) _ _ => eapply wp_index; [reflexivity |]
  | |- wp (flagOf _) _ _ => eapply wp_flagOf; [heap_lookup |]
  | |- wp (unary _ _ _ _ _) _ _ =>
      eapply wp_unary; [heap_lookup | heap_lookup | len | len | len
                       | intros ? (? & ? & ? & ?)]
  | |- wp (binary _ _ _ _ _ _) _ _ =>
      eapply wp_binary; [heap_lookup | heap_lookup | heap_lookup
                        | len | len | len | len | intros ? (? & ? & ? & ?)]
  | |- wp (ReadLvl _ _ _ _) _ _ =>
      eapply wp_ReadLvl; [heap_lookup | len | len | intros ? (? & ? & ? & ?)]
  | |- wp (ReadAndAddLvl _ _ _ _) _ _ =>
      eapply wp_ReadAndAddLvl; [heap_lookup | len | len | intros ? (? & ? & ? & ?)]
  | |- wp (ExtendBasisSmallNormAndCenter _ _ _ _) _ _ =>
      eapply wp_Extend; [eassumption | heap_lookup | heap_lookup
                        | len | len | len | intros ? (? & ? & ? & ?)]
  | |- wp (ModDownQPtoQ _ _ _ _ _ _) _ _ =>
      eapply wp_ModDown; [eassumption | heap_lookup | heap_lookup | heap_lookup
                         | len | len | len | len | len
                         | intros ? (? & ? & ? & ?)]
  | |- wp (copyFlag _ _) _ _ =>
      eapply wp_copyFlag; [heap_lookup | heap_lookup | intros ? ? ? ?]
  | |- wp (truncate _ _) _ _ =>
      eapply wp_truncate; [heap_lookup | len | intros ? ? ? ?]
  end;
  cbv beta; cbn [mem rng] in *; flags.

(** Rewrites the rows of the intermediate ring elements down to the rows
    of the inputs. *)
Ltac rows :=
  repeat match goal with
         | H : forall i, (i < _)%nat -> rowAt ?p i = _ |- context [rowAt ?p ?j] =>
             rewrite (H j) by len
         | H : forall i, (_ <= i)%nat -> rowAt ?p i = _ |- context [rowAt ?p ?j] =>
             rewrite (H j) by len
         end.

End Rules.

Module SecretKeyRuns.
Import rlwe Spec MonadFacts Rules.

Section Run.
Context {PV : Provider}.
Variables (enc : encryptor) (s : state) (c0 c1 ptv skq buf : Poly).
Hypothesis inputs : skInputs (params enc) s c0 c1 ptv skq buf.

Lemma sk_Encrypt_run levelQ noiseLevel mask g1 :
  levelQ = Z.min (Level ptv) (Level c0) ->
  noiseLevel = (if IsNTT c0 then levelQ else Level c0) ->
  mask = fst (uniformSampleQ (rng s) levelQ) ->
  g1 = snd (uniformSampleQ (rng s) levelQ) ->
  wp (sk_Encrypt enc theSecretKey (Some thePlaintext) (IsCiphertext theCiphertext))
     (fun _ s' =>
        exists p0 p1,
          holds s' (CtValue 0) p0 /\ holds s' (CtValue 1) p1 /\
          polyIs p0 (IsNTT c0) (rowsAt levelQ)
            (fun i => sk_body (RingQ (params enc)) (IsNTT c0) (IsNTT ptv) i
                        (mask i) (fst (gaussianSample g1 noiseLevel) i)
                        (rowAt ptv i) (rowAt skq i)) /\
          polyIs p1 (IsNTT c0) (rowsAt levelQ)
            (fun i => sk_mask (RingQ (params enc)) (IsNTT c0) i (mask i)) /\
          rng s' = snd (gaussianSample g1 noiseLevel))
     s.
Proof.
  intros HlevelQ -> -> ->.
  destruct inputs as [H0 H1 Hp Hs Hb L1 Lmax Lsk Lbuf]. unfold holds in *.
  assert (Ln0 : (rowsAt levelQ <= length (Coeffs c0))%nat)
    by (subst levelQ; rewrite rowsAt_min, !rowsAt_Level; lia).
  assert (Lnp : (rowsAt levelQ <= length (Coeffs ptv))%nat)
    by (subst levelQ; rewrite rowsAt_min, !rowsAt_Level; lia).
  cbv beta iota zeta delta
    [sk_Encrypt sk_encryptRLWE finish thePlaintext theCiphertext theSecretKey
     pt_Value ct_Value sk_Value Q P Plaintext_Level Ciphertext_Level
     uniformSamplerQ_ReadLvl gaussianSampler_ReadLvl gaussianSampler_ReadAndAddLvl
     NTTLvl InvNTTLvl NegLvl AddLvl MulCoeffsMontgomeryLvl].
  destruct (IsNTT c0) eqn:Ec, (IsNTT ptv) eqn:Ep; unfold sk_body, sk_mask.
  all: repeat step.
  all: do 2 eexists; split; [heap_lookup |]; split; [heap_lookup |].
  all: unfold polyIs; repeat split; try congruence; try lia.
  all: try (intros i Hi; rows; reflexivity).
Qed.

End Run.
End SecretKeyRuns.

Module PublicKeyRuns.
Import rlwe Spec MonadFacts Rules.

Section Run.
Context {PV : Provider}.
Variables (enc : encryptor) (rP : Ring) (s : state).
Variables (c0 c1 ptv pk0 pk1 buf pk0P pk1P bufP0 bufP1 bufP2 : Poly).
Hypothesis inputs : pkInputs enc s c0 c1 ptv pk0 pk1 buf.

Lemma pk_Encrypt_run levelQ g1 u g2 e0 g3 e1 g4 :
  pkInputsP enc rP s pk0P pk1P bufP0 bufP1 bufP2 ->
  levelQ = Z.min (Level ptv) (Level c0) ->
  g1 = snd (uniformSampleQ (rng s) levelQ) ->
  u = fst (ternarySample g1 levelQ) -> g2 = snd (ternarySample g1 levelQ) ->
  e0 = fst (gaussianSample g2 levelQ) -> g3 = snd (gaussianSample g2 levelQ) ->
  e1 = fst (gaussianSample g3 levelQ) -> g4 = snd (gaussianSample g3 levelQ) ->
  wp (pk_Encrypt enc thePublicKey (Some thePlaintext) (IsCiphertext theCiphertext))
     (fun _ s' =>
        exists p0 p1,
          holds s' (CtValue 0) p0 /\ holds s' (CtValue 1) p1 /\
          polyIs p0 (IsNTT c0) (rowsAt levelQ)
            (fun i => pk_body (RingQ (params enc)) (IsNTT c0) (IsNTT ptv) i
                        (pk_component (RingQ (params enc)) rP levelQ i u e0
                           (rowAt pk0 i) (rowAt pk0P 0%nat))
                        (rowAt ptv i)) /\
          polyIs p1 (IsNTT c0) (rowsAt levelQ)
            (fun i => pk_mask (RingQ (params enc)) (IsNTT c0) i
                        (pk_component (RingQ (params enc)) rP levelQ i u e1
                           (rowAt pk1 i) (rowAt pk1P 0%nat))) /\
          rng s' = g4)
     s.
Proof.
  intros inputsP HlevelQ -> -> -> -> -> -> ->.
  destruct inputs as [H0 H1 Hp Hk0 Hk1 Hb L1 Lmax Lc0 Lpt Lk0 Lk1 Lbuf].
  destruct inputsP as [HP HB Hk0P Hk1P Hb0 Hb1 Hb2 LP Lk0P Lk1P Lb0 Lb1 Lb2].
  unfold holds in *.
  assert (Ln0 : (rowsAt levelQ <= length (Coeffs c0))%nat)
    by (subst levelQ; rewrite rowsAt_min, !rowsAt_Level; lia).
  assert (Lnp : (rowsAt levelQ <= length (Coeffs ptv))%nat)
    by (subst levelQ; rewrite rowsAt_min, !rowsAt_Level; lia).
  assert (Ln1 : (1 <= rowsAt levelQ)%nat)
    by (subst levelQ; rewrite rowsAt_min, !rowsAt_Level; lia).
  cbv beta iota zeta delta
    [pk_Encrypt pk_encryptRLWE finish thePlaintext theCiphertext thePublicKey
     pt_Value ct_Value pk_Value Q P Plaintext_Level Ciphertext_Level
     uniformSamplerQ_ReadLvl gaussianSampler_ReadLvl ternarySampler_ReadLvl
     QP_NTTLvl QP_InvNTTLvl QP_MFormLvl QP_AddLvl QP_MulCoeffsMontgomeryLvl
     QP_unary QP_binary
     NTTLvl InvNTTLvl MFormLvl AddLvl MulCoeffsMontgomeryLvl].
  cbn [fst snd]. rewrite HP, HB. cbv beta iota.
  destruct (IsNTT c0) eqn:Ec, (IsNTT ptv) eqn:Ep;
    unfold pk_body, pk_mask, pk_component.
  all: repeat step.
  all: do 2 eexists; split; [heap_lookup |]; split; [heap_lookup |].
  all: unfold polyIs; repeat split; try congruence; try lia.
  all: try (intros i Hi; rows; change (rowsAt 0) with 1%nat;
            rewrite !take_rows_1 by len; rows; reflexivity).
Qed.

Lemma pkNoP_Encrypt_run levelQ noiseLevel g1 u g2 eA g3 eB g4 :
  basisextender enc = false ->
  levelQ = Z.min (Level ptv) (Level c0) ->
  noiseLevel = (if IsNTT c0 then levelQ else Level c0) ->
  g1 = snd (uniformSampleQ (rng s) levelQ) ->
  u = fst (ternarySample g1 levelQ) -> g2 = snd (ternarySample g1 levelQ) ->
  eA = fst (gaussianSample g2 noiseLevel) -> g3 = snd (gaussianSample g2 noiseLevel) ->
  eB = fst (gaussianSample g3 noiseLevel) -> g4 = snd (gaussianSample g3 noiseLevel) ->
  wp (pk_Encrypt enc thePublicKey (Some thePlaintext) (IsCiphertext theCiphertext))
     (fun _ s' =>
        exists p0 p1,
          holds s' (CtValue 0) p0 /\ holds s' (CtValue 1) p1 /\
          polyIs p0 (IsNTT c0) (rowsAt levelQ)
            (fun i => noP_body (RingQ (params enc)) (IsNTT c0) (IsNTT ptv) i
                        (u i) (if IsNTT c0 then eB i else eA i)
                        (rowAt ptv i) (rowAt pk0 i)) /\
          polyIs p1 (IsNTT c0) (rowsAt levelQ)
            (fun i => noP_mask (RingQ (params enc)) (IsNTT c0) i
                        (u i) (if IsNTT c0 then eA i else eB i) (rowAt pk1 i)) /\
          rng s' = g4)
     s.
Proof.
  intros HB HlevelQ -> -> -> -> -> -> -> ->.
  destruct inputs as [H0 H1 Hp Hk0 Hk1 Hb L1 Lmax Lc0 Lpt Lk0 Lk1 Lbuf].
  unfold holds in *.
  assert (Ln0 : (rowsAt levelQ <= length (Coeffs c0))%nat)
    by (subst levelQ; rewrite rowsAt_min, !rowsAt_Level; lia).
  assert (Lnp : (rowsAt levelQ <= length (Coeffs ptv))%nat)
    by (subst levelQ; rewrite rowsAt_min, !rowsAt_Level; lia).
  cbv beta iota zeta delta
    [pk_Encrypt pk_encryptNoPRLWE finish thePlaintext theCiphertext thePublicKey
     pt_Value ct_Value pk_Value Q P Plaintext_Level Ciphertext_Level
     uniformSamplerQ_ReadLvl gaussianSampler_ReadLvl ternarySampler_ReadLvl
     gaussianSampler_ReadAndAddLvl
     NTTLvl InvNTTLvl MFormLvl AddLvl MulCoeffsMontgomeryLvl].
  cbn [fst snd]. rewrite HB. cbv beta iota.
  destruct (IsNTT c0) eqn:Ec, (IsNTT ptv) eqn:Ep; unfold noP_body, noP_mask.
  all: repeat step.
  all: do 2 eexists; split; [heap_lookup |]; split; [heap_lookup |].
  all: unfold polyIs; repeat split; try congruence; try lia.
  all: try (intros i Hi; rows; reflexivity).
Qed.

End Run.
End PublicKeyRuns.

(* ===================================================================== *)
(** ** Reading the output rows under the ciphertext's flag *)
(* ===================================================================== *)

Module Domains.
Import rlwe Spec.

Lemma congruent_refl q x : congruent q x x.
Proof. unfold congruent. induction x; constructor; auto. Qed.

Lemma congruent_sym q x y : congruent q x y -> congruent q y x.
Proof. unfold congruent. induction 1; constructor; auto. Qed.

Lemma congruent_trans q x y z :
  congruent q x y -> congruent q y z -> congruent q x z.
Proof.
  unfold congruent. intros H. revert z.
  induction H as [|a b x y Hab H IH]; intros z Hz; inversion Hz; subst;
    constructor; [congruence | auto].
Qed.

Section Algebra.
Variables (r : Ring) (q : nat -> Z) (valid : nat -> row -> Prop).
Hypothesis laws : RingLaws r q valid.

(** Validity of a row built from valid rows. *)
Local Ltac ok :=
  repeat first
    [ assumption
    | apply (NTT_valid r q valid laws)
    | apply (InvNTT_valid r q valid laws)
    | apply (MForm_valid r q valid laws)
    | apply (Add_valid r q valid laws)
    | apply (Neg_valid r q valid laws)
    | apply (Mul_valid r q valid laws) ].

(** One step of a chain of congruences. *)
Local Ltac by_law L := eapply congruent_trans; [apply L; ok |].

(** Congruence under an addition, argument by argument; the arguments
    are settled first, the validity of the rows after. *)
Local Tactic Notation "under_add" "[" tactic(t1) "|" tactic(t2) "]" :=
  apply (Add_cong r q valid laws); [| | | | t1 | t2]; ok.

Local Ltac same := apply congruent_refl.
Local Ltac law L := apply L; ok.

(** [(x + y) + z = (x + z) + y] on valid rows. *)
Lemma Add_swap i x y z : valid i x -> valid i y -> valid i z ->
  congruent (q i) (rowAdd r i (rowAdd r i x y) z)
    (rowAdd r i (rowAdd r i x z) y).
Proof.
  intros Hx Hy Hz.
  by_law (Add_assoc r q valid laws).
  eapply congruent_trans;
    [under_add [same | law (Add_comm r q valid laws)] |].
  apply congruent_sym, (Add_assoc r q valid laws); ok.
Qed.

Lemma decode_sk_body ctNTT ptNTT i mask e m sk :
  valid i mask -> valid i e -> valid i m -> valid i sk ->
  congruent (q i)
    (decode r ctNTT i (sk_body r ctNTT ptNTT i mask e m sk))
    (sk_content r ptNTT i mask e m sk).
Proof.
  intros Ha He Hm Hs. unfold sk_body, sk_content, decode.
  destruct ctNTT, ptNTT.
  - by_law (InvNTT_Add r q valid laws).
    under_add [ (by_law (InvNTT_Add r q valid laws);
                 under_add [ law (InvNTT_Neg r q valid laws)
                           | law (InvNTT_NTT r q valid laws) ])
              | same ].
  - by_law (InvNTT_Add r q valid laws).
    eapply congruent_trans;
      [| apply congruent_sym, (Add_assoc r q valid laws); ok].
    under_add [law (InvNTT_Neg r q valid laws) | law (InvNTT_NTT r q valid laws)].
  - eapply congruent_trans; [| apply Add_swap; ok].
    under_add [ (by_law (InvNTT_Add r q valid laws);
                 under_add [law (InvNTT_Neg r q valid laws) | same])
              | same ].
  - eapply congruent_trans; [| apply Add_swap; ok].
    under_add [ under_add [law (InvNTT_Neg r q valid laws) | same] | same ].
Qed.

Lemma decode_sk_mask ctNTT i mask :
  decode r ctNTT i (sk_mask r ctNTT i mask) = rowInvNTT r i mask.
Proof. destruct ctNTT; reflexivity. Qed.

Lemma decode_pk_body ctNTT ptNTT i c m :
  valid i c -> valid i m ->
  congruent (q i) (decode r ctNTT i (pk_body r ctNTT ptNTT i c m))
    (pk_content r ptNTT i c m).
Proof.
  intros Hc Hm. unfold pk_body, pk_content, decode.
  destruct ctNTT, ptNTT; try apply congruent_refl.
  - by_law (InvNTT_Add r q valid laws).
    under_add [law (InvNTT_NTT r q valid laws) | same].
  - law (InvNTT_NTT r q valid laws).
Qed.

Lemma decode_pk_mask ctNTT i c :
  valid i c ->
  congruent (q i) (decode r ctNTT i (pk_mask r ctNTT i c)) c.
Proof.
  intros Hc. unfold pk_mask, decode. destruct ctNTT; [| apply congruent_refl].
  law (InvNTT_NTT r q valid laws).
Qed.

Lemma decode_noP_body ctNTT ptNTT i u e m pk :
  valid i u -> valid i e -> valid i m -> valid i pk ->
  congruent (q i) (decode r ctNTT i (noP_body r ctNTT ptNTT i u e m pk))
    (noP_content r ptNTT i u e m pk).
Proof.
  intros Hu He Hm Hk. unfold noP_body, noP_content, decode.
  destruct ctNTT, ptNTT; try apply congruent_refl.
  - by_law (InvNTT_Add r q valid laws).
    under_add [ (by_law (InvNTT_Add r q valid laws);
                 under_add [same | law (InvNTT_NTT r q valid laws)])
              | same ].
  - by_law (InvNTT_Add r q valid laws).
    eapply congruent_trans;
      [| apply congruent_sym, (Add_assoc r q valid laws); ok].
    under_add [same | law (InvNTT_NTT r q valid laws)].
Qed.

Lemma decode_noP_mask ctNTT i u e pk :
  valid i u -> valid i e -> valid i pk ->
  congruent (q i) (decode r ctNTT i (noP_mask r ctNTT i u e pk))
    (noP_mask_content r i u e pk).
Proof.
  intros Hu He Hk. unfold noP_mask, noP_mask_content, decode.
  destruct ctNTT; [| apply congruent_refl].
  by_law (InvNTT_Add r q valid laws).
  under_add [same | law (InvNTT_NTT r q valid laws)].
Qed.

End Algebra.
End Domains.

(* ===================================================================== *)
(** ** The common tail: flags and levels on return *)
(* ===================================================================== *)

Module Tail.
Import rlwe Spec MonadFacts Rules.

Lemma loc_eqb_eq a b : loc_eqb a b = true <-> a = b.
Proof.
  split.
  - destruct a, b; cbn; try discriminate; try reflexivity;
      rewrite ?andb_true_iff, ?Nat.eqb_eq; intuition congruence.
  - intros <-. destruct a; cbn; rewrite ?Nat.eqb_refl; reflexivity.
Qed.

Lemma update_eq h l p : update h l p l = Some p.
Proof.
  unfold update. now rewrite (proj2 (loc_eqb_eq l l) eq_refl).
Qed.

Lemma update_cases h l p l' :
  update h l p l' = Some p /\ l = l' \/ update h l p l' = h l' /\ l <> l'.
Proof.
  unfold update. destruct (loc_eqb l l') eqn:E.
  - left. split; [reflexivity | now apply loc_eqb_eq].
  - right. split; [reflexivity |]. intros ->.
    rewrite (proj2 (loc_eqb_eq l' l') eq_refl) in E. discriminate.
Qed.

Section Finish.
Context {PV : Provider}.

Lemma index_Ok {A} (l : list A) i s x s' :
  index l i s = Ok (x, s') -> l !! i = Some x /\ s' = s.
Proof.
  unfold index. destruct (l !! i); [| discriminate].
  unfold ret. intros [= -> ->]. auto.
Qed.

Lemma truncate_Ok level l s s' :
  truncate level l s = Ok (tt, s') ->
  exists d, mem s l = Some d /\
    mem s' = update (mem s) l (setCoeffs d (take (rowsAt level) (Coeffs d))) /\
    (rowsAt level <= length (Coeffs d))%nat.
Proof.
  unfold truncate, bind, load, store, fail.
  destruct (mem s l) as [d|]; [| discriminate].
  destruct (Nat.leb_spec (rowsAt level) (length (Coeffs d))); [| discriminate].
  intros [= <-]. eauto.
Qed.

Lemma copyFlag_Ok src dst s s' :
  copyFlag src dst s = Ok (tt, s') ->
  exists a d, mem s src = Some a /\ mem s dst = Some d /\
    mem s' = update (mem s) dst (setIsNTT d (IsNTT a)).
Proof.
  unfold copyFlag, flagOf, bind, load, store, ret.
  destruct (mem s src) as [a|]; [| discriminate].
  destruct (mem s dst) as [d|]; [| discriminate].
  intros [= <-]. eauto.
Qed.

(** Whatever precedes it, and whether or not the two pointers alias, the
    tail leaves both components with one flag and [level + 1] rows. *)
Lemma finish_Ok level l0 l1 s s' :
  finish level l0 l1 s = Ok (tt, s') ->
  exists p0 p1,
    mem s' l0 = Some p0 /\ mem s' l1 = Some p1 /\
    IsNTT p0 = IsNTT p1 /\
    length (Coeffs p0) = rowsAt level /\ length (Coeffs p1) = rowsAt level.
Proof.
  unfold finish. intros H.
  apply bind_Ok in H as ([] & s1 & Hc & H).
  apply bind_Ok in H as ([] & s2 & Ht0 & Ht1).
  apply copyFlag_Ok in Hc as (a & d & Ha & Hd & E1).
  apply truncate_Ok in Ht0 as (x & Hx & E2 & Lx).
  apply truncate_Ok in Ht1 as (y & Hy & E3 & Ly).
  assert (Fx : IsNTT x = IsNTT a).
  { rewrite E1 in Hx. destruct (update_cases (mem s) l1 (setIsNTT d (IsNTT a)) l0)
      as [[E _] | [E _]]; rewrite E in Hx.
    - now injection Hx as <-.
    - congruence. }
  assert (Fy : IsNTT y = IsNTT a).
  { rewrite E2 in Hy.
    destruct (update_cases (mem s1) l0
                (setCoeffs x (take (rowsAt level) (Coeffs x))) l1)
      as [[E _] | [E _]]; rewrite E in Hy.
    - injection Hy as <-. exact Fx.
    - rewrite E1, update_eq in Hy. now injection Hy as <-. }
  set (y' := setCoeffs y (take (rowsAt level) (Coeffs y))) in *.
  set (x' := setCoeffs x (take (rowsAt level) (Coeffs x))) in *.
  assert (Ly' : length (Coeffs y') = rowsAt level)
    by (subst y'; cbn; now apply length_take_le).
  assert (Lx' : length (Coeffs x') = rowsAt level)
    by (subst x'; cbn; now apply length_take_le).
  rewrite E3.
  destruct (update_cases (mem s2) l1 y' l0) as [[E _] | [E _]]; rewrite E.
  - exists y', y'. rewrite update_eq. repeat split; auto.
  - exists x', y'. rewrite E2, !update_eq. repeat split; auto.
    subst x' y'. cbn. congruence.
Qed.

End Finish.

(** Peels the binds of a run that returned, down to the tail. *)
Ltac peel H :=
  repeat lazymatch type of H with
         | bind _ (fun _ => finish _ _ _) _ = Ok _ => fail
         | bind (index _ _) _ _ = Ok _ =>
             let F := fresh "Hidx" in
             apply bind_Ok in H; destruct H as (? & ? & F & H);
             apply index_Ok in F; destruct F as [F ->]
         | bind _ _ _ = Ok _ =>
             apply bind_Ok in H; destruct H as (? & ? & _ & H)
         end;
  lazymatch type of H with
  | bind _ (fun _ => finish _ _ _) _ = Ok _ =>
      apply bind_Ok in H; destruct H as (? & ? & _ & H)
  end.

Section Routines.
Context {PV : Provider}.

Lemma sk_encryptRLWE_tail enc sk pt el s s' :
  sk_encryptRLWE enc sk pt el s = Ok (tt, s') -> tailOf el s'.
Proof.
  intros H. unfold sk_encryptRLWE in H. cbv zeta in H. peel H.
  unfold tailOf. eauto 10.
Qed.

Lemma pk_encryptRLWE_tail enc pk pt el s s' :
  pk_encryptRLWE enc pk pt el s = Ok (tt, s') -> tailOf el s'.
Proof.
  intros H. unfold pk_encryptRLWE in H. cbv zeta in H. peel H.
  unfold tailOf. eauto 10.
Qed.

Lemma pk_encryptNoPRLWE_tail enc pk pt el s s' :
  pk_encryptNoPRLWE enc pk pt el s = Ok (tt, s') -> tailOf el s'.
Proof.
  intros H. unfold pk_encryptNoPRLWE in H. cbv zeta in H. peel H.
  unfold tailOf. eauto 10.
Qed.

Lemma Encrypt_tail e pt el s s' :
  Encrypt e pt (IsCiphertext el) s = Ok (tt, s') -> tailOf el s'.
Proof.
  destruct e as [enc pk | enc sk]; cbn [Encrypt]; intros H.
  - unfold pk_Encrypt in H.
    apply bind_Ok in H as (? & ? & _ & H).
    apply bind_Ok in H as (? & ? & _ & H).
    apply bind_Ok in H as (? & ? & _ & H).
    apply bind_Ok in H as (? & ? & _ & H).
    destruct (basisextender enc);
      eauto using pk_encryptRLWE_tail, pk_encryptNoPRLWE_tail.
  - unfold sk_Encrypt in H.
    apply bind_Ok in H as (? & ? & _ & H).
    apply bind_Ok in H as (? & ? & _ & H).
    apply bind_Ok in H as (? & ? & _ & H).
    apply bind_Ok in H as (? & ? & _ & H).
    eauto using sk_encryptRLWE_tail.
Qed.

Lemma EncryptFromCRP_tail e pt crp el s s' :
  EncryptFromCRP e pt crp el s = Ok (tt, s') -> tailOf el s'.
Proof.
  destruct e as [enc pk | enc sk]; cbn [EncryptFromCRP]; intros H.
  - discriminate H.
  - unfold sk_EncryptFromCRP in H.
    apply bind_Ok in H as (? & ? & _ & H).
    apply bind_Ok in H as (? & ? & _ & H).
    eauto using sk_encryptRLWE_tail.
Qed.

End Routines.

Lemma tailOf_flagsAgree {PV : Provider} el s : tailOf el s -> flagsAgree el s.
Proof.
  intros (level & l0 & l1 & s1 & H0 & H1 & H).
  apply finish_Ok in H as (p0 & p1 & ? & ? & ? & _).
  exists l0, l1, p0, p1. auto.
Qed.

(** C7. Whenever [Encrypt], [EncryptFromCRP] or the public-key routine
    without a modulus [P] returns, the two components of the ciphertext
    carry the same [IsNTT] flag: for every encryptor, plaintext,
    ciphertext and heap, aliased or not. *)
Theorem flags_agree_on_return :
  forall (PV : Provider) (pt : option Plaintext) (el : Ciphertext) (s s' : state),
    (forall e, Encrypt e pt (IsCiphertext el) s = Ok (tt, s') -> flagsAgree el s') /\
    (forall e crp, EncryptFromCRP e pt crp el s = Ok (tt, s') -> flagsAgree el s') /\
    (forall enc pk,
        pk_encryptNoPRLWE enc pk pt el s = Ok (tt, s') -> flagsAgree el s').
Proof.
  intros PV pt el s s'. repeat split; intros;
    apply tailOf_flagsAgree;
    eauto using Encrypt_tail, EncryptFromCRP_tail, pk_encryptNoPRLWE_tail.
Qed.

End Tail.

(* ===================================================================== *)
(** ** The small provider obeys the laws *)
(* ===================================================================== *)

Module ToyFacts.
Import rlwe Spec Phase Toy.

Ltac toy_index :=
  match goal with
  | H : (?i < 2)%nat |- _ => destruct i as [|[|i]]; [| | lia]
  end.

Ltac toy_unfold :=
  cbv [ringQ wordRingQ mkToyRing mkWordRing modulus
       rowNTT rowInvNTT rowAdd rowNeg rowMForm rowMulMontgomery
       ntt invntt nth Qi Pi psiQ map zip_with residues small imap
       gaussianSample ternarySample uniformSampleQ modDownRow provider fst
       ModulusCount length] in *;
  repeat match goal with
         | |- context [inv ?q ?a] =>
             let v := eval vm_compute in (inv q a) in change (inv q a) with v
         end.

Ltac modarith := Z.div_mod_to_equations; lia.

(** Congruence modulo [q], with sums, differences and products. *)
#[local] Instance eqm_equivalence q : Equivalence (eqm q) := eqm_setoid q.
#[local] Instance add_eqm q : Proper (eqm q ==> eqm q ==> eqm q) Z.add :=
  Zplus_eqm q.
#[local] Instance sub_eqm q : Proper (eqm q ==> eqm q ==> eqm q) Z.sub :=
  Zminus_eqm q.
#[local] Instance mul_eqm q : Proper (eqm q ==> eqm q ==> eqm q) Z.mul :=
  Zmult_eqm q.
#[local] Instance opp_eqm q : Proper (eqm q ==> eqm q) Z.opp := Zopp_eqm q.

Lemma cred_eqm q a : eqm q (cred q a) a.
Proof.
  unfold eqm, cred. destruct (q <=? a); [| reflexivity].
  replace (a - q) with (a + (-1) * q) by lia. apply Z_mod_plus_full.
Qed.

#[local] Instance cred_proper q : Proper (eqm q ==> eqm q) (cred q).
Proof.
  intros x y H. transitivity x; [apply cred_eqm |].
  transitivity y; [exact H | symmetry; apply cred_eqm].
Qed.

Lemma neg_eqm q a : eqm q (q - a) (- a).
Proof.
  unfold eqm. replace (q - a) with (- a + 1 * q) by lia. apply Z_mod_plus_full.
Qed.

Lemma cred_range q a b :
  0 <= a <= q -> 0 <= b <= q -> 0 <= cred q (a + b) <= q.
Proof. intros Ha Hb. unfold cred. destruct (Z.leb_spec q (a + b)); lia. Qed.

(** An entry is in range. *)
Ltac in_range :=
  cbv beta delta [compose];
  lazymatch goal with
  | |- 0 <= ?x mod ?q <= _ =>
      split; [| apply Z.lt_le_incl]; apply Z.mod_pos_bound; lia
  | |- 0 <= cred _ _ <= _ => apply cred_range; lia
  | |- _ => lia
  end.

(** A row of two entries in range is valid. *)
Ltac is_valid :=
  split; [lia |]; do 2 eexists; split; [reflexivity |];
  cbv [modulus nth Qi]; split; in_range.

Ltac two_rows :=
  repeat match goal with
         | H : valid _ _ |- _ => destruct H as [? (? & ? & -> & ? & ?)]
         end.

Lemma congruent_two q a0 a1 b0 b1 :
  congruent q [a0; a1] [b0; b1] <-> eqm q a0 b0 /\ eqm q a1 b1.
Proof.
  unfold congruent, eqm. split.
  - intros H. inversion H as [|? ? ? ? E0 H']; subst.
    inversion H' as [|? ? ? ? E1 _]; subst. auto.
  - intros [E0 E1]. repeat constructor; assumption.
Qed.

Lemma eqm_difference q a b : (a - b) mod q = 0 -> eqm q a b.
Proof.
  intros H. unfold eqm. replace a with (b + (a - b)) at 1 by lia.
  rewrite Zplus_mod, H, Z.add_0_r. apply Zmod_mod.
Qed.

(** A congruence between sums and products of entries: the reductions are
    dropped, congruent entries are exchanged, and what is left differs by
    a multiple of the modulus. *)
Ltac residue :=
  match goal with
  | |- eqm ?q _ _ =>
      repeat first [ setoid_rewrite (Zmod_eqm q)
                   | setoid_rewrite (cred_eqm q)
                   | setoid_rewrite (neg_eqm q) ]
  end;
  repeat match goal with
         | H : eqm _ ?a _ |- _ => setoid_rewrite H; clear H
         end;
  first [ reflexivity
        | apply eqm_difference;
          repeat match goal with H : _ <= _ <= _ |- _ => clear H end;
          match goal with |- ?d mod _ = 0 => ring_simplify d end;
          modarith ].

(** Congruences between rows of two entries, entry by entry. *)
Ltac entries :=
  repeat match goal with
         | H : congruent _ [_; _] [_; _] |- _ =>
             apply congruent_two in H; destruct H
         end;
  apply congruent_two; split; residue.

Lemma word_RingLaws : RingLaws wordRingQ modulus valid.
Proof.
  constructor; intros; two_rows; toy_index; toy_unfold;
    first [is_valid | entries].
Qed.

Lemma word_ProviderLaws : ProviderLaws wordRingQ modulus valid.
Proof.
  constructor; [exact word_RingLaws | | | |]; intros; two_rows.
  - toy_unfold. toy_index; is_valid.
  - toy_unfold. toy_index; is_valid.
  - toy_unfold. toy_index; is_valid.
  - toy_index; toy_unfold; is_valid.
Qed.

Lemma word_PhaseLaws : PhaseLaws wordRingQ modulus valid.
Proof.
  constructor; intros; two_rows; toy_index; toy_unfold; entries.
Qed.

Lemma toy_skInputs ctNTT ptNTT ptRows :
  skInputs (params encP) (start paramsP true ctNTT ptNTT ptRows)
    (ctPoly ctNTT) (ctPoly ctNTT) (ptPoly ptRows ptNTT) skPoly
    (NewPoly 2 ringQ).
Proof. constructor; first [reflexivity | cbn; lia]. Qed.

Lemma word_skInputs ctNTT ptNTT ptRows :
  skInputs (params encWord) (start paramsWord true ctNTT ptNTT ptRows)
    (ctPoly ctNTT) (ctPoly ctNTT) (ptPoly ptRows ptNTT) skPoly
    (NewPoly 2 wordRingQ).
Proof. constructor; first [reflexivity | cbn; lia]. Qed.

Lemma toy_pkInputs withP enc ctNTT ptNTT ptRows :
  RingQ (params enc) = ringQ -> (1 <= length ptRows)%nat ->
  pkInputs enc (start paramsP withP ctNTT ptNTT ptRows)
    (ctPoly ctNTT) (ctPoly ctNTT) (ptPoly ptRows ptNTT) pk0Poly pk1Poly
    (NewPoly 2 ringQ).
Proof. intros E L. constructor; rewrite ?E; first [reflexivity | cbn; lia]. Qed.

Lemma toy_pkInputsP ctNTT ptNTT ptRows :
  pkInputsP encP ringP (start paramsP true ctNTT ptNTT ptRows)
    pk0PolyP pk1PolyP (NewPoly 2 ringP) (NewPoly 2 ringP) (NewPoly 2 ringP).
Proof. constructor; first [reflexivity | cbn; lia]. Qed.

Lemma toy_validRows_keys :
  validRows valid 2 skPoly /\ validRows valid 2 pk0Poly /\ validRows valid 2 pk1Poly.
Proof.
  split; [| split]; intros i Hi; destruct i as [|[|j]]; try lia;
    (split; [lia |]); do 2 eexists; (split; [reflexivity |]); cbn; lia.
Qed.

Lemma toy_validRows_pt ptNTT :
  validRows valid 2 (ptPoly [[1; 2]; [1; 2]] ptNTT).
Proof.
  intros i Hi; destruct i as [|[|j]]; try lia;
    (split; [lia |]); do 2 eexists; (split; [reflexivity |]); cbn; lia.
Qed.

End ToyFacts.

(* ===================================================================== *)
(** ** Levels, success and key degrees *)
(* ===================================================================== *)

Module Levels.
Import rlwe Spec MonadFacts Rules SecretKeyRuns PublicKeyRuns Tail.

Lemma Level_of_rows p level :
  -1 <= level -> length (Coeffs p) = rowsAt level -> Level p = level.
Proof. unfold Level, rowsAt. lia. Qed.

Lemma min_Level_ge a b : -1 <= Z.min (Level a) (Level b).
Proof. unfold Level. lia. Qed.

Section Calls.
Context {PV : Provider}.

(** Every well-formed call returns, with both components at the lower of
    the two levels. *)
Lemma Encrypt_run_level e s c0 c1 ptv :
  wellFormedCall e s c0 c1 ptv ->
  wp (Encrypt e (Some thePlaintext) (IsCiphertext theCiphertext))
     (fun _ => ciphertextAt (Z.min (Level ptv) (Level c0))) s.
Proof.
  pose proof (min_Level_ge ptv c0) as Hge.
  destruct e as [enc pk | enc sk]; cbn [wellFormedCall Encrypt].
  - intros (-> & pk0 & pk1 & buf & Hin & [HB | (rP & a & b & x & y & z & HinP)]).
    + eapply wp_mono;
        [eapply pkNoP_Encrypt_run; eauto |].
      intros _ s' (p0 & p1 & H0 & H1 & (_ & L0 & _) & (_ & L1 & _) & _).
      exists p0, p1. repeat split; auto using Level_of_rows.
    + eapply wp_mono; [eapply pk_Encrypt_run; eauto |].
      intros _ s' (p0 & p1 & H0 & H1 & (_ & L0 & _) & (_ & L1 & _) & _).
      exists p0, p1. repeat split; auto using Level_of_rows.
  - intros (-> & skq & buf & Hin).
    eapply wp_mono; [eapply sk_Encrypt_run; eauto |].
    intros _ s' (p0 & p1 & H0 & H1 & (_ & L0 & _) & (_ & L1 & _) & _).
    exists p0, p1. repeat split; auto using Level_of_rows.
Qed.

Lemma Degree_run l s p r0 :
  mem s l = Some p -> Coeffs p !! 0%nat = Some r0 ->
  Degree l s = Ok (Z.of_nat (length r0), s).
Proof.
  intros H1 H2. unfold Degree, bind, load, index, ret. now rewrite H1, H2.
Qed.

End Calls.

(** C8. After a well-formed call of [Encrypt], under either kind of key,
    both components of the ciphertext are at the minimum of the
    plaintext's and the ciphertext's input levels, which does not exceed
    the ciphertext's input level. *)
Theorem Encrypt_level_is_the_minimum :
  forall (PV : Provider) (e : Encryptor) (s : state) (c0 c1 ptv : Poly),
    wellFormedCall e s c0 c1 ptv ->
    wp (Encrypt e (Some thePlaintext) (IsCiphertext theCiphertext))
       (fun _ => ciphertextAt (Z.min (Level ptv) (Level c0))) s /\
    Z.min (Level ptv) (Level c0) <= Level c0.
Proof.
  intros PV e s c0 c1 ptv H. split; [exact (Encrypt_run_level e s c0 c1 ptv H) | lia].
Qed.

Lemma toy_wellFormedCall_sk ctNTT ptNTT ptRows :
  wellFormedCall (PV := Toy.provider) (SkEncryptor Toy.encP theSecretKey)
    (Toy.start Toy.paramsP true ctNTT ptNTT ptRows)
    (Toy.ctPoly ctNTT) (Toy.ctPoly ctNTT) (Toy.ptPoly ptRows ptNTT).
Proof.
  split; [reflexivity |]. do 2 eexists. apply ToyFacts.toy_skInputs.
Qed.

Lemma toy_wellFormedCall_pk ctNTT ptNTT ptRows :
  (1 <= length ptRows)%nat ->
  wellFormedCall (PV := Toy.provider) (PkEncryptor Toy.encP thePublicKey)
    (Toy.start Toy.paramsP true ctNTT ptNTT ptRows)
    (Toy.ctPoly ctNTT) (Toy.ctPoly ctNTT) (Toy.ptPoly ptRows ptNTT).
Proof.
  intros L. split; [reflexivity |]. do 3 eexists. split.
  - apply ToyFacts.toy_pkInputs; [reflexivity | exact L].
  - right. do 6 eexists. apply ToyFacts.toy_pkInputsP.
Qed.

(** A ciphertext at level 1 and a plaintext at level 0, under a secret
    key: the call returns a ciphertext at level 0. *)
Lemma Encrypt_level_is_the_minimum_witness :
  wellFormedCall (PV := Toy.provider) (SkEncryptor Toy.encP theSecretKey)
    (Toy.start Toy.paramsP true true true [[1; 2]])
    (Toy.ctPoly true) (Toy.ctPoly true) (Toy.ptPoly [[1; 2]] true) /\
  wp (PV := Toy.provider)
     (Encrypt (SkEncryptor Toy.encP theSecretKey) (Some thePlaintext)
        (IsCiphertext theCiphertext))
     (fun _ => ciphertextAt 0) (Toy.start Toy.paramsP true true true [[1; 2]]) /\
  0 <= 1.
Proof.
  split; [apply toy_wellFormedCall_sk |].
  apply (Encrypt_level_is_the_minimum Toy.provider
           (SkEncryptor Toy.encP theSecretKey)
           (Toy.start Toy.paramsP true true true [[1; 2]])
           (Toy.ctPoly true) (Toy.ctPoly true) (Toy.ptPoly [[1; 2]] true)
           (toy_wellFormedCall_sk true true [[1; 2]])).
Defined.

(** The claim that a ciphertext above the plaintext's level is rejected
    fails: plaintext at level 0, ciphertext at level 1, and both variants
    return a ciphertext cut down to level 0. *)
Lemma Encrypt_accepts_a_ciphertext_above_the_plaintext_level :
  let s := Toy.start Toy.paramsP true true true [[1; 2]] in
  Level (Toy.ptPoly [[1; 2]] true) = 0 /\ Level (Toy.ctPoly true) = 1 /\
  mem s PtValue = Some (Toy.ptPoly [[1; 2]] true) /\
  mem s (CtValue 0) = Some (Toy.ctPoly true) /\
  mem s (CtValue 1) = Some (Toy.ctPoly true) /\
  Toy.observe (Encrypt (SkEncryptor Toy.encP theSecretKey) (Some thePlaintext)
                 (IsCiphertext theCiphertext) s)
  = Ok (Some (mkPoly [[79; 43]] true), Some (mkPoly [[36; 54]] true)) /\
  Toy.observe (Encrypt (PkEncryptor Toy.encP thePublicKey) (Some thePlaintext)
                 (IsCiphertext theCiphertext) s)
  = Ok (Some (mkPoly [[93; 43]] true), Some (mkPoly [[55; 79]] true)).
Proof. vm_compute. repeat split. Qed.

(** C5, as the code has it. [Encrypt] does not compare the two levels: a
    well-formed call returns whatever their order, with both components of
    the ciphertext at the minimum of the plaintext's and the ciphertext's
    levels. The ring degree of a key is checked once, by [setKey], when the
    encryptor is built: it panics exactly when the degree of a key
    component differs from the parameters' [N], and on a key of another
    type. *)
Theorem Encrypt_returns_and_setKey_checks_the_degree :
  forall (PV : Provider) (enc : encryptor) (s : state),
    (forall e c0 c1 ptv,
        wellFormedCall e s c0 c1 ptv ->
        wp (Encrypt e (Some thePlaintext) (IsCiphertext theCiphertext))
           (fun _ => ciphertextAt (Z.min (Level ptv) (Level c0))) s) /\
    (forall key kq r0,
        holds s (Q (sk_Value key)) kq -> Coeffs kq !! 0%nat = Some r0 ->
        setKey enc (IsSecretKey key) s
        = if Z.of_nat (length r0) =? N (params enc)
          then Ok (SkEncryptor enc key, s) else Panic SkDegreeMismatch) /\
    (forall key k0 k1 r0 r1,
        holds s (Q (fst (pk_Value key))) k0 -> Coeffs k0 !! 0%nat = Some r0 ->
        holds s (Q (snd (pk_Value key))) k1 -> Coeffs k1 !! 0%nat = Some r1 ->
        setKey enc (IsPublicKey key) s
        = if (Z.of_nat (length r0) =? N (params enc))
             && (Z.of_nat (length r1) =? N (params enc))
          then Ok (PkEncryptor enc key, s) else Panic PkDegreeMismatch) /\
    setKey enc IsOtherKey s = Panic UnsupportedKey.
Proof.
  intros PV enc s. split; [| split; [| split]].
  - intros e c0 c1 ptv H. exact (Encrypt_run_level e s c0 c1 ptv H).
  - intros key kq r0 H1 H2. unfold setKey, bind.
    rewrite (Degree_run _ _ _ _ H1 H2).
    destruct (Z.of_nat (length r0) =? N (params enc)); reflexivity.
  - intros key k0 k1 r0 r1 H1 H2 H3 H4. unfold setKey, bind.
    rewrite (Degree_run _ _ _ _ H1 H2).
    destruct (Z.of_nat (length r0) =? N (params enc)); [| reflexivity].
    cbn [negb andb]. rewrite (Degree_run _ _ _ _ H3 H4).
    destruct (Z.of_nat (length r1) =? N (params enc)); reflexivity.
  - reflexivity.
Qed.

(** On the small provider: the call of the counterexample, a ciphertext at
    level 1 over a plaintext at level 0, returns a ciphertext at level 0,
    and [setKey] accepts the degree-2 keys under [N = 2]. *)
Lemma Encrypt_returns_and_setKey_checks_the_degree_witness :
  let s := Toy.start Toy.paramsP true true true [[1; 2]] in
  wellFormedCall (PV := Toy.provider) (PkEncryptor Toy.encP thePublicKey) s
    (Toy.ctPoly true) (Toy.ctPoly true) (Toy.ptPoly [[1; 2]] true) /\
  wp (PV := Toy.provider)
     (Encrypt (PkEncryptor Toy.encP thePublicKey) (Some thePlaintext)
        (IsCiphertext theCiphertext)) (fun _ => ciphertextAt 0) s /\
  setKey Toy.encP (IsSecretKey theSecretKey) s
  = Ok (SkEncryptor Toy.encP theSecretKey, s) /\
  setKey Toy.encP (IsPublicKey thePublicKey) s
  = Ok (PkEncryptor Toy.encP thePublicKey, s).
Proof.
  pose proof (Encrypt_returns_and_setKey_checks_the_degree Toy.provider Toy.encP
                (Toy.start Toy.paramsP true true true [[1; 2]]))
    as (Hrun & Hsk & Hpk & _).
  split; [| split; [| split]].
  - apply toy_wellFormedCall_pk. exact (le_n 1).
  - exact (Hrun (PkEncryptor Toy.encP thePublicKey) (Toy.ctPoly true)
             (Toy.ctPoly true) (Toy.ptPoly [[1; 2]] true)
             (toy_wellFormedCall_pk true true [[1; 2]] (le_n 1))).
  - exact (Hsk theSecretKey Toy.skPoly [21; 60] eq_refl eq_refl).
  - exact (Hpk thePublicKey Toy.pk0Poly Toy.pk1Poly [11; 12] [15; 16]
             eq_refl eq_refl eq_refl eq_refl).
Defined.

(** A returning run for the agreement of the flags: the secret-key
    [Encrypt] of a coefficient-domain plaintext into an evaluation-domain
    ciphertext on the small provider. *)
Lemma flags_agree_on_return_witness :
  let s := Toy.start Toy.paramsP true true false [[1; 2]; [1; 2]] in
  let e := SkEncryptor Toy.encP theSecretKey in
  exists s' : state,
    Encrypt (PV := Toy.provider) e (Some thePlaintext)
      (IsCiphertext theCiphertext) s = Ok (tt, s') /\
    flagsAgree theCiphertext s'.
Proof.
  intros s e.
  pose proof (Encrypt_run_level e s (Toy.ctPoly true) (Toy.ctPoly true)
                (Toy.ptPoly [[1; 2]; [1; 2]] false)
                (toy_wellFormedCall_sk true false [[1; 2]; [1; 2]])) as W.
  unfold wp in W.
  destruct (Encrypt e (Some thePlaintext) (IsCiphertext theCiphertext) s)
    as [[[] s'] | p] eqn:E; [| destruct W].
  exists s'. split; [reflexivity |].
  exact (proj1 (Tail.flags_agree_on_return Toy.provider (Some thePlaintext)
                  theCiphertext s s') e E).
Defined.

End Levels.

(* ===================================================================== *)
(** ** What the three routines write *)
(* ===================================================================== *)

Module Outputs.
Import rlwe Spec MonadFacts Rules SecretKeyRuns PublicKeyRuns Domains.

(** C2. A secret-key [Encrypt] of a supplied plaintext into an RLWE
    ciphertext returns with the mask drawn from the uniform sampler over
    [Q] at the operating level (the first draw of the call), and the body
    equal to [-mask*secret + noise + plaintext], the noise being the next,
    Gaussian, draw; each term is taken to the domain of the ciphertext. *)
Theorem sk_Encrypt_mask_and_body :
  forall (PV : Provider) (enc : encryptor) (s : state)
         (c0 c1 ptv skq buf : Poly),
    skInputs (params enc) s c0 c1 ptv skq buf ->
    let r := RingQ (params enc) in
    let levelQ := Z.min (Level ptv) (Level c0) in
    let mask := fst (uniformSampleQ (rng s) levelQ) in
    let noise := fst (gaussianSample (snd (uniformSampleQ (rng s) levelQ))
                        (if IsNTT c0 then levelQ else Level c0)) in
    wp (Encrypt (SkEncryptor enc theSecretKey) (Some thePlaintext)
          (IsCiphertext theCiphertext))
       (fun _ =>
          ciphertextIs (IsNTT c0) levelQ
            (fun i => sk_body r (IsNTT c0) (IsNTT ptv) i
                        (mask i) (noise i) (rowAt ptv i) (rowAt skq i))
            (fun i => sk_mask r (IsNTT c0) i (mask i)))
       s.
Proof.
  intros PV enc s c0 c1 ptv skq buf Hin r levelQ mask noise.
  eapply wp_mono;
    [exact (sk_Encrypt_run enc s c0 c1 ptv skq buf Hin levelQ _ mask _
              eq_refl eq_refl eq_refl eq_refl) |].
  intros _ s' (p0 & p1 & H0 & H1 & Hb & Hm & _). exists p0, p1. auto.
Qed.

(** A run in the evaluation domain and at the top level. *)
Lemma sk_Encrypt_mask_and_body_witness :
  let s := Toy.start Toy.paramsP true true true [[1; 2]; [1; 2]] in
  let mask := fst (uniformSampleQ (Provider := Toy.provider) (rng s) 1) in
  let noise := fst (gaussianSample (Provider := Toy.provider)
                      (snd (uniformSampleQ (Provider := Toy.provider) (rng s) 1)) 1) in
  skInputs (params Toy.encP) s (Toy.ctPoly true) (Toy.ctPoly true)
    (Toy.ptPoly [[1; 2]; [1; 2]] true) Toy.skPoly (NewPoly 2 Toy.ringQ) /\
  wp (Encrypt (SkEncryptor Toy.encP theSecretKey) (Some thePlaintext)
        (IsCiphertext theCiphertext))
     (fun _ =>
        ciphertextIs true 1
          (fun i => sk_body Toy.ringQ true true i (mask i) (noise i)
                      (rowAt (Toy.ptPoly [[1; 2]; [1; 2]] true) i)
                      (rowAt Toy.skPoly i))
          (fun i => sk_mask Toy.ringQ true i (mask i)))
     s.
Proof.
  split; [apply ToyFacts.toy_skInputs |].
  apply (sk_Encrypt_mask_and_body Toy.provider Toy.encP
           (Toy.start Toy.paramsP true true true [[1; 2]; [1; 2]])
           (Toy.ctPoly true) (Toy.ctPoly true)
           (Toy.ptPoly [[1; 2]; [1; 2]] true) Toy.skPoly (NewPoly 2 Toy.ringQ)
           (ToyFacts.toy_skInputs true true [[1; 2]; [1; 2]])).
Defined.

(** The order of the specification (division by [P], then noise) and the
    order of the code give different ciphertexts. *)
Lemma pk_encryptRLWE_is_not_in_the_specified_order :
  let s := Toy.start Toy.paramsP true false false [[1; 2]; [3; 4]] in
  Toy.observe (pk_encryptRLWE Toy.encP thePublicKey (Some thePlaintext)
                 theCiphertext s)
  = Ok (Some (mkPoly [[51; 31]; [64; 49]] false),
        Some (mkPoly [[50; 77]; [61; 64]] false)) /\
  Toy.observe (pk_encryptRLWE_specOrder Toy.encP thePublicKey (Some thePlaintext)
                 theCiphertext s)
  = Ok (Some (mkPoly [[55; 29]; [68; 47]] false),
        Some (mkPoly [[52; 80]; [63; 67]] false)) /\
  Toy.observe (pk_encryptRLWE Toy.encP thePublicKey (Some thePlaintext)
                 theCiphertext s)
  <> Toy.observe (pk_encryptRLWE_specOrder Toy.encP thePublicKey
                    (Some thePlaintext) theCiphertext s).
Proof. vm_compute. repeat split. discriminate. Qed.

(** C1, as the code has it. With a modulus [P], the public-key [Encrypt]
    samples the ternary [u], lifts it to the extended ring, multiplies it
    by each key component in NTT and Montgomery form, takes the products
    back to coefficients, adds to each an independently drawn Gaussian
    noise lifted to the extended ring, and only then divides by [P]; the
    plaintext is added to the body last. *)
Theorem pk_Encrypt_adds_noise_before_the_division :
  forall (PV : Provider) (enc : encryptor) (rP : Ring) (s : state)
         (c0 c1 ptv pk0 pk1 buf pk0P pk1P bufP0 bufP1 bufP2 : Poly),
    pkInputs enc s c0 c1 ptv pk0 pk1 buf ->
    pkInputsP enc rP s pk0P pk1P bufP0 bufP1 bufP2 ->
    let r := RingQ (params enc) in
    let levelQ := Z.min (Level ptv) (Level c0) in
    let g1 := snd (uniformSampleQ (rng s) levelQ) in
    let u := fst (ternarySample g1 levelQ) in
    let g2 := snd (ternarySample g1 levelQ) in
    let e0 := fst (gaussianSample g2 levelQ) in
    let e1 := fst (gaussianSample (snd (gaussianSample g2 levelQ)) levelQ) in
    wp (Encrypt (PkEncryptor enc thePublicKey) (Some thePlaintext)
          (IsCiphertext theCiphertext))
       (fun _ =>
          ciphertextIs (IsNTT c0) levelQ
            (fun i => pk_body r (IsNTT c0) (IsNTT ptv) i
                        (pk_component r rP levelQ i u e0
                           (rowAt pk0 i) (rowAt pk0P 0%nat))
                        (rowAt ptv i))
            (fun i => pk_mask r (IsNTT c0) i
                        (pk_component r rP levelQ i u e1
                           (rowAt pk1 i) (rowAt pk1P 0%nat))))
       s.
Proof.
  intros PV enc rP s c0 c1 ptv pk0 pk1 buf pk0P pk1P bufP0 bufP1 bufP2
    Hin HinP r levelQ g1 u g2 e0 e1.
  eapply wp_mono;
    [exact (pk_Encrypt_run enc rP s c0 c1 ptv pk0 pk1 buf pk0P pk1P
              bufP0 bufP1 bufP2 Hin levelQ g1 u g2 e0 _ e1 _ HinP
              eq_refl eq_refl eq_refl eq_refl eq_refl eq_refl eq_refl eq_refl) |].
  intros _ s' (p0 & p1 & H0 & H1 & Hb & Hm & _). exists p0, p1. auto.
Qed.

(** The run of the counterexample. *)
Lemma pk_Encrypt_adds_noise_before_the_division_witness :
  let s := Toy.start Toy.paramsP true false false [[1; 2]; [3; 4]] in
  let g1 := snd (uniformSampleQ (Provider := Toy.provider) (rng s) 1) in
  let u := fst (ternarySample (Provider := Toy.provider) g1 1) in
  let g2 := snd (ternarySample (Provider := Toy.provider) g1 1) in
  let e0 := fst (gaussianSample (Provider := Toy.provider) g2 1) in
  let e1 := fst (gaussianSample (Provider := Toy.provider)
                   (snd (gaussianSample (Provider := Toy.provider) g2 1)) 1) in
  wp (Encrypt (PkEncryptor Toy.encP thePublicKey) (Some thePlaintext)
        (IsCiphertext theCiphertext))
     (fun _ =>
        ciphertextIs false 1
          (fun i => pk_body Toy.ringQ false false i
                      (pk_component (PV := Toy.provider) Toy.ringQ Toy.ringP 1 i u e0
                         (rowAt Toy.pk0Poly i) (rowAt Toy.pk0PolyP 0%nat))
                      (rowAt (Toy.ptPoly [[1; 2]; [3; 4]] false) i))
          (fun i => pk_mask Toy.ringQ false i
                      (pk_component (PV := Toy.provider) Toy.ringQ Toy.ringP 1 i u e1
                         (rowAt Toy.pk1Poly i) (rowAt Toy.pk1PolyP 0%nat))))
     s.
Proof.
  apply (pk_Encrypt_adds_noise_before_the_division Toy.provider Toy.encP
           Toy.ringP (Toy.start Toy.paramsP true false false [[1; 2]; [3; 4]])
           (Toy.ctPoly false) (Toy.ctPoly false)
           (Toy.ptPoly [[1; 2]; [3; 4]] false) Toy.pk0Poly Toy.pk1Poly
           (NewPoly 2 Toy.ringQ) Toy.pk0PolyP Toy.pk1PolyP
           (NewPoly 2 Toy.ringP) (NewPoly 2 Toy.ringP) (NewPoly 2 Toy.ringP)).
  - apply ToyFacts.toy_pkInputs; [reflexivity | cbn; lia].
  - apply ToyFacts.toy_pkInputsP.
Defined.

End Outputs.

(* ===================================================================== *)
(** ** The output is in the domain its flag announces *)
(* ===================================================================== *)

Module FlagDomain.
Import rlwe Spec MonadFacts Rules SecretKeyRuns PublicKeyRuns Domains.

Lemma rowsAt_min_le ptv c0 :
  (rowsAt (Z.min (Level ptv) (Level c0)) <= length (Coeffs c0))%nat.
Proof. rewrite rowsAt_min, !rowsAt_Level. lia. Qed.

Section Paths.
Context {PV : Provider}.
Variables (q : nat -> Z) (valid : nat -> row -> Prop).
Variables (enc : encryptor) (s : state).
Variables (c0 c1 ptv buf : Poly).
Hypothesis laws : ProviderLaws (RingQ (params enc)) q valid.

Let r := RingQ (params enc).
Let levelQ := Z.min (Level ptv) (Level c0).
Let noiseLevel := if IsNTT c0 then levelQ else Level c0.
Let g1 := snd (uniformSampleQ (rng s) levelQ).
Let u := fst (ternarySample g1 levelQ).
Let g2 := snd (ternarySample g1 levelQ).

Hypothesis valid_pt : validRows valid (rowsAt levelQ) ptv.

(** Validity of a row built from valid rows, samples and quotients. *)
Local Ltac ok :=
  repeat first
    [ assumption
    | apply (NTT_valid r q valid (ring_laws r q valid laws))
    | apply (InvNTT_valid r q valid (ring_laws r q valid laws))
    | apply (MForm_valid r q valid (ring_laws r q valid laws))
    | apply (Add_valid r q valid (ring_laws r q valid laws))
    | apply (Neg_valid r q valid (ring_laws r q valid laws))
    | apply (Mul_valid r q valid (ring_laws r q valid laws))
    | apply (gaussian_valid r q valid laws)
    | apply (ternary_valid r q valid laws)
    | apply (uniform_valid r q valid laws)
    | apply (modDown_valid r q valid laws)
    | match goal with |- valid _ (if ?b then _ else _) => destruct b end ].

Lemma sk_path skq :
  skInputs (params enc) s c0 c1 ptv skq buf ->
  validRows valid (rowsAt levelQ) skq ->
  wp (Encrypt (SkEncryptor enc theSecretKey) (Some thePlaintext)
        (IsCiphertext theCiphertext))
     (fun _ =>
        ciphertextDecodes r q (IsNTT c0) levelQ
          (fun i => sk_content r (IsNTT ptv) i
                      (fst (uniformSampleQ (rng s) levelQ) i)
                      (fst (gaussianSample g1 noiseLevel) i)
                      (rowAt ptv i) (rowAt skq i))
          (fun i => rowInvNTT r i (fst (uniformSampleQ (rng s) levelQ) i)))
     s.
Proof.
  intros Hin Hsk.
  assert (Hle : (rowsAt levelQ <= length (Coeffs c0))%nat)
    by apply rowsAt_min_le.
  pose proof (sk_len_max _ _ _ _ _ _ _ Hin) as Hmax.
  eapply wp_mono;
    [exact (sk_Encrypt_run enc s c0 c1 ptv skq buf Hin levelQ noiseLevel _ g1
              eq_refl eq_refl eq_refl eq_refl) |].
  intros _ s' (p0 & p1 & H0 & H1 & (F0 & _ & R0) & (F1 & _ & R1) & _).
  exists p0, p1. repeat split; auto; rewrite ?R0, ?R1 by assumption.
  - apply (decode_sk_body r q valid (ring_laws r q valid laws)); ok;
      first [apply valid_pt; assumption | apply Hsk; assumption | unfold r; lia].
  - rewrite decode_sk_mask. apply congruent_refl.
Qed.

Lemma pk_path rP pk0 pk1 pk0P pk1P bufP0 bufP1 bufP2 :
  pkInputs enc s c0 c1 ptv pk0 pk1 buf ->
  pkInputsP enc rP s pk0P pk1P bufP0 bufP1 bufP2 ->
  validRows valid (rowsAt levelQ) pk0 -> validRows valid (rowsAt levelQ) pk1 ->
  wp (Encrypt (PkEncryptor enc thePublicKey) (Some thePlaintext)
        (IsCiphertext theCiphertext))
     (fun _ =>
        ciphertextDecodes r q (IsNTT c0) levelQ
          (fun i => pk_content r (IsNTT ptv) i
                      (pk_component r rP levelQ i u
                         (fst (gaussianSample g2 levelQ))
                         (rowAt pk0 i) (rowAt pk0P 0%nat))
                      (rowAt ptv i))
          (fun i => pk_component r rP levelQ i u
                      (fst (gaussianSample (snd (gaussianSample g2 levelQ)) levelQ))
                      (rowAt pk1 i) (rowAt pk1P 0%nat)))
     s.
Proof.
  intros Hin HinP Hk0 Hk1.
  assert (Hle : (rowsAt levelQ <= length (Coeffs c0))%nat)
    by apply rowsAt_min_le.
  pose proof (pk_len_max _ _ _ _ _ _ _ _ Hin) as Hmax.
  eapply wp_mono;
    [exact (pk_Encrypt_run enc rP s c0 c1 ptv pk0 pk1 buf pk0P pk1P
              bufP0 bufP1 bufP2 Hin levelQ g1 u g2 _ _ _ _ HinP
              eq_refl eq_refl eq_refl eq_refl eq_refl eq_refl eq_refl eq_refl) |].
  intros _ s' (p0 & p1 & H0 & H1 & (F0 & _ & R0) & (F1 & _ & R1) & _).
  exists p0, p1. repeat split; auto; rewrite ?R0, ?R1 by assumption.
  - apply (decode_pk_body r q valid (ring_laws r q valid laws));
      unfold pk_component; ok;
      first [apply valid_pt; assumption | apply Hk0; assumption | unfold r; lia].
  - apply (decode_pk_mask r q valid (ring_laws r q valid laws));
      unfold pk_component; ok;
      first [apply Hk1; assumption | unfold r; lia].
Qed.

Lemma noP_path pk0 pk1 :
  pkInputs enc s c0 c1 ptv pk0 pk1 buf ->
  basisextender enc = false ->
  validRows valid (rowsAt levelQ) pk0 -> validRows valid (rowsAt levelQ) pk1 ->
  wp (Encrypt (PkEncryptor enc thePublicKey) (Some thePlaintext)
        (IsCiphertext theCiphertext))
     (fun _ =>
        ciphertextDecodes r q (IsNTT c0) levelQ
          (fun i => noP_content r (IsNTT ptv) i (u i)
                      (if IsNTT c0
                       then fst (gaussianSample (snd (gaussianSample g2 noiseLevel))
                                   noiseLevel) i
                       else fst (gaussianSample g2 noiseLevel) i)
                      (rowAt ptv i) (rowAt pk0 i))
          (fun i => noP_mask_content r i (u i)
                      (if IsNTT c0
                       then fst (gaussianSample g2 noiseLevel) i
                       else fst (gaussianSample (snd (gaussianSample g2 noiseLevel))
                                   noiseLevel) i)
                      (rowAt pk1 i)))
     s.
Proof.
  intros Hin HB Hk0 Hk1.
  assert (Hle : (rowsAt levelQ <= length (Coeffs c0))%nat)
    by apply rowsAt_min_le.
  pose proof (pk_len_max _ _ _ _ _ _ _ _ Hin) as Hmax.
  eapply wp_mono;
    [exact (pkNoP_Encrypt_run enc s c0 c1 ptv pk0 pk1 buf Hin levelQ noiseLevel
              g1 u g2 _ _ _ _ HB
              eq_refl eq_refl eq_refl eq_refl eq_refl eq_refl eq_refl eq_refl eq_refl) |].
  intros _ s' (p0 & p1 & H0 & H1 & (F0 & _ & R0) & (F1 & _ & R1) & _).
  exists p0, p1. repeat split; auto; rewrite ?R0, ?R1 by assumption.
  - apply (decode_noP_body r q valid (ring_laws r q valid laws)); ok;
      first [apply valid_pt; assumption | apply Hk0; assumption | unfold r; lia].
  - apply (decode_noP_mask r q valid (ring_laws r q valid laws)); ok;
      first [apply Hk1; assumption | unfold r; lia].
Qed.

End Paths.

(** C6. [Encrypt] of a supplied plaintext returns with both components
    carrying the flag the ciphertext had on input, and with rows that are
    in the domain of that flag: read under it, the body and the mask are,
    modulo the modulus [q i] of each row, the coefficient-domain encryption
    of the plaintext, itself read under its own flag, whatever the two
    flags are. This holds on the secret-key path, on the public-key path
    with a modulus [P], and on the one without, for every ring arithmetic
    that obeys the laws modulo [q]. *)
Theorem Encrypt_output_is_in_the_domain_of_its_flag :
  forall (PV : Provider) (q : nat -> Z) (valid : nat -> row -> Prop)
         (enc : encryptor) (s : state) (c0 c1 ptv buf : Poly),
    ProviderLaws (RingQ (params enc)) q valid ->
    let r := RingQ (params enc) in
    let levelQ := Z.min (Level ptv) (Level c0) in
    let noiseLevel := if IsNTT c0 then levelQ else Level c0 in
    let mask := fst (uniformSampleQ (rng s) levelQ) in
    let g1 := snd (uniformSampleQ (rng s) levelQ) in
    let u := fst (ternarySample g1 levelQ) in
    let g2 := snd (ternarySample g1 levelQ) in
    let first := fun level => fst (gaussianSample g2 level) in
    let second :=
      fun level => fst (gaussianSample (snd (gaussianSample g2 level)) level) in
    validRows valid (rowsAt levelQ) ptv ->
    (forall skq,
        skInputs (params enc) s c0 c1 ptv skq buf ->
        validRows valid (rowsAt levelQ) skq ->
        wp (Encrypt (SkEncryptor enc theSecretKey) (Some thePlaintext)
              (IsCiphertext theCiphertext))
           (fun _ =>
              ciphertextDecodes r q (IsNTT c0) levelQ
                (fun i => sk_content r (IsNTT ptv) i (mask i)
                            (fst (gaussianSample g1 noiseLevel) i)
                            (rowAt ptv i) (rowAt skq i))
                (fun i => rowInvNTT r i (mask i)))
           s) /\
    (forall pk0 pk1,
        pkInputs enc s c0 c1 ptv pk0 pk1 buf ->
        validRows valid (rowsAt levelQ) pk0 ->
        validRows valid (rowsAt levelQ) pk1 ->
        (forall rP pk0P pk1P bufP0 bufP1 bufP2,
            pkInputsP enc rP s pk0P pk1P bufP0 bufP1 bufP2 ->
            wp (Encrypt (PkEncryptor enc thePublicKey) (Some thePlaintext)
                  (IsCiphertext theCiphertext))
               (fun _ =>
                  ciphertextDecodes r q (IsNTT c0) levelQ
                    (fun i => pk_content r (IsNTT ptv) i
                                (pk_component r rP levelQ i u (first levelQ)
                                   (rowAt pk0 i) (rowAt pk0P 0%nat))
                                (rowAt ptv i))
                    (fun i => pk_component r rP levelQ i u (second levelQ)
                                (rowAt pk1 i) (rowAt pk1P 0%nat)))
               s) /\
        (basisextender enc = false ->
         wp (Encrypt (PkEncryptor enc thePublicKey) (Some thePlaintext)
               (IsCiphertext theCiphertext))
            (fun _ =>
               ciphertextDecodes r q (IsNTT c0) levelQ
                 (fun i => noP_content r (IsNTT ptv) i (u i)
                             (if IsNTT c0 then second noiseLevel i
                              else first noiseLevel i)
                             (rowAt ptv i) (rowAt pk0 i))
                 (fun i => noP_mask_content r i (u i)
                             (if IsNTT c0 then first noiseLevel i
                              else second noiseLevel i)
                             (rowAt pk1 i)))
            s)).
Proof.
  intros PV q valid enc s c0 c1 ptv buf laws r levelQ noiseLevel mask g1 u g2
    first second Hpt.
  split; [| intros pk0 pk1 Hin Hk0 Hk1; split].
  - intros skq Hin Hsk. exact (sk_path q valid enc s c0 c1 ptv buf laws Hpt skq Hin Hsk).
  - intros rP pk0P pk1P bufP0 bufP1 bufP2 HinP.
    exact (pk_path q valid enc s c0 c1 ptv buf laws Hpt rP pk0 pk1 pk0P pk1P
             bufP0 bufP1 bufP2 Hin HinP Hk0 Hk1).
  - intros HB.
    exact (noP_path q valid enc s c0 c1 ptv buf laws Hpt pk0 pk1 Hin HB Hk0 Hk1).
Qed.

(** Under a secret key, over the ring with word-level addition and
    negation: a coefficient-domain plaintext into an evaluation-domain
    ciphertext. *)
Lemma Encrypt_output_is_in_the_domain_of_its_flag_witness :
  let s := Toy.start Toy.paramsWord true true false [[1; 2]; [1; 2]] in
  let mask := fst (uniformSampleQ (Provider := Toy.provider) (rng s) 1) in
  let g1 := snd (uniformSampleQ (Provider := Toy.provider) (rng s) 1) in
  ProviderLaws (PV := Toy.provider) Toy.wordRingQ Toy.modulus Toy.valid /\
  validRows Toy.valid 2 (Toy.ptPoly [[1; 2]; [1; 2]] false) /\
  validRows Toy.valid 2 Toy.skPoly /\
  wp (Encrypt (SkEncryptor Toy.encWord theSecretKey) (Some thePlaintext)
        (IsCiphertext theCiphertext))
     (fun _ =>
        ciphertextDecodes Toy.wordRingQ Toy.modulus true 1
          (fun i => sk_content Toy.wordRingQ false i (mask i)
                      (fst (gaussianSample (Provider := Toy.provider) g1 1) i)
                      (rowAt (Toy.ptPoly [[1; 2]; [1; 2]] false) i)
                      (rowAt Toy.skPoly i))
          (fun i => rowInvNTT Toy.wordRingQ i (mask i)))
     s.
Proof.
  split; [exact ToyFacts.word_ProviderLaws |].
  split; [exact (ToyFacts.toy_validRows_pt false) |].
  split; [exact (proj1 ToyFacts.toy_validRows_keys) |].
  exact (proj1 (Encrypt_output_is_in_the_domain_of_its_flag Toy.provider
                  Toy.modulus Toy.valid Toy.encWord
                  (Toy.start Toy.paramsWord true true false [[1; 2]; [1; 2]])
                  (Toy.ctPoly true) (Toy.ctPoly true)
                  (Toy.ptPoly [[1; 2]; [1; 2]] false) (NewPoly 2 Toy.wordRingQ)
                  ToyFacts.word_ProviderLaws (ToyFacts.toy_validRows_pt false))
           Toy.skPoly (ToyFacts.word_skInputs true false [[1; 2]; [1; 2]])
           (proj1 ToyFacts.toy_validRows_keys)).
Defined.

End FlagDomain.

(* ===================================================================== *)
(** ** Extraction of LWE samples *)
(* ===================================================================== *)

Module lweFacts.
Import lwe.




















End lweFacts.

(* ===================================================================== *)
(** ** [Copy], field by field, and the two depths *)
(* ===================================================================== *)

Module ckksCopy.
Import ckks GoSliceFacts ckksFacts.

(** Copying into a fresh slice of [n] zero values cuts the source to [n]
    elements or pads it with zeros up to [n]. *)
Lemma copy_make_resize {A} (z : A) n (src : list A) :
  GoSlice.copy (GoSlice.make z n) src = resize n z src.
Proof.
  unfold GoSlice.copy, GoSlice.make. rewrite length_replicate, resize_spec.
  rewrite drop_replicate. destruct (Nat.le_ge_cases n (length src)).
  - rewrite Nat.min_l by assumption. f_equal. f_equal. lia.
  - rewrite Nat.min_r by assumption. rewrite !take_ge by lia. reflexivity.
Qed.

Lemma resize_id_iff {A} (z : A) n (l : list A) : resize n z l = l <-> length l = n.
Proof.
  split.
  - intros E. rewrite <- E at 1. apply length_resize.
  - intros <-. apply resize_all.
Qed.

Lemma depth_fold (sf : list (list float64)) k :
  fold_left (fun depth r => fold_left (fun d _ => S d) r depth) sf k
  = (k + length (concat sf))%nat.
Proof.
  revert k. induction sf as [|r sf IH]; intros k; cbn [fold_left concat].
  - cbn. lia.
  - rewrite IH, length_app.
    assert (E : forall (l : list float64) j, fold_left (fun d _ => S d) l j = (j + length l)%nat).
    { induction l as [|x l IHl]; intros j; cbn; [lia | rewrite IHl; lia]. }
    rewrite E. lia.
Qed.

Lemma length_concat_ge {A} (sf : list (list A)) :
  Forall (fun r => r <> []) sf -> (length sf <= length (concat sf))%nat.
Proof.
  induction 1 as [|r sf Hr _ IH]; cbn [concat length]; [lia |].
  rewrite length_app. destruct r; [congruence | cbn; lia].
Qed.

Lemma length_concat_eq {A} (sf : list (list A)) :
  Forall (fun r => r <> []) sf ->
  length (concat sf) = length sf -> Forall (fun r => length r = 1%nat) sf.
Proof.
  induction 1 as [|r sf Hr Hsf IH]; cbn [concat length]; [constructor |].
  rewrite length_app. intros E.
  pose proof (length_concat_ge sf Hsf).
  destruct r as [|x [|y r]]; [congruence | | cbn in E; lia].
  constructor; [reflexivity | apply IH; cbn in E; lia].
Qed.


(** X1. Whatever the receiver, [Copy] carries over the eight scalar fields
    of its struct literal, the residual moduli, and the scaling factors of
    the three bootstrapping steps, row by row. *)
Theorem Copy_keeps_scalars_residual_moduli_and_scaling_factors :
  forall b : BootstrappingParameters,
    (H (Copy b) = H b /\ sinType (Copy b) = sinType b /\
     MessageRatio (Copy b) = MessageRatio b /\ SinRange (Copy b) = SinRange b /\
     SinDeg (Copy b) = SinDeg b /\ SinRescal (Copy b) = SinRescal b /\
     ArcSineDeg (Copy b) = ArcSineDeg b /\ MaxN1N2Ratio (Copy b) = MaxN1N2Ratio b) /\
    residualModuli (Copy b) = residualModuli b /\
    CoeffsToSlotsModuli.ScalingFactor (coeffsToSlotsModuli (Copy b))
    = CoeffsToSlotsModuli.ScalingFactor (coeffsToSlotsModuli b) /\
    SlotsToCoeffsModuli.ScalingFactor (slotsToCoeffsModuli (Copy b))
    = SlotsToCoeffsModuli.ScalingFactor (slotsToCoeffsModuli b) /\
    SineEvalModuli.ScalingFactor (sineEvalModuli (Copy b))
    = SineEvalModuli.ScalingFactor (sineEvalModuli b).
Proof.
  intros b. split; [apply Copy_literal_fields |].
  split; [apply Copy_ResidualModuli | apply Copy_ScalingFactors].
Qed.

(** X2. The three lists of moduli of the copy are the receiver's cut, or
    padded with zeros, to a number of scaling-factor rows: that of
    CoeffsToSlots for the CoeffsToSlots and for the SineEval moduli, that of
    SlotsToCoeffs for the SlotsToCoeffs moduli. Each list is therefore
    copied whole exactly when it has that length. *)
Theorem Copy_cuts_or_pads_the_moduli :
  forall b : BootstrappingParameters,
    let ctsQ := CoeffsToSlotsModuli.Qi (coeffsToSlotsModuli b) in
    let sinQ := SineEvalModuli.Qi (sineEvalModuli b) in
    let stcQ := SlotsToCoeffsModuli.Qi (slotsToCoeffsModuli b) in
    (CoeffsToSlotsModuli.Qi (coeffsToSlotsModuli (Copy b))
     = resize (CtSDepth b true) 0 ctsQ /\
     SineEvalModuli.Qi (sineEvalModuli (Copy b))
     = resize (CtSDepth b true) 0 sinQ /\
     SlotsToCoeffsModuli.Qi (slotsToCoeffsModuli (Copy b))
     = resize (StCDepth b true) 0 stcQ) /\
    (CoeffsToSlotsModuli.Qi (coeffsToSlotsModuli (Copy b)) = ctsQ
     <-> length ctsQ = CtSDepth b true) /\
    (SineEvalModuli.Qi (sineEvalModuli (Copy b)) = sinQ
     <-> length sinQ = CtSDepth b true) /\
    (SlotsToCoeffsModuli.Qi (slotsToCoeffsModuli (Copy b)) = stcQ
     <-> length stcQ = StCDepth b true).
Proof.
  intros b ctsQ sinQ stcQ.
  assert (E : CoeffsToSlotsModuli.Qi (coeffsToSlotsModuli (Copy b))
              = resize (CtSDepth b true) 0 ctsQ /\
              SineEvalModuli.Qi (sineEvalModuli (Copy b))
              = resize (CtSDepth b true) 0 sinQ /\
              SlotsToCoeffsModuli.Qi (slotsToCoeffsModuli (Copy b))
              = resize (StCDepth b true) 0 stcQ).
  { unfold Copy.
    cbn [coeffsToSlotsModuli sineEvalModuli slotsToCoeffsModuli
         CoeffsToSlotsModuli.Qi SineEvalModuli.Qi SlotsToCoeffsModuli.Qi].
    rewrite !copy_make_resize. auto. }
  split; [exact E |]. destruct E as (-> & -> & ->).
  split; [| split]; apply resize_id_iff.
Qed.

(** X3. [b.Copy()] is structurally equal to [b] exactly when the four
    fields the struct literal omits are zero in [b], [b] has no key-switch
    moduli, and each list of moduli has the length [Copy] makes for it. *)
Theorem Copy_equal_iff :
  forall b : BootstrappingParameters,
    Copy b = b <->
    LogN b = 0 /\ LogSlots b = 0 /\ Scale b = 0 /\ Sigma b = 0 /\
    keySwitchModuli b = [] /\
    length (CoeffsToSlotsModuli.Qi (coeffsToSlotsModuli b)) = CtSDepth b true /\
    length (SineEvalModuli.Qi (sineEvalModuli b)) = CtSDepth b true /\
    length (SlotsToCoeffsModuli.Qi (slotsToCoeffsModuli b)) = StCDepth b true.
Proof.
  intros b.
  destruct (Copy_cuts_or_pads_the_moduli b) as (_ & Icts & Isin & Istc).
  split.
  - intros E.
    pose proof (f_equal LogN E) as E1. pose proof (f_equal LogSlots E) as E2.
    pose proof (f_equal Scale E) as E3. pose proof (f_equal Sigma E) as E4.
    pose proof (f_equal keySwitchModuli E) as E5.
    repeat split; auto.
    + apply Icts. now rewrite E.
    + apply Isin. now rewrite E.
    + apply Istc. now rewrite E.
  - intros (E1 & E2 & E3 & E4 & E5 & Lcts & Lsin & Lstc).
    apply Icts in Lcts. apply Isin in Lsin. apply Istc in Lstc.
    pose proof (Copy_ResidualModuli b) as Er.
    destruct (Copy_ScalingFactors b) as (Sc & Ss & Se).
    destruct b as [rm km [stcQ stcS] [sinQ sinS] [ctsQ ctsS]
                   logN logSlots scale sigma h st mr sr sd sres asd n12].
    cbn [LogN LogSlots Scale Sigma keySwitchModuli] in E1, E2, E3, E4, E5.
    subst logN logSlots scale sigma km.
    unfold Copy in *.
    cbn [coeffsToSlotsModuli sineEvalModuli slotsToCoeffsModuli residualModuli
         CoeffsToSlotsModuli.Qi SineEvalModuli.Qi SlotsToCoeffsModuli.Qi
         CoeffsToSlotsModuli.ScalingFactor SlotsToCoeffsModuli.ScalingFactor
         SineEvalModuli.ScalingFactor H sinType MessageRatio SinRange SinDeg
         SinRescal ArcSineDeg MaxN1N2Ratio] in *.
    rewrite Lcts, Lsin, Lstc, Er, Sc, Ss. reflexivity.
Qed.

(** A receiver that [Copy] reproduces. *)
Lemma Copy_equal_iff_witness :
  let b := Copy (DefaultBootstrapParams0 0) in
  (Copy b = b <->
   LogN b = 0 /\ LogSlots b = 0 /\ Scale b = 0 /\ Sigma b = 0 /\
   keySwitchModuli b = [] /\
   length (CoeffsToSlotsModuli.Qi (coeffsToSlotsModuli b)) = CtSDepth b true /\
   length (SineEvalModuli.Qi (sineEvalModuli b)) = CtSDepth b true /\
   length (SlotsToCoeffsModuli.Qi (slotsToCoeffsModuli b)) = StCDepth b true) /\
  Copy b = b.
Proof.
  split; [apply (Copy_equal_iff (Copy (DefaultBootstrapParams0 0))) |].
  apply (Copy_equal_iff (Copy (DefaultBootstrapParams0 0))). repeat split.
Defined.

(** X4. A copy of a copy equals the copy. *)
Theorem Copy_idempotent :
  forall b : BootstrappingParameters, Copy (Copy b) = Copy b.
Proof.
  intros b. apply Copy_equal_iff.
  destruct (Copy_ScalingFactors b) as (Sc & Ss & _).
  unfold CtSDepth, StCDepth. rewrite Sc, Ss.
  unfold Copy.
  cbn [coeffsToSlotsModuli sineEvalModuli slotsToCoeffsModuli
       CoeffsToSlotsModuli.Qi SineEvalModuli.Qi SlotsToCoeffsModuli.Qi
       LogN LogSlots Scale Sigma keySwitchModuli].
  rewrite !length_copy, !length_make. repeat split.
Qed.

(** X5. The factorisation depth ([actual = false]) is the total number of
    scaling factors, and [Copy] changes neither depth. When no row of
    scaling factors is empty, the factorisation depth is at least the number
    of moduli consumed ([actual = true]), with equality exactly when every
    row holds a single factor. *)
Theorem depths_count_scaling_factors :
  forall b : BootstrappingParameters,
    let cts := CoeffsToSlotsModuli.ScalingFactor (coeffsToSlotsModuli b) in
    let stc := SlotsToCoeffsModuli.ScalingFactor (slotsToCoeffsModuli b) in
    CtSDepth b false = length (concat cts) /\
    StCDepth b false = length (concat stc) /\
    (forall actual, CtSDepth (Copy b) actual = CtSDepth b actual /\
                    StCDepth (Copy b) actual = StCDepth b actual) /\
    (Forall (fun r => r <> []) cts ->
     (CtSDepth b true <= CtSDepth b false)%nat /\
     (CtSDepth b false = CtSDepth b true <->
      Forall (fun r => length r = 1%nat) cts)) /\
    (Forall (fun r => r <> []) stc ->
     (StCDepth b true <= StCDepth b false)%nat /\
     (StCDepth b false = StCDepth b true <->
      Forall (fun r => length r = 1%nat) stc)).
Proof.
  intros b cts stc.
  assert (Ec : CtSDepth b false = length (concat cts))
    by (unfold CtSDepth; now rewrite depth_fold).
  assert (Es : StCDepth b false = length (concat stc))
    by (unfold StCDepth; now rewrite depth_fold).
  assert (singles : forall sf : list (list float64),
             Forall (fun r => length r = 1%nat) sf -> length (concat sf) = length sf).
  { induction 1 as [|r sf Hr _ IH]; cbn [concat length]; [reflexivity |].
    rewrite length_app. lia. }
  split; [exact Ec |]. split; [exact Es |]. split; [| split].
  - destruct (Copy_ScalingFactors b) as (Sc & Ss & _).
    intros actual. unfold CtSDepth, StCDepth. now rewrite Sc, Ss.
  - intros Hne. rewrite Ec. unfold CtSDepth. split.
    + now apply length_concat_ge.
    + split; [now apply length_concat_eq | apply singles].
  - intros Hne. rewrite Es. unfold StCDepth. split.
    + now apply length_concat_ge.
    + split; [now apply length_concat_eq | apply singles].
Qed.

(** The first default set: two SlotsToCoeffs moduli carry three scaling
    factors. *)
Lemma depths_count_scaling_factors_witness :
  let b := DefaultBootstrapParams0 0 in
  Forall (fun r : list float64 => r <> [])
         (SlotsToCoeffsModuli.ScalingFactor (slotsToCoeffsModuli b)) /\
  (StCDepth b true <= StCDepth b false)%nat /\
  StCDepth b true = 2%nat /\ StCDepth b false = 3%nat.
Proof.
  assert (Hne : Forall (fun r : list float64 => r <> [])
                  (SlotsToCoeffsModuli.ScalingFactor
                     (slotsToCoeffsModuli (DefaultBootstrapParams0 0))))
    by (repeat constructor; discriminate).
  split; [exact Hne |].
  split; [| split; reflexivity].
  exact (proj1 (proj2 (proj2 (proj2 (proj2
           (depths_count_scaling_factors (DefaultBootstrapParams0 0))))) Hne)).
Defined.

End ckksCopy.

(* ===================================================================== *)
(** ** What the encryptor writes *)
(* ===================================================================== *)

Module FootprintFacts.
Import rlwe Spec MonadFacts Footprint.

Section Primitives.
Context {PV : Provider}.

Lemma writesOnly_ret {A} W (x : A) : writesOnly W (ret x).
Proof. intros s y s' [= _ <-] l _. reflexivity. Qed.

Lemma writesOnly_fail {A} W e : writesOnly W (@fail _ A e).
Proof. intros s y s' E. discriminate E. Qed.

Lemma writesOnly_bind {A B} W (m : M A) (k : A -> M B) :
  writesOnly W m -> (forall x, writesOnly W (k x)) -> writesOnly W (bind m k).
Proof.
  intros Hm Hk s y s' E l Hl.
  apply bind_Ok in E as (x & s1 & E1 & E2).
  rewrite (Hk x s1 y s' E2 l Hl). exact (Hm s x s1 E1 l Hl).
Qed.

(** An element read off a slice is known to the continuation. *)
Lemma writesOnly_bind_index {A B} W (v : list A) i (k : A -> M B) :
  (forall x, v !! i = Some x -> writesOnly W (k x)) ->
  writesOnly W (bind (index v i) k).
Proof.
  intros Hk s y s' E. unfold bind, index in E.
  destruct (v !! i) as [x|] eqn:Ei; [| discriminate E].
  exact (Hk x eq_refl s y s' E).
Qed.

Lemma writesOnly_load W l : writesOnly W (load l).
Proof.
  intros s y s' E. unfold load in E.
  destruct (mem s l); [| discriminate E]. now injection E as _ <-.
Qed.

Lemma writesOnly_notNil W l : writesOnly W (notNil l).
Proof. intros s y s' [= _ <-] l' _. reflexivity. Qed.

Lemma writesOnly_index {A} W (v : list A) i : writesOnly W (index v i).
Proof.
  unfold index. destruct (v !! i); [apply writesOnly_ret | apply writesOnly_fail].
Qed.

Lemma writesOnly_liftR {A} W (r : result A) : writesOnly W (liftR r).
Proof.
  intros s y s' E. unfold liftR in E. destruct r; [| discriminate E].
  now injection E as _ <-.
Qed.

Lemma writesOnly_draw W f level : writesOnly W (draw f level).
Proof.
  intros s y s' E. unfold draw in E. destruct (f (rng s) level).
  now injection E as _ <-.
Qed.

Lemma writesOnly_store (W : loc -> Prop) l p : W l -> writesOnly W (store l p).
Proof.
  intros Hl s y s' [= _ <-] l' Hl'. cbn [mem]. unfold update.
  destruct (loc_eqb l l') eqn:E; [| reflexivity].
  apply Tail.loc_eqb_eq in E. now subst l'.
Qed.

Lemma writesOnly_weaken {A} (W W' : loc -> Prop) (m : M A) :
  (forall l, W l -> W' l) -> writesOnly W m -> writesOnly W' m.
Proof. intros Hsub Hm s y s' E l Hl. apply (Hm s y s' E). auto. Qed.

End Primitives.

(** Decomposes a goal [writesOnly W m] along the structure of [m]; what is
    left are the goals [W l], one for each ring element written. *)
Ltac frames :=
  repeat first
    [ apply writesOnly_ret
    | apply writesOnly_fail
    | apply writesOnly_load
    | apply writesOnly_notNil
    | apply writesOnly_draw
    | apply writesOnly_index
    | apply writesOnly_liftR
    | apply writesOnly_store
    | apply writesOnly_bind_index; intros ? ?
    | apply writesOnly_bind; [| intros ?]
    | match goal with
      | |- writesOnly _ (if ?b then _ else _) => destruct b
      | |- writesOnly _ (match ?x with _ => _ end) => destruct x
      | |- writesOnly _ (when ?b _) => destruct b; cbn [when]
      end ].

Section Methods.
Context {PV : Provider}.
Variable W : loc -> Prop.

Lemma writesOnly_unary r f level p1 p2 : W p2 -> writesOnly W (unary r f level p1 p2).
Proof. intros H2. unfold unary. frames. exact H2. Qed.

Lemma writesOnly_binary r f level p1 p2 p3 :
  W p3 -> writesOnly W (binary r f level p1 p2 p3).
Proof. intros H3. unfold binary. frames. exact H3. Qed.

Lemma writesOnly_ternary r f level p1 p2 p3 :
  W p3 -> writesOnly W (ternary r f level p1 p2 p3).
Proof. intros H3. unfold ternary. frames. exact H3. Qed.

Lemma writesOnly_ReadLvl f r level pol : W pol -> writesOnly W (ReadLvl f r level pol).
Proof. intros H. unfold ReadLvl. frames. exact H. Qed.

Lemma writesOnly_ReadAndAddLvl f r level pol :
  W pol -> writesOnly W (ReadAndAddLvl f r level pol).
Proof. intros H. unfold ReadAndAddLvl. frames. exact H. Qed.

Lemma writesOnly_Extend prm a level b :
  W b -> writesOnly W (ExtendBasisSmallNormAndCenter prm a level b).
Proof. intros H. unfold ExtendBasisSmallNormAndCenter. frames. exact H. Qed.

Lemma writesOnly_ModDown prm levelQ levelP a b d :
  W d -> writesOnly W (ModDownQPtoQ prm levelQ levelP a b d).
Proof. intros H. unfold ModDownQPtoQ. frames. exact H. Qed.

Lemma writesOnly_CopyValues p0 p1 : W p1 -> writesOnly W (CopyValues p0 p1).
Proof. intros H. unfold CopyValues. frames. exact H. Qed.

Lemma writesOnly_truncate level p : W p -> writesOnly W (truncate level p).
Proof. intros H. unfold truncate. frames. exact H. Qed.

Lemma writesOnly_flagOf l : writesOnly W (flagOf l).
Proof. unfold flagOf. frames. Qed.

Lemma writesOnly_finish level a b : W a -> W b -> writesOnly W (finish level a b).
Proof.
  intros Ha Hb. unfold finish, copyFlag.
  frames; first [ apply writesOnly_flagOf | now apply writesOnly_truncate | assumption ].
Qed.

Lemma writesOnly_Plaintext_Level pt : writesOnly W (Plaintext_Level pt).
Proof. unfold Plaintext_Level. frames. Qed.

Lemma writesOnly_Ciphertext_Level ct : writesOnly W (Ciphertext_Level ct).
Proof. unfold Ciphertext_Level. frames. Qed.

Lemma writesOnly_QP_unary prm (op : Ring -> Z -> loc -> loc -> M unit)
    levelQ levelP p1 p2 :
  (forall r l a b, W b -> writesOnly W (op r l a b)) ->
  W (Q p2) -> W (P p2) ->
  writesOnly W (QP_unary prm op levelQ levelP p1 p2).
Proof. intros H HQ HP. unfold QP_unary. frames; now apply H. Qed.

Lemma writesOnly_QP_binary prm (op : Ring -> Z -> loc -> loc -> loc -> M unit)
    levelQ levelP p1 p2 p3 :
  (forall r l a b c, W c -> writesOnly W (op r l a b c)) ->
  W (Q p3) -> W (P p3) ->
  writesOnly W (QP_binary prm op levelQ levelP p1 p2 p3).
Proof. intros H HQ HP. unfold QP_binary. frames; now apply H. Qed.

Lemma writesOnly_forEach l body :
  (forall i, writesOnly W (body i)) -> writesOnly W (forEach l body).
Proof.
  intros H. induction l as [|i l IH]; cbn [forEach]; frames; auto.
Qed.

End Methods.


(** Closes the goals [W l] left by [frames]. *)
Ltac footprint :=
  unfold encryptFootprint, rgswFootprint, component, rgsw_Value in *;
  cbn [Q P fst snd] in *;
  first [ assumption | solve [intuition eauto 10] ].

(** The methods whose body starts with a case analysis. *)
Ltac frames_methods :=
  first [ apply writesOnly_Plaintext_Level
        | apply writesOnly_Extend; footprint
        | apply writesOnly_ModDown; footprint ].

Ltac framed := frames; first [ footprint | frames_methods ].

Section Routines.
Context {PV : Provider}.

Lemma writesOnly_sk_encryptRLWE enc sk pt el :
  writesOnly (encryptFootprint (SkEncryptor enc sk) el) (sk_encryptRLWE enc sk pt el).
Proof.
  unfold sk_encryptRLWE, gaussianSampler_ReadLvl, gaussianSampler_ReadAndAddLvl,
    NTTLvl, InvNTTLvl, NegLvl, AddLvl, MulCoeffsMontgomeryLvl.
  cbv zeta. framed.
Qed.

Lemma writesOnly_pk_encryptNoPRLWE enc pk pt el :
  writesOnly (encryptFootprint (PkEncryptor enc pk) el)
             (pk_encryptNoPRLWE enc pk pt el).
Proof.
  unfold pk_encryptNoPRLWE, gaussianSampler_ReadLvl, gaussianSampler_ReadAndAddLvl,
    ternarySampler_ReadLvl, NTTLvl, InvNTTLvl, MFormLvl, AddLvl,
    MulCoeffsMontgomeryLvl.
  cbv zeta. framed.
Qed.

Lemma writesOnly_pk_encryptRLWE enc pk pt el :
  basisextender enc = true ->
  writesOnly (encryptFootprint (PkEncryptor enc pk) el) (pk_encryptRLWE enc pk pt el).
Proof.
  intros HB.
  unfold pk_encryptRLWE, gaussianSampler_ReadLvl, ternarySampler_ReadLvl,
    QP_NTTLvl, QP_InvNTTLvl, QP_MFormLvl, QP_AddLvl, QP_MulCoeffsMontgomeryLvl,
    NTTLvl, InvNTTLvl, MFormLvl, AddLvl, MulCoeffsMontgomeryLvl.
  cbv zeta. framed.
Qed.

Lemma writesOnly_uniformSamplerP W enc level pol :
  W pol -> writesOnly W (uniformSamplerP_ReadLvl enc level pol).
Proof.
  intros H. unfold uniformSamplerP_ReadLvl. frames. exact H.
Qed.

(** [encryptZeroSymetricQP] writes the two ring elements of its target and,
    when the noise is added in the coefficient domain, [poolQP]. *)
Lemma writesOnly_encryptZeroSymetricQP (W : loc -> Prop)
    enc levelQ levelP sk sample mont ntt ct :
  W (Q (fst ct)) -> W (P (fst ct)) -> W (Q (snd ct)) -> W (P (snd ct)) ->
  (ntt = false -> W PoolQP_Q /\ W PoolQP_P) ->
  writesOnly W (encryptZeroSymetricQP enc levelQ levelP sk sample mont ntt ct).
Proof.
  intros H0Q H0P H1Q H1P Hpool.
  unfold encryptZeroSymetricQP, gaussianSampler_ReadLvl, uniformSamplerQ_ReadLvl,
    QP_NTTLvl, QP_InvNTTLvl, QP_MFormLvl, QP_AddLvl,
    QP_MulCoeffsMontgomeryAndSubLvl, NTTLvl, InvNTTLvl, MFormLvl, AddLvl,
    MulCoeffsMontgomeryAndSubLvl.
  cbv zeta.
  destruct ntt; [| destruct (Hpool eq_refl)]; cbn [negb when Q P];
    frames;
    first [ assumption
          | apply writesOnly_uniformSamplerP; assumption
          | apply writesOnly_Extend; assumption ].
Qed.

Lemma writesOnly_sk_encryptRGSW enc sk pt :
  writesOnly rgswFootprint (sk_encryptRGSW enc sk pt).
Proof.
  unfold sk_encryptRGSW, rgsw_LevelQ, rgsw_LevelP, forRange, MFormLvl, NTTLvl.
  cbv zeta.
  frames;
    first [ apply writesOnly_forEach; intros j; apply writesOnly_forEach; intros i;
            apply writesOnly_bind; [| intros _];
            apply writesOnly_encryptZeroSymetricQP;
            first [ discriminate | footprint ]
          | footprint
          | frames_methods
          | intros s y s' [= _ <-] l Hl; cbn [mem];
            destruct l; try reflexivity; exfalso; apply Hl; footprint ].
Qed.

End Routines.

(** A run whose observation is a pair of components did return. *)
Lemma observe_Ok (r : result (unit * state (PV := Toy.provider))) v :
  Toy.observe r = Ok v -> exists s', r = Ok (tt, s').
Proof.
  destruct r as [[[] s'] | p]; [eauto | discriminate].
Qed.

(** X6. A call of [Encrypt] on an RLWE ciphertext that returns has written
    nothing but the two components of that ciphertext and the encryptor's
    own buffers: every other ring element of the heap (the keys, the
    plaintext, any other ciphertext) is as it was, for every encryptor,
    plaintext, ciphertext and heap. *)
Theorem Encrypt_writes_only_the_ciphertext_and_the_buffers :
  forall (PV : Provider) (e : Encryptor) (pt : option Plaintext)
         (el : Ciphertext) (s s' : state) (l : loc),
    Encrypt e pt (IsCiphertext el) s = Ok (tt, s') ->
    ~ encryptFootprint e el l ->
    mem s' l = mem s l.
Proof.
  intros PV e pt el s s' l H. revert l.
  enough (F : writesOnly (encryptFootprint e el) (Encrypt e pt (IsCiphertext el)))
    by exact (F s tt s' H).
  clear H. destruct e as [enc pk | enc sk]; cbn [Encrypt].
  - unfold pk_Encrypt, uniformSamplerQ_ReadLvl.
    destruct (basisextender enc) eqn:HB.
    + framed.
    + framed.
  - unfold sk_Encrypt, uniformSamplerQ_ReadLvl.
    framed.
Qed.

(** A public-key run with a modulus [P] on the small provider: it returns,
    and the plaintext and the keys are as they were. *)
Lemma Encrypt_writes_only_the_ciphertext_and_the_buffers_witness :
  let s := Toy.start Toy.paramsP true true false [[1; 2]; [1; 2]] in
  let e := PkEncryptor Toy.encP thePublicKey in
  exists s' : state,
    Encrypt (PV := Toy.provider) e (Some thePlaintext)
      (IsCiphertext theCiphertext) s = Ok (tt, s') /\
    mem s' PtValue = mem s PtValue /\
    mem s' (PkQ 0) = mem s (PkQ 0) /\ mem s' (PkP 1) = mem s (PkP 1) /\
    mem s' SkQ = mem s SkQ.
Proof.
  intros s e.
  destruct (Rules.wp_Ok _ _ _
              (Levels.Encrypt_run_level e s (Toy.ctPoly true) (Toy.ctPoly true)
                 (Toy.ptPoly [[1; 2]; [1; 2]] false)
                 (Levels.toy_wellFormedCall_pk true false [[1; 2]; [1; 2]]
                    (le_S _ _ (le_n 1)))))
    as ([] & s' & E & _).
  exists s'. split; [exact E |].
  repeat split;
    apply (Encrypt_writes_only_the_ciphertext_and_the_buffers Toy.provider e
             (Some thePlaintext) theCiphertext s s' _ E);
    unfold encryptFootprint, component;
    intros [[H | H] | [H | [_ [H | [H | H]]]]]; discriminate H.
Defined.

(** X7. A secret-key [Encrypt] into an RGSW ciphertext that returns has
    written nothing but the entries of the RGSW ciphertext and the [Q] part
    of the encryptor's [poolQP]. *)
Theorem Encrypt_RGSW_writes_only_the_gadget_and_the_pool :
  forall (PV : Provider) (enc : encryptor) (sk : SecretKey)
         (pt : option Plaintext) (s s' : state) (l : loc),
    Encrypt (SkEncryptor enc sk) pt IsRgswCiphertext s = Ok (tt, s') ->
    ~ rgswFootprint l ->
    mem s' l = mem s l.
Proof.
  intros PV enc sk pt s s' l H. revert l.
  exact (writesOnly_sk_encryptRGSW enc sk pt s tt s' H).
Qed.

(** A run on the small provider, into a 2-by-1 RGSW ciphertext: it returns,
    and the secret key, the plaintext and the RLWE ciphertext of the heap
    are as they were. *)
Lemma Encrypt_RGSW_writes_only_the_gadget_and_the_pool_witness :
  let s := Toy.start Toy.paramsP true true true [[1; 2]; [1; 2]] in
  exists s' : state,
    Encrypt (PV := Toy.provider) (SkEncryptor Toy.encP theSecretKey)
      (Some thePlaintext) IsRgswCiphertext s = Ok (tt, s') /\
    mem s' SkQ = mem s SkQ /\ mem s' SkP = mem s SkP /\
    mem s' PtValue = mem s PtValue /\ mem s' (CtValue 0) = mem s (CtValue 0).
Proof.
  intros s.
  destruct (observe_Ok _ _ Dispatch.sk_Encrypt_RGSW_runs) as (s' & E).
  exists s'. split; [exact E |].
  repeat split;
    apply (Encrypt_RGSW_writes_only_the_gadget_and_the_pool Toy.provider Toy.encP
             theSecretKey (Some thePlaintext) s s' _ E);
    unfold rgswFootprint; intros [(k & i & j & c & [H | H]) | H]; discriminate H.
Defined.

(** X8. A secret-key [EncryptFromCRP] that returns has written nothing but
    the two components of the ciphertext and the encryptor's first buffer:
    the common reference polynomial, the key and the plaintext are as they
    were. *)
Theorem EncryptFromCRP_writes_only_the_ciphertext_and_the_buffer :
  forall (PV : Provider) (enc : encryptor) (sk : SecretKey)
         (pt : option Plaintext) (crp : loc) (el : Ciphertext)
         (s s' : state) (l : loc),
    EncryptFromCRP (SkEncryptor enc sk) pt crp el s = Ok (tt, s') ->
    ~ encryptFootprint (SkEncryptor enc sk) el l ->
    mem s' l = mem s l.
Proof.
  intros PV enc sk pt crp el s s' l H. revert l.
  enough (F : writesOnly (encryptFootprint (SkEncryptor enc sk) el)
                (EncryptFromCRP (SkEncryptor enc sk) pt crp el))
    by exact (F s tt s' H).
  clear H. cbn [EncryptFromCRP]. unfold sk_EncryptFromCRP.
  framed.
Qed.

(** A run on the small provider: it returns, and the reference polynomial,
    the secret key and the plaintext are as they were. *)
Lemma EncryptFromCRP_writes_only_the_ciphertext_and_the_buffer_witness :
  let s := Toy.start Toy.paramsP true true true [[1; 2]; [1; 2]] in
  exists s' : state,
    EncryptFromCRP (PV := Toy.provider) (SkEncryptor Toy.encP theSecretKey)
      (Some thePlaintext) CrpValue theCiphertext s = Ok (tt, s') /\
    mem s' CrpValue = mem s CrpValue /\ mem s' SkQ = mem s SkQ /\
    mem s' PtValue = mem s PtValue.
Proof.
  intros s.
  destruct (observe_Ok _ _ Dispatch.sk_EncryptFromCRP_runs) as (s' & E).
  exists s'. split; [exact E |].
  repeat split;
    apply (EncryptFromCRP_writes_only_the_ciphertext_and_the_buffer Toy.provider
             Toy.encP theSecretKey (Some thePlaintext) CrpValue theCiphertext
             s s' _ E);
    unfold encryptFootprint, component;
    intros [[H | H] | [H | []]]; discriminate H.
Defined.

End FootprintFacts.

(* ===================================================================== *)
(** ** Building an encryptor and using it; malformed targets *)
(* ===================================================================== *)

Module ConstructionFacts.
Import rlwe Spec MonadFacts Rules Construction.
Local Open Scope go_scope.

Section Facts.
Context {PV : Provider}.

Lemma length_NewPoly n r : length (Coeffs (NewPoly n r)) = ModulusCount r.
Proof. unfold NewPoly. cbn [Coeffs]. apply length_replicate. Qed.

Lemma setKey_sk enc s skq :
  holds s SkQ skq -> degreeIs (params enc) skq ->
  setKey enc (IsSecretKey theSecretKey) s = Ok (SkEncryptor enc theSecretKey, s).
Proof.
  intros H (r0 & H0 & D). unfold setKey, bind, theSecretKey.
  cbn [Q sk_Value].
  rewrite (Levels.Degree_run _ _ _ _ H H0), D, Z.eqb_refl. reflexivity.
Qed.

Lemma setKey_pk enc s pk0 pk1 :
  holds s (PkQ 0) pk0 -> degreeIs (params enc) pk0 ->
  holds s (PkQ 1) pk1 -> degreeIs (params enc) pk1 ->
  setKey enc (IsPublicKey thePublicKey) s = Ok (PkEncryptor enc thePublicKey, s).
Proof.
  intros H0 (r0 & R0 & D0) H1 (r1 & R1 & D1).
  unfold setKey, bind, thePublicKey. cbn [Q pk_Value fst snd].
  rewrite (Levels.Degree_run _ _ _ _ H0 R0), D0, Z.eqb_refl. cbn [negb].
  rewrite (Levels.Degree_run _ _ _ _ H1 R1), D1, Z.eqb_refl. reflexivity.
Qed.

End Facts.

(** X10. An encryptor built by [NewEncryptor] from a key that is complete
    and of the parameters' ring degree encrypts: for a secret or a public
    key, with or without a modulus [P], [NewEncryptor] followed by [Encrypt]
    of a supplied plaintext returns, and leaves the ciphertext at the lower
    of the two levels. The buffers [NewEncryptor] allocates are all that
    [Encrypt] needs besides the key, the plaintext and the ciphertext. *)
Theorem NewEncryptor_then_Encrypt_returns :
  forall (PV : Provider) (prm : Parameters) (key : keyArg) (s : state)
         (c0 c1 ptv : Poly),
    keyInPlace prm s key ->
    targetInPlace prm s c0 c1 ptv ->
    wp (e <- NewEncryptor prm key ;;
        Encrypt e (Some thePlaintext) (IsCiphertext theCiphertext))
       (fun _ => ciphertextAt (Z.min (Level ptv) (Level c0))) s.
Proof.
  intros PV prm key s c0 c1 ptv Hkey (H0 & H1 & Hp & L1 & [L0 Lmax] & Lp).
  set (s1 := {| mem := newEncryptorBuffers prm (mem s); rng := rng s |}).
  assert (Hs1 : forall l p, holds s l p ->
                  match l with
                  | PoolQ _ | PoolP _ | PoolQP_Q | PoolQP_P => True
                  | _ => holds s1 l p
                  end).
  { intros l p H. destruct l; try exact I; exact H. }
  apply wp_bind. unfold wp at 1, NewEncryptor, bind. fold s1.
  destruct key as [pk | sk |]; cbn [keyInPlace] in Hkey; [| | destruct Hkey].
  - destruct Hkey as (-> & (pk0 & pk1 & [K0 M0] & D0 & [K1 M1] & D1) & HP).
    rewrite (setKey_pk (newEncryptor prm) s1 pk0 pk1
               (Hs1 _ _ K0) D0 (Hs1 _ _ K1) D1).
    apply (Levels.Encrypt_run_level _ _ c0 c1 ptv). split; [reflexivity |].
    exists pk0, pk1, (NewPoly (N prm) (RingQ prm)). split.
    + constructor; cbn [params newEncryptor]; rewrite ?length_NewPoly;
        first [ exact (Hs1 _ _ H0) | exact (Hs1 _ _ H1) | exact (Hs1 _ _ Hp)
              | exact (Hs1 _ _ K0) | exact (Hs1 _ _ K1)
              | reflexivity | assumption | lia ].
    + assert (HB : basisextender (newEncryptor prm) = negb (PCount prm =? 0)%nat)
        by reflexivity.
      destruct (Nat.eqb_spec (PCount prm) 0) as [Hz | Hne];
        [left; exact HB |].
      destruct HP as [Hz | (rP & pk0P & pk1P & HR & [K0P M0P] & [K1P M1P])];
        [contradiction |].
      right. exists rP, pk0P, pk1P,
        (NewPoly (N prm) rP), (NewPoly (N prm) rP), (NewPoly (N prm) rP).
      assert (Hc : PCount prm = ModulusCount rP) by (unfold PCount; now rewrite HR).
      assert (Hb : (PCount prm =? 0)%nat = false) by now apply Nat.eqb_neq.
      cbn [negb] in HB.
      constructor; cbn [params newEncryptor];
        rewrite ?length_NewPoly;
        first [ exact HR | exact (Hs1 _ _ K0P) | exact (Hs1 _ _ K1P)
              | exact HB
              | unfold holds, s1; cbn [mem newEncryptorBuffers];
                rewrite HR, Hb; reflexivity
              | assumption | lia ].
  - destruct Hkey as (-> & skq & [K M] & D).
    rewrite (setKey_sk (newEncryptor prm) s1 skq (Hs1 _ _ K) D).
    apply (Levels.Encrypt_run_level _ _ c0 c1 ptv). split; [reflexivity |].
    exists skq, (NewPoly (N prm) (RingQ prm)).
    constructor; rewrite ?length_NewPoly;
      first [ exact (Hs1 _ _ H0) | exact (Hs1 _ _ H1) | exact (Hs1 _ _ Hp)
            | exact (Hs1 _ _ K) | reflexivity | assumption | lia ].
Qed.

Lemma toy_keyInPlace_pk ctNTT ptNTT ptRows :
  keyInPlace (PV := Toy.provider) Toy.paramsP
    (unbuilt ctNTT ptNTT ptRows)
    (IsPublicKey thePublicKey).
Proof.
  split; [reflexivity |]. split.
  - exists Toy.pk0Poly, Toy.pk1Poly.
    repeat split; try (cbn; lia); eexists; split; reflexivity.
  - right. exists Toy.ringP, Toy.pk0PolyP, Toy.pk1PolyP.
    repeat split; cbn; lia.
Qed.

Lemma toy_targetInPlace ctNTT ptNTT ptRows :
  (1 <= length ptRows)%nat ->
  targetInPlace (PV := Toy.provider) Toy.paramsP
    (unbuilt ctNTT ptNTT ptRows)
    (Toy.ctPoly ctNTT) (Toy.ctPoly ctNTT) (Toy.ptPoly ptRows ptNTT).
Proof. intros L. repeat split; try exact L; cbn; lia. Qed.

(** From a heap without buffers, on the small provider: a public key with
    a modulus [P], a coefficient-domain plaintext of one row and an
    evaluation-domain ciphertext of two. *)
Lemma NewEncryptor_then_Encrypt_returns_witness :
  let s := unbuilt true false [[1; 2]] in
  keyInPlace (PV := Toy.provider) Toy.paramsP s (IsPublicKey thePublicKey) /\
  targetInPlace Toy.paramsP s (Toy.ctPoly true) (Toy.ctPoly true)
    (Toy.ptPoly [[1; 2]] false) /\
  wp (e <- NewEncryptor Toy.paramsP (IsPublicKey thePublicKey) ;;
      Encrypt e (Some thePlaintext) (IsCiphertext theCiphertext))
     (fun _ => ciphertextAt 0) s.
Proof.
  split; [apply toy_keyInPlace_pk |].
  split; [apply toy_targetInPlace; exact (le_n 1) |].
  exact (NewEncryptor_then_Encrypt_returns Toy.provider Toy.paramsP
           (IsPublicKey thePublicKey) _ (Toy.ctPoly true) (Toy.ctPoly true)
           (Toy.ptPoly [[1; 2]] false)
           (toy_keyInPlace_pk true false [[1; 2]])
           (toy_targetInPlace true false [[1; 2]] (le_n 1))).
Defined.

(** X9. A ciphertext with fewer than two components makes [Encrypt] panic
    with an index out of range, under either kind of key: the level of the
    ciphertext is read off its first component and the uniform sampler is
    handed its second one before anything else is done. *)
Theorem Encrypt_panics_on_a_ciphertext_short_of_two_components :
  forall (PV : Provider) (e : Encryptor) (pt : Plaintext) (el : Ciphertext)
         (s : state) (ptv : Poly),
    holds s (pt_Value pt) ptv ->
    (length (ct_Value el) < 2)%nat ->
    (forall l, ct_Value el !! 0%nat = Some l -> mem s l <> None) ->
    Encrypt e (Some pt) (IsCiphertext el) s = Panic IndexOutOfRange.
Proof.
  intros PV e pt el s ptv Hp Hlen H0. unfold holds in Hp.
  assert (E1 : Plaintext_Level (Some pt) s = Ok (Level ptv, s))
    by (unfold Plaintext_Level, bind, load, ret; now rewrite Hp).
  assert (E2 : Ciphertext_Level el s = Panic IndexOutOfRange \/
               exists lvl, Ciphertext_Level el s = Ok (lvl, s) /\
                           index (ct_Value el) 1 s = Panic IndexOutOfRange).
  { unfold Ciphertext_Level, bind, load, index, ret, fail.
    destruct (ct_Value el) as [|l0 [|l1 rest]]; cbn [length] in Hlen; [| | lia].
    - left. reflexivity.
    - right. cbn [lookup list_lookup]. specialize (H0 l0 eq_refl).
      destruct (mem s l0) as [c|]; [eauto | contradiction]. }
  destruct e as [enc pk | enc sk]; cbn [Encrypt]; unfold pk_Encrypt, sk_Encrypt;
    unfold bind at 1; rewrite E1; unfold bind at 1;
    destruct E2 as [-> | (lvl & -> & E3)]; try reflexivity;
    unfold bind at 1; now rewrite E3.
Qed.

(** A ciphertext of degree zero on the small provider. *)
Lemma Encrypt_panics_on_a_ciphertext_short_of_two_components_witness :
  let s := Toy.start Toy.paramsP true true true [[1; 2]; [1; 2]] in
  Encrypt (PV := Toy.provider) (SkEncryptor Toy.encP theSecretKey)
    (Some thePlaintext) (IsCiphertext (mkCiphertext [CtValue 0])) s
  = Panic IndexOutOfRange.
Proof.
  apply (Encrypt_panics_on_a_ciphertext_short_of_two_components Toy.provider
           (SkEncryptor Toy.encP theSecretKey) thePlaintext
           (mkCiphertext [CtValue 0])
           (Toy.start Toy.paramsP true true true [[1; 2]; [1; 2]])
           (Toy.ptPoly [[1; 2]; [1; 2]] true) eq_refl (le_n 2)).
  intros l [= <-]. discriminate.
Defined.

End ConstructionFacts.

(* ===================================================================== *)
(** ** The buffers carry nothing from one call to the next *)
(* ===================================================================== *)

Module ScratchFacts.
Import rlwe Spec MonadFacts Rules SecretKeyRuns PublicKeyRuns Scratch.

Lemma polyIs_unique p p' flag n f :
  polyIs p flag n f -> polyIs p' flag n f -> p = p'.
Proof.
  intros (F & L & R) (F' & L' & R').
  destruct p as [c b], p' as [c' b']. cbn [IsNTT Coeffs] in *. subst b b'.
  f_equal. apply list_eq. intros i.
  destruct (Nat.lt_ge_cases i n) as [Hi | Hi].
  - destruct (lookup_lt_is_Some_2 c i) as [x Ex]; [lia |].
    destruct (lookup_lt_is_Some_2 c' i) as [y Ey]; [lia |].
    pose proof (R i Hi) as Rx. pose proof (R' i Hi) as Ry.
    unfold rowAt in Rx, Ry. cbn [Coeffs] in Rx, Ry.
    rewrite Ex in Rx. rewrite Ey in Ry. cbn in Rx, Ry. congruence.
  - rewrite (proj2 (lookup_ge_None c i)), (proj2 (lookup_ge_None c' i)) by lia.
    reflexivity.
Qed.

Section Runs.
Context {PV : Provider}.

Lemma holds_functional s l p q : holds s l p -> holds s l q -> p = q.
Proof. unfold holds. congruence. Qed.

End Runs.

(** X11. The result of [Encrypt] does not depend on what the encryptor's
    buffers hold: from two well-formed states that differ in the buffers
    only, the call returns the same two components and the same PRNG
    state. Nothing is carried from one call to the next through the
    buffers. *)
Theorem Encrypt_ignores_the_contents_of_the_buffers :
  forall (PV : Provider) (e : Encryptor) (s t : state) (c0 c1 ptv : Poly),
    wellFormedCall e s c0 c1 ptv ->
    wellFormedCall e t c0 c1 ptv ->
    sameOffBuffers s t ->
    exists s' t',
      Encrypt e (Some thePlaintext) (IsCiphertext theCiphertext) s = Ok (tt, s') /\
      Encrypt e (Some thePlaintext) (IsCiphertext theCiphertext) t = Ok (tt, t') /\
      mem s' (CtValue 0) = mem t' (CtValue 0) /\
      mem s' (CtValue 1) = mem t' (CtValue 1) /\
      rng s' = rng t'.
Proof.
  intros PV e s t c0 c1 ptv Hs Ht [Hrng Hmem].
  destruct e as [enc pk | enc sk]; cbn [wellFormedCall Encrypt] in *.
  - destruct Hs as (-> & pk0 & pk1 & buf & Hin & HP).
    destruct Ht as (_ & pk0' & pk1' & buf' & Hin' & HP').
    assert (E0 : pk0' = pk0).
    { pose proof (pk_in_pk0 _ _ _ _ _ _ _ _ Hin) as A.
      pose proof (pk_in_pk0 _ _ _ _ _ _ _ _ Hin') as B.
      unfold holds in *. specialize (Hmem (PkQ 0)). cbn in Hmem. congruence. }
    assert (E1 : pk1' = pk1).
    { pose proof (pk_in_pk1 _ _ _ _ _ _ _ _ Hin) as A.
      pose proof (pk_in_pk1 _ _ _ _ _ _ _ _ Hin') as B.
      unfold holds in *. specialize (Hmem (PkQ 1)). cbn in Hmem. congruence. }
    subst pk0' pk1'.
    destruct HP as [HB | (rP & k0P & k1P & b0 & b1 & b2 & HinP)].
    + destruct (wp_Ok _ _ _
                  (pkNoP_Encrypt_run enc s c0 c1 ptv pk0 pk1 buf Hin
                     _ _ _ _ _ _ _ _ _ HB eq_refl eq_refl eq_refl eq_refl eq_refl
                     eq_refl eq_refl eq_refl eq_refl))
        as ([] & s' & Es & p0 & p1 & A0 & A1 & B0 & B1 & G).
      destruct (wp_Ok _ _ _
                  (pkNoP_Encrypt_run enc t c0 c1 ptv pk0 pk1 buf' Hin'
                     _ _ _ _ _ _ _ _ _ HB eq_refl eq_refl eq_refl eq_refl eq_refl
                     eq_refl eq_refl eq_refl eq_refl))
        as ([] & t' & Et & q0 & q1 & A0' & A1' & B0' & B1' & G').
      rewrite <- Hrng in *.
      exists s', t'. unfold holds in *.
      rewrite A0, A1, A0', A1', G, G'.
      rewrite (polyIs_unique _ _ _ _ _ B0 B0'), (polyIs_unique _ _ _ _ _ B1 B1').
      auto.
    + destruct HP' as [HB' | (rP' & k0P' & k1P' & b0' & b1' & b2' & HinP')].
      { rewrite (pk_extender _ _ _ _ _ _ _ _ HinP) in HB'. discriminate HB'. }
      assert (ER : rP' = rP).
      { pose proof (pk_ringP _ _ _ _ _ _ _ _ HinP) as A.
        pose proof (pk_ringP _ _ _ _ _ _ _ _ HinP') as B. congruence. }
      subst rP'.
      assert (E0P : k0P' = k0P).
      { pose proof (pk_in_pk0P _ _ _ _ _ _ _ _ HinP) as A.
        pose proof (pk_in_pk0P _ _ _ _ _ _ _ _ HinP') as B.
        unfold holds in *. specialize (Hmem (PkP 0)). cbn in Hmem. congruence. }
      assert (E1P : k1P' = k1P).
      { pose proof (pk_in_pk1P _ _ _ _ _ _ _ _ HinP) as A.
        pose proof (pk_in_pk1P _ _ _ _ _ _ _ _ HinP') as B.
        unfold holds in *. specialize (Hmem (PkP 1)). cbn in Hmem. congruence. }
      subst k0P' k1P'.
      destruct (wp_Ok _ _ _
                  (pk_Encrypt_run enc rP s c0 c1 ptv pk0 pk1 buf k0P k1P b0 b1 b2
                     Hin _ _ _ _ _ _ _ _ HinP eq_refl eq_refl eq_refl eq_refl
                     eq_refl eq_refl eq_refl eq_refl))
        as ([] & s' & Es & p0 & p1 & A0 & A1 & B0 & B1 & G).
      destruct (wp_Ok _ _ _
                  (pk_Encrypt_run enc rP t c0 c1 ptv pk0 pk1 buf' k0P k1P b0' b1' b2'
                     Hin' _ _ _ _ _ _ _ _ HinP' eq_refl eq_refl eq_refl eq_refl
                     eq_refl eq_refl eq_refl eq_refl))
        as ([] & t' & Et & q0 & q1 & A0' & A1' & B0' & B1' & G').
      rewrite <- Hrng in *.
      exists s', t'. unfold holds in *.
      rewrite A0, A1, A0', A1', G, G'.
      rewrite (polyIs_unique _ _ _ _ _ B0 B0'), (polyIs_unique _ _ _ _ _ B1 B1').
      auto.
  - destruct Hs as (-> & skq & buf & Hin).
    destruct Ht as (_ & skq' & buf' & Hin').
    assert (Ek : skq' = skq).
    { pose proof (sk_in_sk _ _ _ _ _ _ _ Hin) as A.
      pose proof (sk_in_sk _ _ _ _ _ _ _ Hin') as B.
      unfold holds in *. specialize (Hmem SkQ). cbn in Hmem. congruence. }
    subst skq'.
    destruct (wp_Ok _ _ _
                (sk_Encrypt_run enc s c0 c1 ptv skq buf Hin _ _ _ _
                   eq_refl eq_refl eq_refl eq_refl))
      as ([] & s' & Es & p0 & p1 & A0 & A1 & B0 & B1 & G).
    destruct (wp_Ok _ _ _
                (sk_Encrypt_run enc t c0 c1 ptv skq buf' Hin' _ _ _ _
                   eq_refl eq_refl eq_refl eq_refl))
      as ([] & t' & Et & q0 & q1 & A0' & A1' & B0' & B1' & G').
    rewrite <- Hrng in *.
    exists s', t'. unfold holds in *.
    rewrite A0, A1, A0', A1', G, G'.
    rewrite (polyIs_unique _ _ _ _ _ B0 B0'), (polyIs_unique _ _ _ _ _ B1 B1').
    auto.
Qed.

Lemma dirty_wellFormedCall ctNTT ptNTT ptRows :
  wellFormedCall (PV := Toy.provider) (SkEncryptor Toy.encP theSecretKey)
    (dirty ctNTT ptNTT ptRows)
    (Toy.ctPoly ctNTT) (Toy.ctPoly ctNTT) (Toy.ptPoly ptRows ptNTT).
Proof.
  split; [reflexivity |].
  exists Toy.skPoly, (mkPoly [[70; 71]; [72; 73]] true).
  constructor; first [reflexivity | cbn; lia].
Qed.

Lemma dirty_sameOffBuffers ctNTT ptNTT ptRows :
  sameOffBuffers (Toy.start Toy.paramsP true ctNTT ptNTT ptRows)
                 (dirty ctNTT ptNTT ptRows).
Proof. split; [reflexivity |]. intros l. destruct l; first [exact I | reflexivity]. Qed.

(** Clean and dirty buffers on the small provider, under a secret key. *)
Lemma Encrypt_ignores_the_contents_of_the_buffers_witness :
  let e := SkEncryptor Toy.encP theSecretKey in
  let s := Toy.start Toy.paramsP true true false [[1; 2]; [1; 2]] in
  let t := dirty true false [[1; 2]; [1; 2]] in
  mem s (PoolQ 0) <> mem t (PoolQ 0) /\
  exists s' t',
    Encrypt (PV := Toy.provider) e (Some thePlaintext)
      (IsCiphertext theCiphertext) s = Ok (tt, s') /\
    Encrypt e (Some thePlaintext) (IsCiphertext theCiphertext) t = Ok (tt, t') /\
    mem s' (CtValue 0) = mem t' (CtValue 0) /\
    mem s' (CtValue 1) = mem t' (CtValue 1) /\
    rng s' = rng t'.
Proof.
  split; [discriminate |].
  exact (Encrypt_ignores_the_contents_of_the_buffers Toy.provider
           (SkEncryptor Toy.encP theSecretKey) _ _
           (Toy.ctPoly true) (Toy.ctPoly true) (Toy.ptPoly [[1; 2]; [1; 2]] false)
           (Levels.toy_wellFormedCall_sk true false [[1; 2]; [1; 2]])
           (dirty_wellFormedCall true false [[1; 2]; [1; 2]])
           (dirty_sameOffBuffers true false [[1; 2]; [1; 2]])).
Defined.

End ScratchFacts.

(* ===================================================================== *)
(** ** Encryptions of zero and RGSW ciphertexts *)
(* ===================================================================== *)

Module GadgetRuns.
Import rlwe Spec MonadFacts Rules Gadget.

Section WP.
Context {PV : Provider}.

Lemma wp_ternary r f level p1 p2 p3 (Q : unit -> state -> Prop) s a b d :
  mem s p1 = Some a -> mem s p2 = Some b -> mem s p3 = Some d ->
  (rowsAt level <= ModulusCount r)%nat ->
  (rowsAt level <= length (Coeffs a))%nat ->
  (rowsAt level <= length (Coeffs b))%nat ->
  (rowsAt level <= length (Coeffs d))%nat ->
  (forall d', rewritten d d' (rowsAt level)
                (fun i => f i (rowAt a i) (rowAt b i) (rowAt d i)) ->
              Q tt {| mem := update (mem s) p3 d'; rng := rng s |}) ->
  wp (ternary r f level p1 p2 p3) Q s.
Proof.
  intros H1 H2 H3 L1 L2 L3 L4 HQ.
  unfold wp, ternary, bind, load, liftR, store, zip3Lvl. rewrite H1, H2, H3.
  rewrite levelGuard_3 by assumption. apply HQ.
  replace (rowsAt level) with (Nat.min (rowsAt level) (length (Coeffs d))) at 1 by lia.
  apply writeRows_rewritten.
Qed.

Lemma wp_notNil l (Q : bool -> state -> Prop) s o :
  mem s l = o -> Q (match o with Some _ => true | None => false end) s ->
  wp (notNil l) Q s.
Proof. intros <-. unfold wp, notNil. auto. Qed.

End WP.

(** Looks a ring element up through the updates of a symbolic run whose
    locations carry variable indices. *)
Ltac heap_find :=
  cbn [mem rng]; unfold update; cbv beta iota delta [loc_eqb];
  rewrite ?Nat.eqb_refl; cbn [Nat.eqb andb];
  first [ reflexivity | eassumption ].

Ltac run :=
  lazymatch goal with
  | |- wp (bind _ _) _ _ => apply wp_bind
  | |- wp (ret _) _ _ => apply wp_ret
  | |- wp (notNil _) _ _ => eapply wp_notNil; [first [eassumption | heap_find] |]
  | |- wp (load _) _ _ => eapply wp_load; [heap_find |]
  | |- wp (flagOf _) _ _ => eapply wp_flagOf; [heap_find |]
  | |- wp (unary _ _ _ _ _) _ _ =>
      eapply wp_unary; [heap_find | heap_find | len | len | len
                       | intros ? (? & ? & ? & ?)]
  | |- wp (binary _ _ _ _ _ _) _ _ =>
      eapply wp_binary; [heap_find | heap_find | heap_find
                        | len | len | len | len | intros ? (? & ? & ? & ?)]
  | |- wp (ternary _ _ _ _ _ _) _ _ =>
      eapply wp_ternary; [heap_find | heap_find | heap_find
                         | len | len | len | len | intros ? (? & ? & ? & ?)]
  | |- wp (ReadLvl _ _ _ _) _ _ =>
      eapply wp_ReadLvl; [heap_find | len | len | intros ? (? & ? & ? & ?)]
  | |- wp (ExtendBasisSmallNormAndCenter _ _ _ _) _ _ =>
      eapply wp_Extend; [eassumption | heap_find | heap_find
                        | len | len | len | intros ? (? & ? & ? & ?)]
  end;
  cbv beta iota; cbn [mem rng when negb] in *.

Section Zero.
Context {PV : Provider}.

(** One call of [encryptZeroSymetricQP] without a modulus [P], whatever its
    three flags. *)
Lemma encryptZeroSymetricQP_run enc s levelQ levelP k i j c0 c1 skq
    (sample mont ntt : bool) gA gE a e :
  zeroInputs (params enc) s levelQ k i j ntt c0 c1 skq ->
  gE = (if ntt then rng s
        else if sample then snd (uniformSampleQ (rng s) levelQ) else rng s) ->
  gA = (if ntt then snd (gaussianSample (rng s) levelQ) else rng s) ->
  e = fst (gaussianSample gE levelQ) ->
  a = (fun n => if sample then fst (uniformSampleQ gA levelQ) n else rowAt c1 n) ->
  wp (encryptZeroSymetricQP enc levelQ levelP (sk_Value theSecretKey)
        sample mont ntt (rgsw_Value k i j 0, rgsw_Value k i j 1))
     (fun _ s' =>
        exists p0 p1,
          holds s' (GadgetQ k i j 0) p0 /\ holds s' (GadgetQ k i j 1) p1 /\
          rewritten c0 p0 (rowsAt levelQ)
            (fun n => zero_body (RingQ (params enc)) ntt mont n
                        (a n) (e n) (rowAt skq n) (rowAt c0 n)) /\
          rewritten c1 p1 (rowsAt levelQ)
            (fun n => zero_mask (RingQ (params enc)) ntt mont n (a n)))
     s.
Proof.
  intros [HP Hnil H0 H1 Hs Hpool Lmax L0 L1 Ls] -> -> -> ->.
  unfold holds in *.
  cbv beta iota zeta delta
    [encryptZeroSymetricQP theSecretKey sk_Value rgsw_Value Q P
     gaussianSampler_ReadLvl uniformSamplerQ_ReadLvl
     QP_NTTLvl QP_InvNTTLvl QP_MFormLvl QP_AddLvl QP_MulCoeffsMontgomeryAndSubLvl
     QP_unary QP_binary
     NTTLvl InvNTTLvl MFormLvl AddLvl MulCoeffsMontgomeryAndSubLvl].
  cbn [fst snd]. rewrite HP. cbv beta iota.
  destruct ntt; [clear Hpool | destruct (Hpool eq_refl) as (pool & Hpl & Lpool)];
    destruct sample, mont; unfold zero_body, zero_mask; cbn [when negb].
  all: repeat run.
  all: do 2 eexists; split; [heap_find |]; split; [heap_find |].
  all: unfold rewritten; repeat split; try congruence; try lia.
  all: try (intros n Hn; rows; reflexivity).
Qed.

End Zero.

Section Shape.
Context {PV : Provider}.

Lemma rowsOf_Some s l n :
  rowsOf s l = Some n <-> exists p, mem s l = Some p /\ length (Coeffs p) = n.
Proof.
  unfold rowsOf. destruct (mem s l) as [p|]; cbn.
  - split; [intros [= <-]; eauto | intros (q & [= <-] & <-); reflexivity].
  - split; [discriminate | intros (q & E & _); discriminate E].
Qed.

Lemma rowsOf_None s l : rowsOf s l = None <-> mem s l = None.
Proof. unfold rowsOf. destruct (mem s l); cbn; split; congruence. Qed.

Lemma shapeKept_refl s : shapeKept s s.
Proof. intros l. reflexivity. Qed.

Lemma shapeKept_trans s t u : shapeKept s t -> shapeKept t u -> shapeKept s u.
Proof. intros H1 H2 l. now rewrite H2, H1. Qed.

Lemma shapeKept_rng s g : shapeKept s {| mem := mem s; rng := g |}.
Proof. intros l. reflexivity. Qed.

(** Overwriting a ring element by one with as many rows. *)
Lemma shapeKept_update s p d d' g :
  mem s p = Some d -> length (Coeffs d') = length (Coeffs d) ->
  shapeKept s {| mem := update (mem s) p d'; rng := g |}.
Proof.
  intros H L l. unfold rowsOf. cbn [mem].
  destruct (Tail.update_cases (mem s) p d' l) as [[-> <-] | [-> _]]; [| reflexivity].
  rewrite H. cbn. now rewrite L.
Qed.

Lemma rgswInPlace_shapeKept prm s s' nQ nP :
  rgswInPlace prm s nQ nP -> shapeKept s s' -> rgswInPlace prm s' nQ nP.
Proof.
  intros [HQ Hsk HE HP] K. constructor; [exact HQ | | |].
  - destruct Hsk as (m & E & L). exists m. now rewrite K.
  - intros k i j c H. rewrite K. now apply HE.
  - destruct (RingP prm) as [rP|].
    + destruct HP as (L & (m & E & Lm) & H). split; [exact L |]. split.
      * exists m. now rewrite K.
      * intros k i j c Hc. rewrite K. now apply H.
    + destruct HP as (L & H). split; [exact L |].
      intros k i j c Hc. rewrite K. now apply H.
Qed.

Lemma keepsShape_ret {A} (x : A) : keepsShape (ret x).
Proof. intros s y s' [= _ <-]. apply shapeKept_refl. Qed.

Lemma keepsShape_bind {A B} (m : M A) (k : A -> M B) :
  keepsShape m -> (forall x, keepsShape (k x)) -> keepsShape (bind m k).
Proof.
  intros Hm Hk s y s' E. apply bind_Ok in E as (x & s1 & E1 & E2).
  exact (shapeKept_trans s s1 s' (Hm s x s1 E1) (Hk x s1 y s' E2)).
Qed.

Lemma keepsShape_notNil l : keepsShape (notNil l).
Proof. intros s y s' [= _ <-]. apply shapeKept_refl. Qed.

Lemma keepsShape_load l : keepsShape (load l).
Proof.
  intros s y s' E. unfold load in E. destruct (mem s l); [| discriminate E].
  injection E as _ <-. apply shapeKept_refl.
Qed.

Lemma keepsShape_flagOf l : keepsShape (flagOf l).
Proof.
  unfold flagOf. apply keepsShape_bind; [apply keepsShape_load |].
  intros x. apply keepsShape_ret.
Qed.

Lemma length_mapLvl r f level a d d' :
  mapLvl r f level a d = Ok d' -> length (Coeffs d') = length (Coeffs d).
Proof.
  unfold mapLvl. destruct levelGuard; [| discriminate].
  intros [= <-]. apply length_writeRows.
Qed.

Lemma keepsShape_unary r f level p1 p2 : keepsShape (unary r f level p1 p2).
Proof.
  intros s y s' E. unfold unary, bind, load, liftR, store in E.
  destruct (mem s p1) as [a|]; [| discriminate E].
  destruct (mem s p2) as [d|] eqn:E2; [| discriminate E].
  destruct (mapLvl r f level a d) as [d'|] eqn:Em; [| discriminate E].
  injection E as _ <-. eapply shapeKept_update; eauto using length_mapLvl.
Qed.

Lemma keepsShape_binary r f level p1 p2 p3 : keepsShape (binary r f level p1 p2 p3).
Proof.
  intros s y s' E. unfold binary, bind, load, liftR, store, zipLvl in E.
  destruct (mem s p1) as [a|]; [| discriminate E].
  destruct (mem s p2) as [b|]; [| discriminate E].
  destruct (mem s p3) as [d|] eqn:E3; [| discriminate E].
  destruct levelGuard; [| discriminate E].
  injection E as _ <-. eapply shapeKept_update; eauto using length_writeRows.
Qed.

Lemma keepsShape_ternary r f level p1 p2 p3 : keepsShape (ternary r f level p1 p2 p3).
Proof.
  intros s y s' E. unfold ternary, bind, load, liftR, store, zip3Lvl in E.
  destruct (mem s p1) as [a|]; [| discriminate E].
  destruct (mem s p2) as [b|]; [| discriminate E].
  destruct (mem s p3) as [d|] eqn:E3; [| discriminate E].
  destruct levelGuard; [| discriminate E].
  injection E as _ <-. eapply shapeKept_update; eauto using length_writeRows.
Qed.

Lemma keepsShape_ReadLvl f r level pol : keepsShape (ReadLvl f r level pol).
Proof.
  intros s y s' E. unfold ReadLvl, bind, load, draw, liftR, store, fillLvl in E.
  destruct (mem s pol) as [d|] eqn:E1; [| discriminate E].
  destruct (f (rng s) level) as [sample g]. cbn [mem rng] in E.
  destruct (mapLvl r _ level d d) as [d'|] eqn:Em; [| discriminate E].
  injection E as _ <-.
  apply (shapeKept_update s pol d d' g E1 (length_mapLvl _ _ _ _ _ _ Em)).
Qed.

Lemma keepsShape_Extend prm a level b :
  keepsShape (ExtendBasisSmallNormAndCenter prm a level b).
Proof.
  intros s y s' E.
  unfold ExtendBasisSmallNormAndCenter, bind, load, index, liftR, store, fillLvl,
    ret, fail in E.
  destruct (RingP prm) as [rP|]; [| discriminate E].
  destruct (mem s a) as [x|]; [| discriminate E].
  destruct (mem s b) as [d|] eqn:E1; [| discriminate E].
  destruct (Coeffs x !! 0%nat) as [r0|]; [| discriminate E].
  destruct (mapLvl rP _ level d d) as [d'|] eqn:Em; [| discriminate E].
  injection E as _ <-. eapply shapeKept_update; eauto using length_mapLvl.
Qed.

Lemma keepsShape_forEach l body :
  (forall i, keepsShape (body i)) -> keepsShape (forEach l body).
Proof.
  intros H. induction l as [|i l IH]; cbn [forEach].
  - apply keepsShape_ret.
  - apply keepsShape_bind; auto.
Qed.

End Shape.

(** Decomposes a goal [keepsShape m] along the structure of [m], down to
    the methods of the ring package. *)
Ltac shapes :=
  repeat first
    [ apply keepsShape_unary | apply keepsShape_binary | apply keepsShape_ternary
    | apply keepsShape_ReadLvl | apply keepsShape_Extend
    | apply keepsShape_flagOf | apply keepsShape_notNil | apply keepsShape_ret
    | apply keepsShape_bind; [| intros ?]
    | match goal with
      | |- keepsShape (if ?b then _ else _) => destruct b
      | |- keepsShape (match ?x with _ => _ end) => destruct x
      | |- keepsShape (when ?b _) => destruct b; cbn [when]
      end ].

Section ShapeOfRoutines.
Context {PV : Provider}.

(** [encryptZeroSymetricQP] changes the number of rows of no ring element,
    whatever its flags, its target and the heap. *)
Lemma keepsShape_encryptZeroSymetricQP enc levelQ levelP sk sample mont ntt ct :
  keepsShape (encryptZeroSymetricQP enc levelQ levelP sk sample mont ntt ct).
Proof.
  unfold encryptZeroSymetricQP, gaussianSampler_ReadLvl, uniformSamplerQ_ReadLvl,
    uniformSamplerP_ReadLvl,
    QP_NTTLvl, QP_InvNTTLvl, QP_MFormLvl, QP_AddLvl,
    QP_MulCoeffsMontgomeryAndSubLvl, QP_unary, QP_binary,
    NTTLvl, InvNTTLvl, MFormLvl, AddLvl, MulCoeffsMontgomeryAndSubLvl.
  cbv zeta. shapes; intros s y s' E; discriminate E.
Qed.

Lemma wp_shape {A} (m : M A) (Q : A -> state -> Prop) s :
  keepsShape m -> wp m Q s -> wp m (fun x s' => Q x s' /\ shapeKept s s') s.
Proof.
  intros K H. unfold wp in *. destruct (m s) as [[x s']|e] eqn:E; [| exact H].
  split; [exact H | exact (K s x s' E)].
Qed.

Lemma wp_forEach (Inv : state -> Prop) l body s :
  (forall i t, In i l -> Inv t -> wp (body i) (fun _ t' => Inv t') t) ->
  Inv s -> wp (forEach l body) (fun _ s' => Inv s') s.
Proof.
  revert s. induction l as [|i l IH]; intros s H Hs; cbn [forEach].
  - exact Hs.
  - apply wp_bind. eapply wp_mono; [apply H; [left; reflexivity | exact Hs] |].
    intros [] s1 Hs1. apply IH; [| exact Hs1].
    intros i' t' Hi. apply H. now right.
Qed.

(** One of the calls [encryptRGSW] makes, on the entry [(k, i, j)] of a
    well-formed RGSW ciphertext: it returns, with or without a modulus
    [P], and the ciphertext is still well-formed. *)
Lemma encryptZeroSymetricQP_returns enc s nQ nP k i j :
  rgswInPlace (params enc) s nQ nP ->
  entryOf (params enc) nQ nP k i j 0 -> entryOf (params enc) nQ nP k i j 1 ->
  wp (encryptZeroSymetricQP enc (Z.of_nat nQ - 1) (Z.of_nat nP - 1)
        (sk_Value theSecretKey) true true true
        (rgsw_Value k i j 0, rgsw_Value k i j 1))
     (fun _ s' => rgswInPlace (params enc) s' nQ nP /\ shapeKept s s') s.
Proof.
  intros Hin E0 E1.
  eapply wp_mono;
    [apply (wp_shape _ (fun _ _ => True));
       [apply keepsShape_encryptZeroSymetricQP |]
    | intros x s' [_ K];
      exact (conj (rgswInPlace_shapeKept _ _ _ _ _ Hin K) K)].
  destruct Hin as [[LQ1 LQ] (m & Hsk & Lsk) HE HP].
  apply rowsOf_Some in Hsk as (skq & Hsk & <-).
  destruct (proj1 (rowsOf_Some _ _ _) (HE _ _ _ _ E0)) as (c0 & H0 & L0).
  destruct (proj1 (rowsOf_Some _ _ _) (HE _ _ _ _ E1)) as (c1 & H1 & L1).
  set (levelQ := Z.of_nat nQ - 1) in *.
  assert (HrQ : rowsAt levelQ = nQ) by (unfold rowsAt, levelQ; lia).
  set (levelP := Z.of_nat nP - 1) in *.
  assert (HrP : rowsAt levelP = nP) by (unfold rowsAt, levelP; lia).
  clearbody levelQ levelP.
  destruct (RingP (params enc)) as [rP|] eqn:ERP.
  - destruct HP as ([LP1 LP] & (mp & Hskp & Lskp) & HEP).
    apply rowsOf_Some in Hskp as (skp & Hskp & <-).
    destruct (proj1 (rowsOf_Some _ _ _) (HEP _ _ _ _ E0)) as (d0 & G0 & M0).
    destruct (proj1 (rowsOf_Some _ _ _) (HEP _ _ _ _ E1)) as (d1 & G1 & M1).
    assert (HPC : (PCount (params enc) =? 0)%nat = false)
      by (unfold PCount; rewrite ERP; apply Nat.eqb_neq; lia).
    cbv beta iota zeta delta
      [encryptZeroSymetricQP theSecretKey sk_Value rgsw_Value Q P
       gaussianSampler_ReadLvl uniformSamplerQ_ReadLvl uniformSamplerP_ReadLvl
       QP_NTTLvl QP_MFormLvl QP_MulCoeffsMontgomeryAndSubLvl QP_unary QP_binary
       NTTLvl MFormLvl MulCoeffsMontgomeryAndSubLvl].
    cbn [fst snd when negb]. rewrite ERP, HPC. cbv beta iota.
    repeat run. exact I.
  - destruct HP as (-> & HEP).
    eapply wp_mono;
      [eapply (encryptZeroSymetricQP_run enc s levelQ levelP k i j c0 c1 skq
                 true true true); try reflexivity
      | intros; exact I].
    constructor; unfold holds; try assumption; try lia; try discriminate.
    apply rowsOf_None. now apply HEP.
Qed.

End ShapeOfRoutines.

(** X12. One call of [encryptZeroSymetricQP] on an entry of an RGSW
    ciphertext, without a modulus [P] and whatever the three flags: it
    returns with, over the rows of the level, the mask [a] (freshly drawn
    when [sample], else what the entry held) and the body
    [noise - a * secret], the noise being Gaussian; with [ntt] the two stay
    in the evaluation domain, without it they are taken back to
    coefficients (and the product is subtracted from what the body held);
    [montgomery] puts both in Montgomery form. Rows above the level are
    untouched. *)
Theorem encryptZeroSymetricQP_body_and_mask :
  forall (PV : Provider) (enc : encryptor) (s : state) (levelQ levelP : Z)
         (k i j : nat) (c0 c1 skq : Poly) (sample mont ntt : bool),
    zeroInputs (params enc) s levelQ k i j ntt c0 c1 skq ->
    let gE := if ntt then rng s
              else if sample then snd (uniformSampleQ (rng s) levelQ)
                   else rng s in
    let gA := if ntt then snd (gaussianSample (rng s) levelQ) else rng s in
    let e := fst (gaussianSample gE levelQ) in
    let a := fun n => if sample then fst (uniformSampleQ gA levelQ) n
                      else rowAt c1 n in
    wp (encryptZeroSymetricQP enc levelQ levelP (sk_Value theSecretKey)
          sample mont ntt (rgsw_Value k i j 0, rgsw_Value k i j 1))
       (fun _ s' =>
          exists p0 p1,
            holds s' (GadgetQ k i j 0) p0 /\ holds s' (GadgetQ k i j 1) p1 /\
            rewritten c0 p0 (rowsAt levelQ)
              (fun n => zero_body (RingQ (params enc)) ntt mont n
                          (a n) (e n) (rowAt skq n) (rowAt c0 n)) /\
            rewritten c1 p1 (rowsAt levelQ)
              (fun n => zero_mask (RingQ (params enc)) ntt mont n (a n)))
       s.
Proof.
  intros PV enc s levelQ levelP k i j c0 c1 skq sample mont ntt Hin gE gA e a.
  exact (encryptZeroSymetricQP_run enc s levelQ levelP k i j c0 c1 skq
           sample mont ntt gA gE a e Hin eq_refl eq_refl eq_refl eq_refl).
Qed.

Lemma toy_zeroInputs ntt :
  zeroInputs (PV := Toy.provider) (params Toy.encNoP)
    (Toy.start Toy.paramsNoP false true true [[1; 2]; [1; 2]]) 1 0 0 0 ntt
    (mkPoly [[0; 0]; [0; 0]] true) (mkPoly [[0; 0]; [0; 0]] true) Toy.skPoly.
Proof.
  constructor; change (rowsAt 1) with 2%nat;
    try reflexivity; try (cbn; lia).
  intros _. exists (NewPoly 2 Toy.ringQ). split; [reflexivity | cbn; lia].
Qed.

(** The call [encryptRGSW] makes on the first entry, on the small provider
    without a modulus [P]. *)
Lemma encryptZeroSymetricQP_body_and_mask_witness :
  let s := Toy.start Toy.paramsNoP false true true [[1; 2]; [1; 2]] in
  let c := mkPoly [[0; 0]; [0; 0]] true in
  let e := fst (gaussianSample (Provider := Toy.provider) (rng s) 1) in
  let a := fun n : nat =>
             fst (uniformSampleQ (Provider := Toy.provider)
                    (snd (gaussianSample (Provider := Toy.provider) (rng s) 1)) 1) n in
  zeroInputs (PV := Toy.provider) (params Toy.encNoP) s 1 0 0 0 true c c Toy.skPoly /\
  wp (encryptZeroSymetricQP Toy.encNoP 1 (-1) (sk_Value theSecretKey)
        true true true (rgsw_Value 0 0 0 0, rgsw_Value 0 0 0 1))
     (fun _ s' =>
        exists p0 p1,
          holds s' (GadgetQ 0 0 0 0) p0 /\ holds s' (GadgetQ 0 0 0 1) p1 /\
          rewritten c p0 (rowsAt 1)
            (fun n => zero_body (RingQ (params Toy.encNoP)) true true n
                        (a n) (e n) (rowAt Toy.skPoly n) (rowAt c n)) /\
          rewritten c p1 (rowsAt 1)
            (fun n => zero_mask (RingQ (params Toy.encNoP)) true true n (a n)))
     s.
Proof.
  split; [apply toy_zeroInputs |].
  exact (encryptZeroSymetricQP_body_and_mask Toy.provider Toy.encNoP
           (Toy.start Toy.paramsNoP false true true [[1; 2]; [1; 2]])
           1 (-1) 0 0 0 (mkPoly [[0; 0]; [0; 0]] true)
           (mkPoly [[0; 0]; [0; 0]] true) Toy.skPoly true true true
           (toy_zeroInputs true)).
Defined.

(** X13. Under a secret key, [Encrypt] into a well-formed RGSW ciphertext
    returns, with or without a modulus [P], whatever the two decomposition
    sizes, and for a nil plaintext as well as for a supplied one (no
    plaintext level is read on this path). With a nil plaintext the RGSW
    ciphertext is still well-formed afterwards and no ring element of the
    heap has changed its number of rows. *)
Theorem Encrypt_RGSW_returns :
  forall (PV : Provider) (enc : encryptor) (s : state) (nQ nP : nat)
         (pt : option Plaintext),
    rgswInPlace (params enc) s nQ nP ->
    plaintextInPlace s nQ pt ->
    wp (Encrypt (SkEncryptor enc theSecretKey) pt IsRgswCiphertext)
       (fun _ s' =>
          pt = None -> rgswInPlace (params enc) s' nQ nP /\ shapeKept s s')
       s.
Proof.
  intros PV enc s nQ nP pt Hin Hpt.
  pose proof Hin as [[LQ1 LQ] _ HE HP].
  assert (E00 : entryOf (params enc) nQ nP 0 0 0 0) by (right; auto).
  destruct (proj1 (rowsOf_Some _ _ _) (HE _ _ _ _ E00)) as (c & Hc & Lc).
  assert (HlevelP : wp rgsw_LevelP
                       (fun lvl s' => lvl = Z.of_nat nP - 1 /\ s' = s) s).
  { unfold rgsw_LevelP, rgsw_Value. cbn [Q P].
    destruct (RingP (params enc)) as [rP|].
    - destruct HP as (_ & _ & HEP).
      destruct (proj1 (rowsOf_Some _ _ _) (HEP _ _ _ _ E00)) as (d & Hd & Ld).
      unfold wp, bind, notNil, load, ret. rewrite Hd. cbn. rewrite Hd.
      unfold Level. rewrite Ld. auto.
    - destruct HP as (-> & HEP).
      pose proof (proj1 (rowsOf_None _ _) (HEP _ _ _ _ E00)) as Hd.
      unfold wp, bind, notNil, ret. rewrite Hd. auto. }
  cbn [Encrypt sk_Encrypt]. unfold sk_encryptRGSW. cbv zeta.
  apply wp_bind. unfold rgsw_LevelQ at 1, rgsw_Value. cbn [Q P].
  apply wp_bind. eapply wp_load; [exact Hc |]. apply wp_ret.
  unfold Level. rewrite Lc.
  apply wp_bind. eapply wp_mono; [exact HlevelP |].
  intros levelP s0 [-> ->]. cbv beta.
  set (Inv := fun t => rgswInPlace (params enc) t nQ nP /\ shapeKept s t).
  apply wp_bind.
  eapply wp_mono;
    [apply (wp_forEach Inv); [| split; [exact Hin | apply shapeKept_refl]] |].
  - intros j t Hj Ht. apply in_seq in Hj.
    apply (wp_forEach Inv); [| exact Ht].
    intros i u Hi [Hu Ku]. apply in_seq in Hi.
    apply wp_bind.
    eapply wp_mono;
      [apply (encryptZeroSymetricQP_returns enc u nQ nP 0 i j Hu);
       left; repeat split; lia |].
    intros [] v [Hv Kv]. cbv beta.
    eapply wp_mono;
      [apply (encryptZeroSymetricQP_returns enc v nQ nP 1 i j Hv);
       left; repeat split; lia |].
    intros [] w [Hw Kw]. split; [exact Hw |].
    exact (shapeKept_trans _ _ _ Ku (shapeKept_trans _ _ _ Kv Kw)).
  - intros [] t [Ht Kt]. cbv beta.
    destruct pt as [pt|]; [| apply wp_ret; auto].
    destruct Hpt as (-> & (m & Hp & Lm) & (m' & Hq & Lm')).
    rewrite <- (Kt PtValue) in Hp. rewrite <- (Kt PoolQP_Q) in Hq.
    apply rowsOf_Some in Hp as (ptv & Hp & <-).
    apply rowsOf_Some in Hq as (pool & Hq & <-).
    set (levelQ := Z.of_nat nQ - 1) in *.
    assert (HrQ : rowsAt levelQ = nQ) by (unfold rowsAt, levelQ; lia).
    clearbody levelQ.
    unfold thePlaintext, MFormLvl, NTTLvl, AddPolyToGadgetMatrix. cbn [pt_Value].
    destruct (IsNTT ptv) eqn:Eflag.
    all: repeat run.
    all: try (rewrite Eflag; cbn [negb when]).
    all: repeat run.
    all: unfold wp; discriminate.
Qed.

Lemma toy_rgswInPlace ctNTT ptNTT ptRows :
  rgswInPlace (PV := Toy.provider) (params Toy.encP)
    (Toy.start Toy.paramsP true ctNTT ptNTT ptRows) 2 1.
Proof.
  assert (Hidx : forall k i j c,
             entryOf Toy.paramsP 2 1 k i j c ->
             (k = 0 \/ k = 1)%nat /\ (i = 0 \/ i = 1)%nat /\ j = 0%nat /\
             (c = 0 \/ c = 1)%nat)
    by (intros k i j c [H | H]; cbn in H; lia).
  constructor.
  - cbn. lia.
  - exists 2%nat. split; [reflexivity | lia].
  - intros k i j c H.
    destruct (Hidx k i j c H) as ([-> | ->] & [-> | ->] & -> & [-> | ->]);
      reflexivity.
  - cbn. split; [lia |]. split; [exists 1%nat; split; [reflexivity | lia] |].
    intros k i j c H.
    destruct (Hidx k i j c H) as ([-> | ->] & [-> | ->] & -> & [-> | ->]);
      reflexivity.
Qed.

(** A nil plaintext into the 2-by-1 RGSW ciphertext of the small provider,
    with a modulus [P]. *)
Lemma Encrypt_RGSW_returns_witness :
  let s := Toy.start Toy.paramsP true true true [[1; 2]; [1; 2]] in
  rgswInPlace (PV := Toy.provider) (params Toy.encP) s 2 1 /\
  wp (Encrypt (SkEncryptor Toy.encP theSecretKey) None IsRgswCiphertext)
     (fun _ s' => rgswInPlace (params Toy.encP) s' 2 1 /\ shapeKept s s') s.
Proof.
  split; [apply toy_rgswInPlace |].
  eapply wp_mono;
    [exact (Encrypt_RGSW_returns Toy.provider Toy.encP
              (Toy.start Toy.paramsP true true true [[1; 2]; [1; 2]]) 2 1 None
              (toy_rgswInPlace true true [[1; 2]; [1; 2]]) I) |].
  intros [] s' H. exact (H eq_refl).
Defined.

End GadgetRuns.

(* ===================================================================== *)
(** ** What the noise check of the lwe test-suite accepts *)
(* ===================================================================== *)

Module lweTestFacts.
Import lweTest.

Lemma shiftr_1 x : Z.shiftr x 1 = x / 2.
Proof. now rewrite Z.shiftr_div_pow2 by lia. Qed.

(** X14. The check that [testLWEToRLWE] (bound 19) and
    [testManyRLWEToSingleRLWE] (bound [N*N]) run on a decrypted coefficient
    accepts a residue [c] of the modulus exactly when [c] is within the
    bound of zero modulo the modulus, on either side, provided the modulus
    exceeds twice the bound by two at least. *)
Theorem noise_check_accepts_the_residues_near_zero :
  forall bound modulus c : Z,
    0 <= c < modulus -> modulus < 2 ^ 64 ->
    0 <= bound -> 2 * bound + 2 <= modulus ->
    (failsCheck bound modulus c = false <-> c <= bound \/ modulus - bound <= c).
Proof.
  intros bound modulus c Hc Hm Hb Hbig.
  unfold failsCheck, foldCoefficient, uint64_sub. rewrite shiftr_1.
  destruct (Z.leb_spec (modulus / 2) c) as [Hhalf | Hhalf].
  - rewrite Z.mod_small by lia. rewrite Z.ltb_ge.
    split; [lia |]. intros [H | H]; [| lia].
    revert Hhalf. Z.div_mod_to_equations. lia.
  - rewrite Z.ltb_ge. split; [lia |]. intros [H | H]; [lia |].
    revert Hhalf. Z.div_mod_to_equations. lia.
Qed.

(** Modulus 97 and the bound 19 of [testLWEToRLWE]: the residue 90, that is
    -7, is accepted. *)
Lemma noise_check_accepts_the_residues_near_zero_witness :
  failsCheck 19 97 90 = false <-> 90 <= 19 \/ 97 - 19 <= 90.
Proof.
  apply (noise_check_accepts_the_residues_near_zero 19 97 90); lia.
Defined.

End lweTestFacts.

(* ===================================================================== *)
(** ** The phase of a secret-key encryption *)
(* ===================================================================== *)

Module PhaseFacts.
Import rlwe Spec MonadFacts Rules SecretKeyRuns Domains Phase.

Section Algebra.
Variables (r : Ring) (q : nat -> Z) (valid : nat -> row -> Prop).
Hypothesis laws : RingLaws r q valid.
Hypothesis more : PhaseLaws r q valid.

Lemma encode_sk_mask ctNTT i mask :
  valid i mask ->
  congruent (q i) (encode r ctNTT i (sk_mask r ctNTT i mask)) mask.
Proof.
  intros Hm. unfold encode, sk_mask. destruct ctNTT; [apply congruent_refl |].
  now apply (NTT_InvNTT r q valid more).
Qed.

Lemma encode_sk_mask_valid ctNTT i mask :
  valid i mask -> valid i (encode r ctNTT i (sk_mask r ctNTT i mask)).
Proof.
  intros Hm. unfold encode, sk_mask. destruct ctNTT; [assumption |].
  apply (NTT_valid r q valid laws), (InvNTT_valid r q valid laws), Hm.
Qed.

Lemma decode_sk_body_valid ctNTT ptNTT i mask e m sk :
  valid i mask -> valid i e -> valid i m -> valid i sk ->
  valid i (decode r ctNTT i (sk_body r ctNTT ptNTT i mask e m sk)).
Proof.
  intros Ha He Hm Hs. unfold decode, sk_body.
  destruct ctNTT, ptNTT;
    repeat first
      [ assumption
      | apply (NTT_valid r q valid laws)
      | apply (InvNTT_valid r q valid laws)
      | apply (Add_valid r q valid laws)
      | apply (Neg_valid r q valid laws)
      | apply (Mul_valid r q valid laws) ].
Qed.

(** [((-x + e) + m) + x = e + m], modulo the modulus of the row. *)
Lemma phase_of_sk_body ctNTT ptNTT i mask e m sk :
  valid i mask -> valid i e -> valid i m -> valid i sk ->
  congruent (q i)
    (phase r ctNTT i (sk_body r ctNTT ptNTT i mask e m sk)
                     (sk_mask r ctNTT i mask) sk)
    (rowAdd r i e (decode r ptNTT i m)).
Proof.
  intros Ha He Hm Hs. unfold phase.
  set (x := rowInvNTT r i (rowMulMontgomery r i mask sk)).
  assert (Hx : valid i x)
    by (apply (InvNTT_valid r q valid laws), (Mul_valid r q valid laws);
        assumption).
  assert (Hd : valid i (decode r ptNTT i m))
    by (unfold decode; destruct ptNTT;
        [apply (InvNTT_valid r q valid laws) |]; assumption).
  assert (Hn : valid i (rowNeg r i x))
    by (apply (Neg_valid r q valid laws); assumption).
  pose proof (encode_sk_mask_valid ctNTT i mask Ha) as Hev.
  apply congruent_trans
    with (rowAdd r i (sk_content r ptNTT i mask e m sk) x).
  - apply (Add_cong r q valid laws).
    + now apply decode_sk_body_valid.
    + unfold sk_content. fold x.
      repeat apply (Add_valid r q valid laws); assumption.
    + apply (InvNTT_valid r q valid laws), (Mul_valid r q valid laws);
        assumption.
    + exact Hx.
    + now apply (decode_sk_body r q valid laws).
    + apply (InvNTT_cong r q valid more);
        [apply (Mul_valid r q valid laws); assumption
        |apply (Mul_valid r q valid laws); assumption |].
      apply (Mul_cong r q valid more); try assumption.
      now apply encode_sk_mask.
  - unfold sk_content. fold x.
    apply congruent_trans
      with (rowAdd r i (rowAdd r i (rowNeg r i x)
                          (rowAdd r i e (decode r ptNTT i m))) x).
    + apply (Add_cong r q valid laws);
        try (repeat apply (Add_valid r q valid laws); assumption).
      * apply (Add_assoc r q valid laws); assumption.
      * apply congruent_refl.
    + apply (Neg_cancel r q valid more); [assumption |].
      apply (Add_valid r q valid laws); assumption.
Qed.

End Algebra.

(** X15. What a secret-key [Encrypt] writes decrypts: for a ring
    arithmetic that obeys the laws modulo the moduli [q], on every row of
    the level [body + mask * secret], taken to the coefficient domain, is
    congruent to the Gaussian noise of the call plus the plaintext,
    whatever the domain flags of the ciphertext and of the plaintext. *)
Theorem sk_Encrypt_phase_is_noise_plus_plaintext :
  forall (PV : Provider) (q : nat -> Z) (valid : nat -> row -> Prop)
         (enc : encryptor) (s : state) (c0 c1 ptv skq buf : Poly),
    ProviderLaws (RingQ (params enc)) q valid ->
    PhaseLaws (RingQ (params enc)) q valid ->
    skInputs (params enc) s c0 c1 ptv skq buf ->
    let r := RingQ (params enc) in
    let levelQ := Z.min (Level ptv) (Level c0) in
    let noiseLevel := if IsNTT c0 then levelQ else Level c0 in
    let noise :=
      fst (gaussianSample (snd (uniformSampleQ (rng s) levelQ)) noiseLevel) in
    validRows valid (rowsAt levelQ) ptv ->
    validRows valid (rowsAt levelQ) skq ->
    wp (Encrypt (SkEncryptor enc theSecretKey) (Some thePlaintext)
          (IsCiphertext theCiphertext))
       (fun _ s' =>
          exists p0 p1,
            holds s' (CtValue 0) p0 /\ holds s' (CtValue 1) p1 /\
            forall i, (i < rowsAt levelQ)%nat ->
              congruent (q i)
                (phase r (IsNTT c0) i (rowAt p0 i) (rowAt p1 i) (rowAt skq i))
                (rowAdd r i (noise i) (decode r (IsNTT ptv) i (rowAt ptv i))))
       s.
Proof.
  intros PV q valid enc s c0 c1 ptv skq buf laws more Hin r levelQ noiseLevel
    noise Hpt Hsk.
  assert (Hle : (rowsAt levelQ <= ModulusCount r)%nat).
  { pose proof (sk_len_max _ _ _ _ _ _ _ Hin) as Hmax.
    unfold levelQ. rewrite rowsAt_min, !rowsAt_Level. unfold r. lia. }
  eapply wp_mono;
    [exact (sk_Encrypt_run enc s c0 c1 ptv skq buf Hin levelQ noiseLevel _ _
              eq_refl eq_refl eq_refl eq_refl) |].
  intros _ s' (p0 & p1 & H0 & H1 & (_ & _ & R0) & (_ & _ & R1) & _).
  exists p0, p1. split; [exact H0 |]. split; [exact H1 |].
  intros i Hi. rewrite (R0 i Hi), (R1 i Hi).
  apply (phase_of_sk_body r q valid (ring_laws r q valid laws) more).
  - apply (uniform_valid r q valid laws). lia.
  - apply (gaussian_valid r q valid laws). lia.
  - now apply Hpt.
  - now apply Hsk.
Qed.

(** A coefficient-domain plaintext into an evaluation-domain ciphertext,
    over the ring with word-level addition and negation. *)
Lemma sk_Encrypt_phase_is_noise_plus_plaintext_witness :
  let s := Toy.start Toy.paramsWord true true false [[1; 2]; [1; 2]] in
  let noise :=
    fst (gaussianSample (Provider := Toy.provider)
           (snd (uniformSampleQ (Provider := Toy.provider) (rng s) 1)) 1) in
  ProviderLaws (PV := Toy.provider) Toy.wordRingQ Toy.modulus Toy.valid /\
  PhaseLaws Toy.wordRingQ Toy.modulus Toy.valid /\
  wp (Encrypt (SkEncryptor Toy.encWord theSecretKey) (Some thePlaintext)
        (IsCiphertext theCiphertext))
     (fun _ s' =>
        exists p0 p1,
          holds s' (CtValue 0) p0 /\ holds s' (CtValue 1) p1 /\
          forall i, (i < 2)%nat ->
            congruent (Toy.modulus i)
              (phase Toy.wordRingQ true i (rowAt p0 i) (rowAt p1 i)
                 (rowAt Toy.skPoly i))
              (rowAdd Toy.wordRingQ i (noise i)
                 (decode Toy.wordRingQ false i
                    (rowAt (Toy.ptPoly [[1; 2]; [1; 2]] false) i))))
     s.
Proof.
  split; [exact ToyFacts.word_ProviderLaws |].
  split; [exact ToyFacts.word_PhaseLaws |].
  exact (sk_Encrypt_phase_is_noise_plus_plaintext Toy.provider Toy.modulus
           Toy.valid Toy.encWord
           (Toy.start Toy.paramsWord true true false [[1; 2]; [1; 2]])
           (Toy.ctPoly true) (Toy.ctPoly true)
           (Toy.ptPoly [[1; 2]; [1; 2]] false) Toy.skPoly
           (NewPoly 2 Toy.wordRingQ)
           ToyFacts.word_ProviderLaws ToyFacts.word_PhaseLaws
           (ToyFacts.word_skInputs true false [[1; 2]; [1; 2]])
           (ToyFacts.toy_validRows_pt false)
           (proj1 ToyFacts.toy_validRows_keys)).
Defined.

End PhaseFacts.

(* ===================================================================== *)
(** ** Encryption over a common reference polynomial *)
(* ===================================================================== *)

Module ReferenceRuns.
Import rlwe Spec MonadFacts Rules Reference.

Section Run.
Context {PV : Provider}.

Lemma wp_CopyValues p0 p1 (Q : unit -> state -> Prop) s a d :
  mem s p0 = Some a -> mem s p1 = Some d ->
  (length (Coeffs a) <= length (Coeffs d))%nat ->
  (forall i, (i < length (Coeffs a))%nat ->
             length (rowAt d i) = length (rowAt a i)) ->
  (forall d', rewritten d d' (length (Coeffs a)) (rowAt a) ->
              Q tt {| mem := update (mem s) p1 d'; rng := rng s |}) ->
  wp (CopyValues p0 p1) Q s.
Proof.
  intros H0 H1 L Hrows HQ.
  unfold wp, CopyValues, bind, load, store, fail. rewrite H0, H1.
  destruct (Nat.leb_spec (length (Coeffs a)) (length (Coeffs d))); [| lia].
  apply HQ. unfold rewritten, setCoeffs, rowAt. cbn [Coeffs IsNTT].
  split; [reflexivity |]. split; [apply length_imap |].
  split; intros i Hi; rewrite list_lookup_imap.
  - destruct (lookup_lt_is_Some_2 (Coeffs d) i) as [x Ex]; [lia |].
    rewrite Ex. cbn [fmap option_fmap option_map default].
    destruct (Nat.ltb_spec i (length (Coeffs a))); [| lia].
    apply GoSliceFacts.copy_same_length.
    specialize (Hrows i Hi). unfold rowAt in Hrows. now rewrite Ex in Hrows.
  - destruct (Coeffs d !! i) as [x|] eqn:Ex; [| reflexivity].
    cbn [fmap option_fmap option_map default].
    destruct (Nat.ltb_spec i (length (Coeffs a))); [lia | reflexivity].
Qed.

Lemma sk_EncryptFromCRP_run enc s c0 c1 ptv skq buf crp levelQ noiseLevel :
  skInputs (params enc) s c0 c1 ptv skq buf ->
  crpInputs s levelQ c1 crp ->
  levelQ = Z.min (Level ptv) (Level c0) ->
  noiseLevel = (if IsNTT c0 then levelQ else Level c0) ->
  wp (sk_EncryptFromCRP enc theSecretKey (Some thePlaintext) CrpValue theCiphertext)
     (fun _ s' =>
        exists p0 p1,
          holds s' (CtValue 0) p0 /\ holds s' (CtValue 1) p1 /\
          polyIs p0 (IsNTT c0) (rowsAt levelQ)
            (fun i => sk_body (RingQ (params enc)) (IsNTT c0) (IsNTT ptv) i
                        (rowAt crp i) (fst (gaussianSample (rng s) noiseLevel) i)
                        (rowAt ptv i) (rowAt skq i)) /\
          polyIs p1 (IsNTT c0) (rowsAt levelQ)
            (fun i => sk_mask (RingQ (params enc)) (IsNTT c0) i (rowAt crp i)) /\
          rng s' = snd (gaussianSample (rng s) noiseLevel))
     s.
Proof.
  intros [H0 H1 Hp Hs Hb L1 Lmax Lsk Lbuf] [Hc Lc Lc1 Lrows] HlevelQ ->.
  unfold holds in *.
  assert (Ln0 : (rowsAt levelQ <= length (Coeffs c0))%nat)
    by (subst levelQ; rewrite rowsAt_min, !rowsAt_Level; lia).
  assert (Lnp : (rowsAt levelQ <= length (Coeffs ptv))%nat)
    by (subst levelQ; rewrite rowsAt_min, !rowsAt_Level; lia).
  cbv beta iota zeta delta
    [sk_EncryptFromCRP sk_encryptRLWE finish thePlaintext theCiphertext
     theSecretKey pt_Value ct_Value sk_Value Q P Plaintext_Level Ciphertext_Level
     gaussianSampler_ReadLvl gaussianSampler_ReadAndAddLvl
     NTTLvl InvNTTLvl NegLvl AddLvl MulCoeffsMontgomeryLvl].
  apply wp_bind. eapply wp_index; [reflexivity |].
  apply wp_bind.
  eapply wp_CopyValues; [exact Hc | exact H1 | exact Lc1 | exact Lrows |].
  intros m (Fm & Lm & Rm & Km). cbv beta. cbn [mem rng] in *.
  destruct (IsNTT c0) eqn:Ec, (IsNTT ptv) eqn:Ep; unfold sk_body, sk_mask.
  all: repeat step.
  all: do 2 eexists; split; [heap_lookup |]; split; [heap_lookup |].
  all: unfold polyIs; repeat split; try congruence; try lia.
  all: try (intros i Hi; rows; reflexivity).
Qed.

End Run.

(** X16. A secret-key [EncryptFromCRP] of a supplied plaintext returns
    with, on every row of the level, the mask equal to the common reference
    polynomial and the body equal to [-crp * secret + noise + plaintext],
    each term taken to the domain of the ciphertext; a single Gaussian
    sample is drawn, and none for the mask. *)
Theorem sk_EncryptFromCRP_mask_and_body :
  forall (PV : Provider) (enc : encryptor) (s : state)
         (c0 c1 ptv skq buf crp : Poly),
    skInputs (params enc) s c0 c1 ptv skq buf ->
    let r := RingQ (params enc) in
    let levelQ := Z.min (Level ptv) (Level c0) in
    let noiseLevel := if IsNTT c0 then levelQ else Level c0 in
    let noise := fst (gaussianSample (rng s) noiseLevel) in
    crpInputs s levelQ c1 crp ->
    wp (EncryptFromCRP (SkEncryptor enc theSecretKey) (Some thePlaintext)
          CrpValue theCiphertext)
       (fun _ s' =>
          ciphertextIs (IsNTT c0) levelQ
            (fun i => sk_body r (IsNTT c0) (IsNTT ptv) i
                        (rowAt crp i) (noise i) (rowAt ptv i) (rowAt skq i))
            (fun i => sk_mask r (IsNTT c0) i (rowAt crp i)) s' /\
          rng s' = snd (gaussianSample (rng s) noiseLevel))
       s.
Proof.
  intros PV enc s c0 c1 ptv skq buf crp Hin r levelQ noiseLevel noise Hcrp.
  eapply wp_mono;
    [exact (sk_EncryptFromCRP_run enc s c0 c1 ptv skq buf crp levelQ noiseLevel
              Hin Hcrp eq_refl eq_refl) |].
  intros _ s' (p0 & p1 & H0 & H1 & Hb & Hm & G).
  split; [exists p0, p1; auto | exact G].
Qed.

Lemma toy_crpInputs ctNTT ptNTT ptRows levelQ :
  (rowsAt levelQ <= 2)%nat ->
  crpInputs (PV := Toy.provider) (Toy.start Toy.paramsP true ctNTT ptNTT ptRows)
    levelQ (Toy.ctPoly ctNTT) (mkPoly [[3; 4]; [5; 6]] true).
Proof.
  intros L. constructor; try reflexivity; try (cbn; lia).
  intros i Hi. destruct i as [|[|i]]; [reflexivity | reflexivity | cbn in Hi; lia].
Qed.

(** On the small provider, in the evaluation domain and at the top level. *)
Lemma sk_EncryptFromCRP_mask_and_body_witness :
  let s := Toy.start Toy.paramsP true true true [[1; 2]; [1; 2]] in
  let crp := mkPoly [[3; 4]; [5; 6]] true in
  let noise := fst (gaussianSample (Provider := Toy.provider) (rng s) 1) in
  skInputs (params Toy.encP) s (Toy.ctPoly true) (Toy.ctPoly true)
    (Toy.ptPoly [[1; 2]; [1; 2]] true) Toy.skPoly (NewPoly 2 Toy.ringQ) /\
  crpInputs s 1 (Toy.ctPoly true) crp /\
  wp (EncryptFromCRP (SkEncryptor Toy.encP theSecretKey) (Some thePlaintext)
        CrpValue theCiphertext)
     (fun _ s' =>
        ciphertextIs true 1
          (fun i => sk_body Toy.ringQ true true i (rowAt crp i) (noise i)
                      (rowAt (Toy.ptPoly [[1; 2]; [1; 2]] true) i)
                      (rowAt Toy.skPoly i))
          (fun i => sk_mask Toy.ringQ true i (rowAt crp i)) s' /\
        rng s' = snd (gaussianSample (Provider := Toy.provider) (rng s) 1))
     s.
Proof.
  split; [apply ToyFacts.toy_skInputs |].
  split; [apply toy_crpInputs; exact (le_n 2) |].
  exact (sk_EncryptFromCRP_mask_and_body Toy.provider Toy.encP
           (Toy.start Toy.paramsP true true true [[1; 2]; [1; 2]])
           (Toy.ctPoly true) (Toy.ctPoly true)
           (Toy.ptPoly [[1; 2]; [1; 2]] true) Toy.skPoly (NewPoly 2 Toy.ringQ)
           (mkPoly [[3; 4]; [5; 6]] true)
           (ToyFacts.toy_skInputs true true [[1; 2]; [1; 2]])
           (toy_crpInputs true true [[1; 2]; [1; 2]] 1 (le_n 2))).
Defined.

End ReferenceRuns.
